(** * cache/db_cache.cpp: the recently-used cache and the cached file database

    A shallow embedding of [struct Cache] and [class CachedFileDatabase]
    and the properties of the transactional caching layer that hold (or
    fail) on them.

    Conventions of the embedding.
    - [std::string] is [string]; [std::optional<T>] is [option T].
    - [std::unordered_map] is a [gmap], [std::unordered_set] a [gset].
    - A [std::list] node keeps its address while it is spliced around, and
      [m_cache_map] stores iterators, that is node addresses.  The list
      is therefore a sequence of nodes tagged with their address, and an
      iterator is such an address.
    - Every member function is a function from the state before the call
      to the result and the state after it; one call is one step (the
      mutexes make each critical section atomic, and the development
      follows one caller at a time). *)

From Stdlib Require Import String Ascii.
From Stdlib Require Import DecimalString.
From stdpp Require Import gmap strings list fin_maps.

(** ** [struct Cache] *)

Module Cache.

(** [std::list<...>::iterator]: the address of a list node. *)
Definition iterator := nat.

(** [std::pair<std::string, std::optional<std::string>>] *)
Definition entry : Type := string * option string.

(** A list node: its address and the pair it holds. *)
Definition node : Type := iterator * entry.

Record t := mk {
  m_capacity : nat;
  m_cache : list node;
  m_cache_map : gmap string iterator;
}.

(** [Cache(size_t capacity)] *)
Definition new (capacity : nat) : t :=
  {| m_capacity := capacity; m_cache := []; m_cache_map := ∅ |}.

(** *** The [std::list] operations the cache uses *)

(** [*it]: the pair held by the node at [it]. *)
Fixpoint deref (it : iterator) (l : list node) : option entry :=
  match l with
  | [] => None
  | (a, e) :: l' => if decide (a = it) then Some e else deref it l'
  end.

(** [it->second = value] *)
Fixpoint assign_second (it : iterator) (value : option string)
    (l : list node) : list node :=
  match l with
  | [] => []
  | (a, e) :: l' =>
      if decide (a = it) then (a, (e.1, value)) :: l'
      else (a, e) :: assign_second it value l'
  end.

(** Unlinking the node at [it]. *)
Fixpoint unlink (it : iterator) (l : list node) : list node :=
  match l with
  | [] => []
  | (a, e) :: l' => if decide (a = it) then l' else (a, e) :: unlink it l'
  end.

(** [l.splice(l.begin(), l, it)]: the node at [it] is relinked at the
    front; it keeps its address.  An iterator that points into no node of
    the list is undefined behaviour in C++; the model leaves the list as
    it is (no caller reaches that case on a well-formed cache). *)
Definition splice_front (it : iterator) (l : list node) : list node :=
  match deref it l with
  | Some e => (it, e) :: unlink it l
  | None => l
  end.

(** The address of a newly allocated node: any address no node of the
    list lives at.  (An allocator may hand out the address of a node freed
    earlier; so may this one.) *)
Definition fresh_iterator (l : list node) : iterator := S (max_list (l.*1)).

(** [l.emplace_front(key, value)], returning [l.begin()] as well. *)
Definition emplace_front (key : string) (value : option string)
    (l : list node) : iterator * list node :=
  let it := fresh_iterator l in (it, (it, (key, value)) :: l).

(** [l.back()] is [last l]; [l.pop_back()] is [removelast l]. *)

(** *** Member functions *)

(** [move_to_front]: [m_cache_map[key]] of a missing key would insert a
    singular iterator and splice it (undefined behaviour); both callers
    test for the key first, and the model leaves the cache unchanged
    there. *)
Definition move_to_front (key : string) (c : t) : t :=
  match m_cache_map c !! key with
  | Some it =>
      {| m_capacity := m_capacity c;
         m_cache := splice_front it (m_cache c);
         m_cache_map := m_cache_map c |}
  | None => c
  end.

(** The eviction step of [put]: [m_cache_map.erase(m_cache.back().first);
    m_cache.pop_back()].  [back()] of an empty list is undefined
    behaviour (reached only with capacity 0); the model does nothing. *)
Definition evict_back (c : t) : t :=
  match last (m_cache c) with
  | Some (_, (k, _)) =>
      {| m_capacity := m_capacity c;
         m_cache := removelast (m_cache c);
         m_cache_map := delete k (m_cache_map c) |}
  | None => c
  end.

(** [void put(const std::string& key, const std::optional<std::string>& value)] *)
Definition put (key : string) (value : option string) (c : t) : t :=
  match m_cache_map c !! key with
  | Some it =>
      move_to_front key
        {| m_capacity := m_capacity c;
           m_cache := assign_second it value (m_cache c);
           m_cache_map := m_cache_map c |}
  | None =>
      let c1 :=
        if decide (m_capacity c ≤ length (m_cache c)) then evict_back c
        else c in
      let '(it, l) := emplace_front key value (m_cache c1) in
      {| m_capacity := m_capacity c1;
         m_cache := l;
         m_cache_map := <[key := it]> (m_cache_map c1) |}
  end.

(** [bool get(const std::string& key, std::optional<std::string>& value)].
    The reference parameter [value] goes in and comes out: the result is
    the returned flag, the parameter after the call, and the cache after
    the call. *)
Definition get (key : string) (value : option string) (c : t)
    : bool * option string * t :=
  match m_cache_map c !! key with
  | None => (false, value, c)
  | Some it =>
      let value' :=
        match deref it (m_cache c) with
        | Some e => e.2
        | None => value
        end in
      (true, value', move_to_front key c)
  end.

(** What [print_self] walks over: the pairs from front to back. *)
Definition entries (c : t) : list entry := (m_cache c).*2.

(** The keys in recency order, most recently used first. *)
Definition keys (c : t) : list string := (entries c).*1.

(** *** Well-formedness: what the spec calls the cache invariant *)

Record wf (c : t) : Prop := mk_wf {
  wf_capacity : length (m_cache c) ≤ m_capacity c;
  wf_keys : NoDup (keys c);
  wf_nodes : NoDup ((m_cache c).*1);
  wf_index : ∀ k it,
    m_cache_map c !! k = Some it ↔ ∃ v, (it, (k, v)) ∈ m_cache c;
}.

(** The part of the node list the invariant is about: which address
    holds which key. *)
Definition skel (l : list node) : list (iterator * string) :=
  (λ n : node, (n.1, n.2.1)) <$> l.

(** Sequences of cache operations. *)
Inductive op :=
  | Put (key : string) (value : option string)
  | Get (key : string).

Definition step (o : op) (c : t) : t :=
  match o with
  | Put k v => put k v c
  | Get k => (get k None c).2
  end.

Definition run (ops : list op) (c : t) : t := foldl (λ c o, step o c) c ops.

(** The two characters of ["\r\n"]. *)
Definition crlf : string := String "013" (String "010" EmptyString).

(** [std::cout << n] for a [size_t]: its decimal digits. *)
Definition size_to_string (n : nat) : string :=
  NilZero.string_of_uint (Nat.to_uint n).

(** [void print_self() const]: the text it writes to [std::cout]. *)
Definition print_self (c : t) : string :=
  "cache capacity - " +:+ size_to_string (m_capacity c)
  +:+ " key-value pairs" +:+ crlf
  +:+ foldr (λ (e : entry) rest,
              e.1 +:+ ": "
              +:+ match e.2 with Some v => v | None => "<deleted>" end
              +:+ crlf +:+ rest)
        "" (entries c).

End Cache.

(** ** The text file behind the database

    [std::ifstream], [std::getline] and [std::ofstream] on the file named
    [m_filename].  A file is its contents, a string, or [None] when
    [std::ifstream] cannot open it, together with whether [std::ofstream]
    can open it. *)

Module FileStore.

Record File := mk_file {
  contents : option string;
  writable : bool;
}.

(** A file that opens for reading and for writing. *)
Definition regular (content : string) : File := mk_file (Some content) true.

(** A file that opens for reading only. *)
Definition read_only (content : string) : File := mk_file (Some content) false.

(** A file that does not open for reading, as one that does not exist. *)
Definition missing : File := mk_file None true.

(** The file opens for reading and for writing. *)
Definition read_write (file : File) : Prop :=
  is_Some (contents file) ∧ writable file = true.

Definition newline : ascii := "010"%char.

(** The lines [while (std::getline(fin, line))] yields: each line ends
    at a newline or at the end of the file, and a final newline starts no
    further line. *)
Fixpoint getlines (content : string) : list string :=
  match content with
  | EmptyString => []
  | String c rest =>
      if decide (c = newline) then EmptyString :: getlines rest
      else match getlines rest with
           | [] => [String c EmptyString]
           | line :: lines => String c line :: lines
           end
  end.

(** [for (const auto& line : lines) fout << line << '\n';] *)
Fixpoint putlines (lines : list string) : string :=
  match lines with
  | [] => EmptyString
  | line :: lines' => line +:+ String newline (putlines lines')
  end.

(** [s.find(pat)]: the position of the first occurrence, [None] for
    [std::string::npos]. *)
Definition find (s pat : string) : option nat := String.index 0 pat s.

(** [s.substr(pos)] *)
Definition substr (s : string) (pos : nat) : string :=
  String.substring pos (String.length s - pos) s.

(** [line.find(key + "=") == 0] *)
Definition key_line (key line : string) : bool :=
  bool_decide (find line (key +:+ "=") = Some 0).

(** The read loop of [file_write_or_delete]: the lines pushed to
    [lines], and [is_key_found] when the loop ends. *)
Fixpoint scan (is_delete : bool) (key value : string) (is_key_found : bool)
    (input : list string) : list string * bool :=
  match input with
  | [] => ([], is_key_found)
  | line :: rest =>
      if negb is_key_found && key_line key line then
        let '(lines, found) := scan is_delete key value true rest in
        (if is_delete then lines else (key +:+ "=" +:+ value) :: lines, found)
      else
        let '(lines, found) := scan is_delete key value is_key_found rest in
        (line :: lines, found)
  end.

(** [void file_write_or_delete(bool is_delete, key, value)] *)
Definition file_write_or_delete (is_delete : bool) (key value : string)
    (file : File) : File :=
  match contents file with
  | None => file
  | Some content =>
      let '(lines, is_key_found) :=
        scan is_delete key value false (getlines content) in
      let lines :=
        if is_key_found then lines else lines ++ [key +:+ "=" +:+ value] in
      if negb is_key_found && is_delete then file
      else if negb (writable file) then file
      else mk_file (Some (putlines lines)) (writable file)
  end.

(** The messages of [file_write_or_delete] and [file_get_value] on
    [std::cerr], and which of them [file_write_or_delete] writes. *)
Definition read_error : string :=
  "Error opening file for reading!" +:+ String newline EmptyString.

Definition write_error : string :=
  "Error opening file for writing!" +:+ String newline EmptyString.

Definition file_write_or_delete_cerr (is_delete : bool) (key value : string)
    (file : File) : list string :=
  match contents file with
  | None => [read_error]
  | Some content =>
      let '(_, is_key_found) :=
        scan is_delete key value false (getlines content) in
      if negb is_key_found && is_delete then []
      else if negb (writable file) then [write_error]
      else []
  end.

Definition file_write_key_value (key value : string) :=
  file_write_or_delete false key value.

Definition file_delete_key (key : string) :=
  file_write_or_delete true key "".

(** The loop of [file_get_value] over the lines of the file. *)
Fixpoint first_value (key : string) (input : list string) : string :=
  match input with
  | [] => ""
  | line :: rest =>
      if key_line key line then
        match find line "=" with
        | Some pos => substr line (pos + 1)
        | None => ""
        end
      else first_value key rest
  end.

(** [std::string file_get_value(const std::string& key)] *)
Definition file_get_value (key : string) (file : File) : string :=
  match contents file with
  | None => ""
  | Some content => first_value key (getlines content)
  end.

(** What [file_get_value] writes to [std::cerr]. *)
Definition file_get_value_cerr (key : string) (file : File) : list string :=
  match contents file with
  | None => [read_error]
  | Some _ => []
  end.

(** Does the character occur in the string? *)
Fixpoint occurs (c : ascii) (s : string) : bool :=
  match s with
  | EmptyString => false
  | String c' s' => bool_decide (c' = c) || occurs c s'
  end.

(** The lines of the file that [file_get_value] and
    [file_write_or_delete] take for lines of [key]. *)
Definition lines_of (key : string) (file : File) : list string :=
  match contents file with
  | None => []
  | Some content => filter (λ line, key_line key line = true) (getlines content)
  end.

(** A key the file format can hold and find again: no [=] and no
    newline in it.  A value: no newline in it. *)
Definition plain_key (key : string) : Prop :=
  occurs "=" key = false ∧ occurs newline key = false.

Definition plain_value (value : string) : Prop :=
  occurs newline value = false.

(** No key without [=] has two lines in the file. *)
Definition one_line_per_key (file : File) : Prop :=
  ∀ key, occurs "=" key = false → length (lines_of key file) ≤ 1.

(** The text before the first newline of a string. *)
Fixpoint first_line (s : string) : string :=
  match s with
  | EmptyString => EmptyString
  | String c s' =>
      if decide (c = newline) then EmptyString else String c (first_line s')
  end.

End FileStore.

(** ** [class CachedFileDatabase]

    The state one caller sees: the members shared by all threads
    ([m_local_cache], the file) and that caller's thread-local
    transaction data. *)

Module CachedFileDatabase.

Import FileStore.

Record t := mk {
  m_local_cache : option Cache.t;
  m_file : File;
  ts_transaction_active : bool;
  ts_transaction_data : gmap string string;
  ts_transaction_deletes : gset string;
}.

(** [CachedFileDatabase(const std::string& file, int cache_size = 0)],
    on a thread whose thread-locals still have their initial values. *)
Definition new (file : File) (cache_size : Z) : t :=
  {| m_local_cache :=
       if decide (0 < cache_size)%Z then Some (Cache.new (Z.to_nat cache_size))
       else None;
     m_file := file;
     ts_transaction_active := false;
     ts_transaction_data := ∅;
     ts_transaction_deletes := ∅ |}.

Definition with_cache (c : option Cache.t) (s : t) : t :=
  mk c (m_file s) (ts_transaction_active s) (ts_transaction_data s)
     (ts_transaction_deletes s).

Definition with_file (f : File) (s : t) : t :=
  mk (m_local_cache s) f (ts_transaction_active s) (ts_transaction_data s)
     (ts_transaction_deletes s).

Definition with_locals (active : bool) (data : gmap string string)
    (deletes : gset string) (s : t) : t :=
  mk (m_local_cache s) (m_file s) active data deletes.

(** The same database as seen by another thread, whose thread-locals are
    those of [other]. *)
Definition on_thread (other : t) (s : t) : t :=
  with_locals (ts_transaction_active other) (ts_transaction_data other)
    (ts_transaction_deletes other) s.

(** [if (m_local_cache.has_value()) m_local_cache->put(key, value);] *)
Definition cache_put (key : string) (value : option string) (s : t) : t :=
  match m_local_cache s with
  | Some c => with_cache (Some (Cache.put key value c)) s
  | None => s
  end.

(** [ts_transaction_data[key]] read as a value: [operator[]] inserts a
    default-constructed string when the key is missing. *)
Definition subscript (key : string) (s : t) : string * t :=
  match ts_transaction_data s !! key with
  | Some v => (v, s)
  | None =>
      ("", with_locals (ts_transaction_active s)
             (<[key := ""]> (ts_transaction_data s))
             (ts_transaction_deletes s) s)
  end.

(** [bool begin_transaction()] *)
Definition begin_transaction (s : t) : bool * t :=
  if ts_transaction_active s then (false, s)
  else (true, with_locals true ∅ ∅ s).

(** One round of the first loop of [commit_transaction]. *)
Definition commit_write (pair : string * string) (s : t) : t :=
  cache_put pair.1 (Some pair.2)
    (with_file (file_write_key_value pair.1 pair.2 (m_file s)) s).

(** One round of the second loop of [commit_transaction]. *)
Definition commit_delete (key : string) (s : t) : t :=
  cache_put key None (with_file (file_delete_key key (m_file s)) s).

(** The body of [commit_transaction] once the transaction is known to
    be active, with the loops visiting the pairs of [ts_transaction_data]
    in the order [writes] and the keys of [ts_transaction_deletes] in the
    order [deletes]. *)
Definition commit_in_order (writes : list (string * string))
    (deletes : list string) (s : t) : t :=
  let s1 := foldl (λ s p, commit_write p s) s writes in
  let s2 := foldl (λ s k, commit_delete k s) s1 deletes in
  with_locals false ∅ ∅ s2.

(** An order in which the loops of [commit_transaction] may visit the
    buffer of [s]: the unordered containers fix none. *)
Definition iteration_order (writes : list (string * string))
    (deletes : list string) (s : t) : Prop :=
  writes ≡ₚ map_to_list (ts_transaction_data s) ∧
  deletes ≡ₚ elements (ts_transaction_deletes s).

(** [bool commit_transaction()].  Here the loops visit the unordered
    containers in the order [map_to_list] and [elements] list them, one
    of the orders [iteration_order] admits; what a commit stores is
    stated below for [commit_in_order] under every such order. *)
Definition commit_transaction (s : t) : bool * t :=
  if ts_transaction_active s then
    (true,
     commit_in_order (map_to_list (ts_transaction_data s))
       (elements (ts_transaction_deletes s)) s)
  else (false, s).

(** [bool abort_transaction()] *)
Definition abort_transaction (s : t) : bool * t :=
  if ts_transaction_active s then (true, with_locals false ∅ ∅ s)
  else (false, s).

(** [tmp_value.value_or("")] *)
Definition value_or (o : option string) (d : string) : string :=
  match o with Some v => v | None => d end.

(** [std::string get_key(const std::string& key)] *)
Definition get_key (key : string) (s : t) : string * t :=
  if negb (ts_transaction_active s) then ("", s)
  else if decide (key ∈ ts_transaction_deletes s) then ("", s)
  else if decide (is_Some (ts_transaction_data s !! key)) then subscript key s
  else
    let miss (s : t) : string * t :=
      let value := file_get_value key (m_file s) in
      (value, cache_put key None s) in
    match m_local_cache s with
    | Some c =>
        let '(exists_, tmp_value, c') := Cache.get key None c in
        let s' := with_cache (Some c') s in
        if exists_ then (value_or tmp_value "", s') else miss s'
    | None => miss s
    end.

(** [std::string set_key(const std::string& key, const std::string& data)] *)
Definition set_key (key data : string) (s : t) : string * t :=
  if negb (ts_transaction_active s) then ("", s)
  else
    let '(old_value, s1) := get_key key s in
    (old_value,
     with_locals (ts_transaction_active s1)
       (<[key := data]> (ts_transaction_data s1))
       (ts_transaction_deletes s1 ∖ {[key]}) s1).

(** [std::string delete_key(const std::string& key)] *)
Definition delete_key (key : string) (s : t) : string * t :=
  if negb (ts_transaction_active s) then ("", s)
  else
    let '(old_value, s1) := get_key key s in
    (old_value,
     with_locals (ts_transaction_active s1)
       (delete key (ts_transaction_data s1))
       (ts_transaction_deletes s1 ∪ {[key]}) s1).

(** Calls on the [i_db] interface and what they return. *)
Inductive call :=
  | Begin
  | Commit
  | Abort
  | GetKey (key : string)
  | SetKey (key data : string)
  | DeleteKey (key : string).

Inductive result :=
  | RBool (b : bool)
  | RString (v : string).

Definition exec (c : call) (s : t) : result * t :=
  match c with
  | Begin => prod_map RBool id (begin_transaction s)
  | Commit => prod_map RBool id (commit_transaction s)
  | Abort => prod_map RBool id (abort_transaction s)
  | GetKey k => prod_map RString id (get_key k s)
  | SetKey k d => prod_map RString id (set_key k d s)
  | DeleteKey k => prod_map RString id (delete_key k s)
  end.

(** A caller issuing the calls one after the other: the results, in
    order, and the state at the end. *)
Fixpoint trace (cs : list call) (s : t) : list result * t :=
  match cs with
  | [] => ([], s)
  | c :: cs' =>
      let '(r, s1) := exec c s in
      let '(rs, s2) := trace cs' s1 in
      (r :: rs, s2)
  end.

(** The writes map and the deletes set share no key. *)
Definition buffer_disjoint (s : t) : Prop :=
  dom (ts_transaction_data s) ## ts_transaction_deletes s.

(** The cache, if the database has one, is well formed. *)
Definition cache_ok (s : t) : Prop :=
  ∀ c, m_local_cache s = Some c → Cache.wf c ∧ 0 < Cache.m_capacity c.

(** Two states that differ at most in the cache. *)
Definition same_but_cache (s s' : t) : Prop :=
  m_file s = m_file s' ∧
  ts_transaction_active s = ts_transaction_active s' ∧
  ts_transaction_data s = ts_transaction_data s' ∧
  ts_transaction_deletes s = ts_transaction_deletes s'.

(** Every key and value staged in the buffer is one the file format can
    hold and find again. *)
Definition plain_buffer (s : t) : Prop :=
  (∀ k v, ts_transaction_data s !! k = Some v →
          plain_key k ∧ plain_value v) ∧
  (∀ k, k ∈ ts_transaction_deletes s → occurs "=" k = false).

(** The [put]s of a commit, in the order it makes them. *)
Definition puts_in_order (writes : list (string * string))
    (deletes : list string) : list Cache.entry :=
  ((λ p : string * string, (p.1, Some p.2)) <$> writes)
  ++ ((λ k : string, (k, None)) <$> deletes).

Definition commit_puts (s : t) : list Cache.entry :=
  puts_in_order (map_to_list (ts_transaction_data s))
    (elements (ts_transaction_deletes s)).

(** Outside a transaction the buffer is empty. *)
Definition idle_empty (s : t) : Prop :=
  ts_transaction_active s = false →
  ts_transaction_data s = ∅ ∧ ts_transaction_deletes s = ∅.

(** A call whose key and value, if it stages any, are ones the file
    format can hold and find again. *)
Definition plain_call (c : call) : Prop :=
  match c with
  | SetKey k d => plain_key k ∧ plain_value d
  | DeleteKey k => occurs "=" k = false
  | _ => True
  end.

(** What a statement writes to [std::cout] or to [std::cerr]. *)
Inductive output :=
  | Cout (text : string)
  | Cerr (text : string).

(** [std::endl] *)
Definition endl : string := String newline EmptyString.

(** [std::to_string] of an [int] *)
Definition to_string (n : Z) : string := NilZero.string_of_int (Z.to_int n).

(** [void print_cache()]: the text it writes to [std::cout]. *)
Definition print_cache (s : t) : string :=
  match m_local_cache s with
  | None => "no cache." +:+ Cache.crlf
  | Some c => Cache.print_self c
  end.

(** What [get_key] writes to [std::cerr]: the message of
    [file_get_value], when the call comes to read the file. *)
Definition get_key_cerr (key : string) (s : t) : list string :=
  if negb (ts_transaction_active s) then []
  else if decide (key ∈ ts_transaction_deletes s) then []
  else if decide (is_Some (ts_transaction_data s !! key)) then []
  else
    match m_local_cache s with
    | Some c =>
        let '(exists_, _, _) := Cache.get key None c in
        if exists_ then [] else file_get_value_cerr key (m_file s)
    | None => file_get_value_cerr key (m_file s)
    end.

(** What [set_key] and [delete_key] write to [std::cerr]: what their
    call of [get_key] writes. *)
Definition set_key_cerr (key data : string) (s : t) : list string :=
  if negb (ts_transaction_active s) then [] else get_key_cerr key s.

Definition delete_key_cerr (key : string) (s : t) : list string :=
  if negb (ts_transaction_active s) then [] else get_key_cerr key s.

(** What the loops of [commit_transaction] write to [std::cerr]: the
    messages of [file_write_or_delete], round by round. *)
Fixpoint commit_writes_cerr (writes : list (string * string)) (s : t)
    : list string :=
  match writes with
  | [] => []
  | p :: rest =>
      file_write_or_delete_cerr false p.1 p.2 (m_file s)
      ++ commit_writes_cerr rest (commit_write p s)
  end.

Fixpoint commit_deletes_cerr (deletes : list string) (s : t) : list string :=
  match deletes with
  | [] => []
  | key :: rest =>
      file_write_or_delete_cerr true key "" (m_file s)
      ++ commit_deletes_cerr rest (commit_delete key s)
  end.

Definition commit_in_order_cerr (writes : list (string * string))
    (deletes : list string) (s : t) : list string :=
  commit_writes_cerr writes s
  ++ commit_deletes_cerr deletes (foldl (λ s p, commit_write p s) s writes).

Definition commit_transaction_cerr (s : t) : list string :=
  if ts_transaction_active s then
    commit_in_order_cerr (map_to_list (ts_transaction_data s))
      (elements (ts_transaction_deletes s)) s
  else [].

(** [void test1(int thread_id, CachedFileDatabase& db)]: what it and the
    calls it makes write, statement by statement, and the database after
    it. *)
Definition test1 (thread_id : Z) (db : t) : list output * t :=
  let id := to_string thread_id in
  let '(began, db1) := begin_transaction db in
  if negb began then
    ([Cerr ("Thread " +:+ id +:+ ": Failed to begin transaction!" +:+ endl)],
     db1)
  else
    let key1 := "key" +:+ id +:+ "_1" in
    let key2 := "key" +:+ id +:+ "_2" in
    let value1 := "value" +:+ id +:+ "_1" in
    let value2 := "value" +:+ id +:+ "_2" in
    let '(_, db2) := set_key key1 value1 db1 in
    let '(_, db3) := set_key key2 value2 db2 in
    let log_set :=
      (Cerr <$> set_key_cerr key1 value1 db1)
      ++ (Cerr <$> set_key_cerr key2 value2 db2)
      ++ [Cout ("Thread " +:+ id +:+ ": Set " +:+ key1 +:+ " = " +:+ value1
                +:+ endl);
          Cout ("Thread " +:+ id +:+ ": Set " +:+ key2 +:+ " = " +:+ value2
                +:+ endl)] in
    let '(result1, db4) := get_key key1 db3 in
    let '(result2, db5) := get_key key2 db4 in
    let log_got :=
      (Cerr <$> get_key_cerr key1 db3)
      ++ (Cerr <$> get_key_cerr key2 db4)
      ++ [Cout ("Thread " +:+ id +:+ ": Got " +:+ key1 +:+ " = " +:+ result1
                +:+ endl);
          Cout ("Thread " +:+ id +:+ ": Got " +:+ key2 +:+ " = " +:+ result2
                +:+ endl)] in
    let '(_, db6) := delete_key key1 db5 in
    let log_deleted :=
      (Cerr <$> delete_key_cerr key1 db5)
      ++ [Cout ("Thread " +:+ id +:+ ": Deleted " +:+ key1 +:+ endl)] in
    let '(committed, db7) := commit_transaction db6 in
    let log_commit := Cerr <$> commit_transaction_cerr db6 in
    if negb committed then
      (log_set ++ log_got ++ log_deleted ++ log_commit
       ++ [Cerr ("Thread " +:+ id +:+ ": Failed to commit transaction!"
                 +:+ endl)],
       db7)
    else
      (log_set ++ log_got ++ log_deleted ++ log_commit
       ++ [Cerr ("Thread " +:+ id +:+ ": Committed transaction!" +:+ endl);
           Cout (print_cache db7)],
       db7).

End CachedFileDatabase.

Module Db := CachedFileDatabase.

(** * Properties of the cache *)

Section cache_lists.

Import Cache.

Lemma skel_fst l : (skel l).*1 = l.*1.
Proof. unfold skel. rewrite <- list_fmap_compose. done. Qed.

Lemma skel_snd l : (skel l).*2 = (l.*2).*1.
Proof. unfold skel. rewrite <- !list_fmap_compose. done. Qed.

Lemma skel_length l : length (skel l) = length l.
Proof. apply length_fmap. Qed.

Lemma elem_of_skel it k l : (it, k) ∈ skel l ↔ ∃ v, (it, (k, v)) ∈ l.
Proof.
  unfold skel. rewrite list_elem_of_fmap. split.
  - intros [[a [k' v]] [[= -> ->] Hin]]. eauto.
  - intros [v Hin]. exists (it, (k, v)). done.
Qed.

Lemma skel_assign_second it v l : skel (assign_second it v l) = skel l.
Proof.
  induction l as [|[a e] l IH]; [done|]. simpl.
  case_decide; simpl; [done|]. by rewrite IH.
Qed.

Lemma deref_elem_of it e l : deref it l = Some e → (it, e) ∈ l.
Proof.
  induction l as [|[a e'] l IH]; [done|]. simpl.
  case_decide as Ha.
  - intros [= ->]. subst. left.
  - intros H. right. auto.
Qed.

Lemma elem_of_deref it e l : NoDup (l.*1) → (it, e) ∈ l → deref it l = Some e.
Proof.
  induction l as [|[a e'] l IH]; simpl.
  - intros _ Hin. by apply elem_of_nil in Hin.
  - intros [Hnotin Hnd]%NoDup_cons [Heq|Hin]%elem_of_cons.
    + injection Heq as -> ->. by rewrite decide_True.
    + case_decide as Ha; [|auto]. subst a. exfalso. apply Hnotin.
      apply list_elem_of_fmap. by exists (it, e).
Qed.

Lemma deref_None it l : it ∉ l.*1 → deref it l = None.
Proof.
  induction l as [|[a e] l IH]; [done|]. simpl.
  intros Hn. apply not_elem_of_cons in Hn as [Hne Hn].
  rewrite decide_False; [auto|done].
Qed.

Lemma unlink_perm it e l : deref it l = Some e → l ≡ₚ (it, e) :: unlink it l.
Proof.
  induction l as [|[a e'] l IH]; [done|]. simpl.
  case_decide as Ha.
  - intros [= ->]. by subst.
  - intros H. rewrite (IH H) at 1. apply Permutation_swap.
Qed.

Lemma splice_front_perm it l : splice_front it l ≡ₚ l.
Proof.
  unfold splice_front. destruct (deref it l) as [e|] eqn:He; [|done].
  symmetry. by apply unlink_perm.
Qed.

Lemma splice_front_head it e l : splice_front it ((it, e) :: l) = (it, e) :: l.
Proof. unfold splice_front. simpl. by rewrite !decide_True. Qed.

Lemma fresh_iterator_fresh l : fresh_iterator l ∉ l.*1.
Proof.
  unfold fresh_iterator. intros Hin.
  apply max_list_elem_of_le in Hin. lia.
Qed.

End cache_lists.

Section cache_wf.

Import Cache.

Lemma wf_skel c :
  wf c ↔
  length (skel (m_cache c)) ≤ m_capacity c ∧
  NoDup ((skel (m_cache c)).*2) ∧
  NoDup ((skel (m_cache c)).*1) ∧
  (∀ k it, m_cache_map c !! k = Some it ↔ (it, k) ∈ skel (m_cache c)).
Proof.
  rewrite skel_length, skel_snd, skel_fst. split.
  - intros [H1 H2 H3 H4]. repeat split; try done.
    + intros Hk. apply elem_of_skel, H4, Hk.
    + intros Hk. apply H4, elem_of_skel, Hk.
  - intros (H1 & H2 & H3 & H4). split; try done.
    intros k it. rewrite H4. apply elem_of_skel.
Qed.

(** Relinking nodes and overwriting values keeps the invariant. *)
Lemma wf_same_skel c c' :
  m_capacity c' = m_capacity c →
  m_cache_map c' = m_cache_map c →
  skel (m_cache c') ≡ₚ skel (m_cache c) →
  wf c → wf c'.
Proof.
  intros Hcap Hmap Hp. rewrite !wf_skel, Hcap, Hmap.
  intros (H1 & H2 & H3 & H4). repeat split.
  - by rewrite Hp.
  - by rewrite Hp.
  - by rewrite Hp.
  - intros Hk. rewrite Hp. by apply H4.
  - intros Hk. rewrite Hp in Hk. by apply H4.
Qed.

Lemma move_to_front_capacity k c : m_capacity (move_to_front k c) = m_capacity c.
Proof. unfold move_to_front. by destruct (m_cache_map c !! k). Qed.

Lemma move_to_front_map k c : m_cache_map (move_to_front k c) = m_cache_map c.
Proof. unfold move_to_front. by destruct (m_cache_map c !! k). Qed.

Lemma move_to_front_perm k c : m_cache (move_to_front k c) ≡ₚ m_cache c.
Proof.
  unfold move_to_front. destruct (m_cache_map c !! k); [|done].
  apply splice_front_perm.
Qed.

Lemma move_to_front_wf k c : wf c → wf (move_to_front k c).
Proof.
  apply wf_same_skel.
  - apply move_to_front_capacity.
  - apply move_to_front_map.
  - unfold skel. by rewrite move_to_front_perm.
Qed.

Lemma wf_absent c k : wf c → m_cache_map c !! k = None → k ∉ keys c.
Proof.
  intros Hwf Hk Hin. unfold keys, entries in Hin.
  rewrite <- skel_snd in Hin.
  apply list_elem_of_fmap in Hin as [[it k'] [-> Hin]].
  apply wf_skel in Hwf as (_ & _ & _ & H4).
  apply H4 in Hin. simpl in *. congruence.
Qed.

Lemma wf_present c k it :
  wf c → m_cache_map c !! k = Some it → ∃ v, deref it (m_cache c) = Some (k, v).
Proof.
  intros Hwf Hk. apply (wf_index _ Hwf) in Hk as [v Hin].
  exists v. apply elem_of_deref; [apply Hwf|done].
Qed.

Lemma evict_back_capacity c : m_capacity (evict_back c) = m_capacity c.
Proof. unfold evict_back. by destruct (last (m_cache c)) as [[? [? ?]]|]. Qed.

(** Evicting the tail of a non-empty well-formed cache. *)
Lemma evict_back_wf c :
  wf c → m_cache c ≠ [] →
  wf (evict_back c) ∧ S (length (m_cache (evict_back c))) = length (m_cache c)
  ∧ ∀ k, m_cache_map c !! k = None → m_cache_map (evict_back c) !! k = None.
Proof.
  intros Hwf Hne. unfold evict_back.
  destruct (last (m_cache c)) as [[a [kb vb]]|] eqn:Hlast.
  2:{ apply last_None in Hlast. done. }
  apply last_Some in Hlast as [l' Hl].
  apply wf_skel in Hwf. rewrite Hl in Hwf.
  unfold skel in Hwf. rewrite fmap_app in Hwf. simpl in Hwf.
  fold (skel l') in Hwf. rewrite !fmap_app, length_app in Hwf. simpl in Hwf.
  destruct Hwf as (H1 & H2 & H3 & H4).
  apply NoDup_app in H2 as (H2 & H2' & _).
  apply NoDup_app in H3 as (H3 & H3' & _).
  rewrite Hl, removelast_last, length_app. simpl. split; [|split; [lia|]].
  - apply wf_skel. simpl. repeat split; try done; try lia.
    + intros Hk. destruct (decide (k = kb)) as [->|Hkb].
      { by rewrite lookup_delete_eq in Hk. }
      rewrite lookup_delete_ne in Hk by done.
      apply H4, elem_of_app in Hk as [Hk|Hk]; [done|].
      apply list_elem_of_singleton in Hk. congruence.
    + intros Hk. destruct (decide (k = kb)) as [->|Hkb].
      { exfalso. apply (H2' kb); [|left].
        apply list_elem_of_fmap. by exists (it, kb). }
      rewrite lookup_delete_ne by done. apply H4, elem_of_app. by left.
  - intros k Hk. destruct (decide (kb = k)) as [->|Hkb].
    + apply lookup_delete_eq.
    + by rewrite lookup_delete_ne.
Qed.

(** [put] keeps the invariant of a cache of positive capacity. *)
Lemma put_wf k v c : wf c → 0 < m_capacity c → wf (put k v c).
Proof.
  intros Hwf Hcap. unfold put.
  destruct (m_cache_map c !! k) as [it|] eqn:Hk.
  - apply move_to_front_wf. revert Hwf. apply wf_same_skel; simpl; try done.
    by rewrite skel_assign_second.
  - assert (∃ c1, c1 = (if decide (m_capacity c ≤ length (m_cache c))
                        then evict_back c else c)
                  ∧ wf c1 ∧ m_capacity c1 = m_capacity c
                  ∧ length (m_cache c1) < m_capacity c
                  ∧ m_cache_map c1 !! k = None) as (c1 & <- & Hwf1 & Hc1 & Hlen & Hk1).
    { eexists; split; [done|]. case_decide as Hfull.
      - assert (m_cache c ≠ []) as Hne.
        { intros Hnil. rewrite Hnil in Hfull. simpl in Hfull. lia. }
        destruct (evict_back_wf c Hwf Hne) as (Hw & Hl & Hm).
        pose proof (wf_capacity _ Hwf).
        split; [done|]. split; [apply evict_back_capacity|]. split; [lia|by apply Hm].
      - split; [done|]. split; [done|]. split; [lia|done]. }
    unfold emplace_front.
    pose proof (fresh_iterator_fresh (m_cache c1)) as Hfresh.
    pose proof (wf_absent _ _ Hwf1 Hk1) as Hkeys.
    unfold keys, entries in Hkeys. rewrite <- skel_snd in Hkeys.
    rewrite <- skel_fst in Hfresh.
    apply wf_skel in Hwf1 as (H1 & H2 & H3 & H4).
    apply wf_skel. simpl. rewrite skel_length in *.
    repeat split.
    + lia.
    + by apply NoDup_cons.
    + by apply NoDup_cons.
    + intros Hl. destruct (decide (k0 = k)) as [->|Hne].
      * rewrite lookup_insert_eq in Hl. injection Hl as <-. left.
      * rewrite lookup_insert_ne in Hl by done. right. by apply H4.
    + intros [Heq|Hin]%elem_of_cons.
      * injection Heq as -> ->. apply lookup_insert_eq.
      * destruct (decide (k0 = k)) as [->|Hne].
        { exfalso. apply Hkeys. apply list_elem_of_fmap. by exists (it, k). }
        rewrite lookup_insert_ne by done. by apply H4.
Qed.

Lemma put_capacity k v c : m_capacity (put k v c) = m_capacity c.
Proof.
  unfold put. destruct (m_cache_map c !! k).
  - by rewrite move_to_front_capacity.
  - simpl. case_decide; [apply evict_back_capacity|done].
Qed.

Lemma get_wf k v c : wf c → wf (get k v c).2.
Proof.
  unfold get. destruct (m_cache_map c !! k); simpl; [|done].
  apply move_to_front_wf.
Qed.

Lemma get_capacity k v c : m_capacity (get k v c).2 = m_capacity c.
Proof.
  unfold get. destruct (m_cache_map c !! k); simpl; [|done].
  apply move_to_front_capacity.
Qed.

Lemma new_wf capacity : wf (new capacity).
Proof.
  split; simpl; [lia|constructor|constructor|].
  intros k it. rewrite lookup_empty. split; [done|].
  intros [v Hin]. by apply elem_of_nil in Hin.
Qed.

Lemma step_wf o c : wf c → 0 < m_capacity c → wf (step o c).
Proof. destruct o; simpl; [by apply put_wf|intros; by apply get_wf]. Qed.

Lemma step_capacity o c : m_capacity (step o c) = m_capacity c.
Proof. destruct o; simpl; [apply put_capacity|apply get_capacity]. Qed.

Lemma run_wf ops c :
  wf c → 0 < m_capacity c →
  wf (run ops c) ∧ m_capacity (run ops c) = m_capacity c.
Proof.
  revert c. induction ops as [|o ops IH]; intros c Hwf Hcap; [done|].
  simpl. destruct (IH (step o c)) as [Hw Hc].
  - by apply step_wf.
  - by rewrite step_capacity.
  - split; [done|]. by rewrite Hc, step_capacity.
Qed.

End cache_wf.

Section cache_behaviour.

Import Cache.

(** A miss is decided on the index alone. *)
Lemma get_miss_index k value c :
  m_cache_map c !! k = None → get k value c = (false, value, c).
Proof. intros Hk. unfold get. by rewrite Hk. Qed.

(** A [put] on a cache of positive capacity leaves the pair at the
    front, and the index points at it. *)
Lemma put_front k v c :
  wf c → 0 < m_capacity c →
  ∃ it rest, m_cache (put k v c) = (it, (k, v)) :: rest
             ∧ m_cache_map (put k v c) !! k = Some it.
Proof.
  intros Hwf Hcap. unfold put.
  destruct (m_cache_map c !! k) as [it|] eqn:Hk.
  - destruct (wf_present _ _ _ Hwf Hk) as [v0 Hd].
    unfold move_to_front. simpl. rewrite Hk. simpl. unfold splice_front.
    assert (deref it (assign_second it v (m_cache c)) = Some (k, v)) as ->.
    { clear -Hd. induction (m_cache c) as [|[a e] l IH]; [done|].
      simpl in *. case_decide as Ha.
      - injection Hd as ->. simpl. by rewrite decide_True.
      - simpl. rewrite decide_False by done. auto. }
    eauto.
  - simpl. eexists _, _. split; [done|]. apply lookup_insert_eq.
Qed.

(** A hit on the pair at the front returns its value and changes
    nothing. *)
Lemma get_front k v it rest tmp c :
  m_cache c = (it, (k, v)) :: rest →
  m_cache_map c !! k = Some it →
  get k tmp c = (true, v, c).
Proof.
  intros Hl Hk. unfold get, move_to_front. rewrite Hk, Hl. simpl.
  rewrite decide_True by done. simpl.
  rewrite splice_front_head. destruct c; simpl in *. by subst.
Qed.

(** A hit returns the value stored with the key. *)
Lemma get_hit k tmp c it :
  wf c → m_cache_map c !! k = Some it →
  ∃ v, (k, v) ∈ entries c ∧ get k tmp c = (true, v, move_to_front k c).
Proof.
  intros Hwf Hk. destruct (wf_present _ _ _ Hwf Hk) as [v Hd].
  exists v. split.
  - unfold entries. apply list_elem_of_fmap. exists (it, (k, v)).
    split; [done|]. by apply deref_elem_of.
  - unfold get. by rewrite Hk, Hd.
Qed.

(** An overflowing [put] of a new key drops the last pair and nothing
    else. *)
Lemma put_overflow k v c :
  m_cache_map c !! k = None →
  m_capacity c ≤ length (m_cache c) →
  entries (put k v c) = (k, v) :: removelast (entries c).
Proof.
  intros Hk Hfull. unfold put. rewrite Hk, decide_True by done.
  unfold entries, evict_back. simpl.
  destruct (last (m_cache c)) as [[a [kb vb]]|] eqn:Hlast; simpl.
  - apply last_Some in Hlast as [l' ->].
    rewrite removelast_last, fmap_app. f_equal. symmetry.
    apply (removelast_last (l'.*2) (kb, vb)).
  - apply last_None in Hlast. by rewrite Hlast.
Qed.

(** A [put] of a new key below capacity drops nothing. *)
Lemma put_room k v c :
  m_cache_map c !! k = None →
  length (m_cache c) < m_capacity c →
  entries (put k v c) = (k, v) :: entries c.
Proof.
  intros Hk Hroom. unfold put. rewrite Hk, decide_False by lia. done.
Qed.

End cache_behaviour.

(** ** The claims about the cache *)

(** C6.  On a cache constructed with a positive capacity, after every
    sequence of [put] and [get] calls: the cache holds at most [capacity]
    pairs, no key occurs twice in the recency order, no two nodes share an
    address, and [m_cache_map] maps a key to an iterator exactly when the
    node at that iterator is in the list and holds that key. *)
Theorem cache_invariant (capacity : nat) (ops : list Cache.op) :
  0 < capacity →
  let c := Cache.run ops (Cache.new capacity) in
  Cache.m_capacity c = capacity ∧
  length (Cache.m_cache c) ≤ capacity ∧
  NoDup (Cache.keys c) ∧
  NoDup ((Cache.m_cache c).*1) ∧
  (∀ k it, Cache.m_cache_map c !! k = Some it ↔
           ∃ v, (it, (k, v)) ∈ Cache.m_cache c) ∧
  (∀ k, k ∈ Cache.keys c ↔ is_Some (Cache.m_cache_map c !! k)).
Proof.
  intros Hcap c.
  destruct (run_wf ops (Cache.new capacity) (new_wf capacity) Hcap)
    as [Hwf Hc].
  fold c in Hwf, Hc. simpl in Hc.
  split; [done|]. split; [rewrite <- Hc; apply Hwf|].
  split; [apply Hwf|]. split; [apply Hwf|]. split; [apply Hwf|].
  intros k. split.
  - intros Hin. destruct (Cache.m_cache_map c !! k) eqn:Hk; [eauto|].
    by apply wf_absent in Hk.
  - intros [it Hk]. apply (Cache.wf_index _ Hwf) in Hk as [v Hin].
    unfold Cache.keys, Cache.entries.
    apply list_elem_of_fmap. exists (k, v). split; [done|].
    apply list_elem_of_fmap. by exists (it, (k, v)).
Qed.

Lemma cache_invariant_witness :
  let c := Cache.run [Cache.Put "A" (Some "1"); Cache.Put "B" (Some "2");
                      Cache.Put "C" None; Cache.Get "B"] (Cache.new 2) in
  0 < 2 ∧ length (Cache.m_cache c) ≤ 2 ∧ NoDup (Cache.keys c).
Proof.
  intros c. split; [lia|].
  pose proof (cache_invariant 2 [Cache.Put "A" (Some "1");
    Cache.Put "B" (Some "2"); Cache.Put "C" None; Cache.Get "B"]) as H.
  destruct H as (_ & Hlen & Hnd & _); [lia|]. split; [exact Hlen|exact Hnd].
Defined.

(** C7.  With capacity 2, [put(A,1); put(B,2); put(C,3)] leaves exactly
    the pairs of C and B (in that recency order), A being evicted; a
    [get(B)] and a [put(D,4)] after that evict C and keep B.  In general,
    a [put] of a key absent from the index into a full cache removes the
    last pair of the recency order, and only that one. *)
Theorem lru_order :
  let c3 := Cache.run [Cache.Put "A" (Some "1"); Cache.Put "B" (Some "2");
                       Cache.Put "C" (Some "3")] (Cache.new 2) in
  let c5 := Cache.run [Cache.Get "B"; Cache.Put "D" (Some "4")] c3 in
  Cache.entries c3 = [("C", Some "3"); ("B", Some "2")] ∧
  dom (Cache.m_cache_map c3) = {["B"; "C"]} ∧
  Cache.get "B" None c3 = (true, Some "2", (Cache.get "B" None c3).2) ∧
  Cache.entries c5 = [("D", Some "4"); ("B", Some "2")] ∧
  dom (Cache.m_cache_map c5) = {["B"; "D"]} ∧
  (∀ k v c,
     Cache.m_cache_map c !! k = None →
     Cache.m_capacity c ≤ length (Cache.m_cache c) →
     Cache.entries (Cache.put k v c) = (k, v) :: removelast (Cache.entries c)).
Proof.
  intros c3 c5.
  split; [by vm_compute|]. split; [by vm_compute|].
  split; [by vm_compute|]. split; [by vm_compute|].
  split; [by vm_compute|].
  intros k v c. apply put_overflow.
Qed.

Lemma lru_order_witness :
  let c := Cache.put "B" (Some "2") (Cache.put "A" (Some "1") (Cache.new 2)) in
  Cache.m_cache_map c !! "C" = None ∧
  Cache.m_capacity c ≤ length (Cache.m_cache c) ∧
  Cache.entries (Cache.put "C" (Some "3") c)
  = ("C", Some "3") :: removelast (Cache.entries c).
Proof.
  intros c.
  assert (Cache.m_cache_map c !! "C" = None) as H1 by (by vm_compute).
  assert (Cache.m_capacity c ≤ length (Cache.m_cache c)) as H2
    by (vm_compute; lia).
  split; [exact H1|]. split; [exact H2|].
  exact (proj2 (proj2 (proj2 (proj2 (proj2 lru_order))))
           "C" (Some "3") c H1 H2).
Defined.

(** C10.  [get] of a key that is not in the cache returns [false],
    leaves the output parameter as it was ("no value" when the caller
    passed an empty optional) and returns the cache it was given: same
    pairs, same order, same index. *)
Theorem get_absent_unchanged (key : string) (c : Cache.t) :
  Cache.m_cache_map c !! key = None ∨ (Cache.wf c ∧ key ∉ Cache.keys c) →
  Cache.get key None c = (false, None, c) ∧
  ∀ value, Cache.get key value c = (false, value, c).
Proof.
  intros H.
  assert (Cache.m_cache_map c !! key = None) as Hk.
  { destruct H as [H|[Hwf Hn]]; [done|].
    destruct (Cache.m_cache_map c !! key) as [it|] eqn:Hk; [|done].
    exfalso. apply Hn.
    apply (Cache.wf_index _ Hwf) in Hk as [v Hin].
    unfold Cache.keys, Cache.entries.
    apply list_elem_of_fmap. exists (key, v). split; [done|].
    apply list_elem_of_fmap. by exists (it, (key, v)). }
  split; [|intros value]; by apply get_miss_index.
Qed.

Lemma get_absent_unchanged_witness :
  let c := Cache.put "B" (Some "2") (Cache.put "A" (Some "1") (Cache.new 2)) in
  Cache.m_cache_map c !! "C" = None ∧
  Cache.get "C" None c = (false, None, c).
Proof.
  intros c.
  assert (Cache.m_cache_map c !! "C" = None) as H1 by (by vm_compute).
  split; [exact H1|].
  exact (proj1 (get_absent_unchanged "C" c (or_introl H1))).
Defined.

(** * Properties of the database *)

Section db_frame.

Import Db.

Lemma same_but_cache_refl s : same_but_cache s s.
Proof. done. Qed.

Lemma same_but_cache_trans s1 s2 s3 :
  same_but_cache s1 s2 → same_but_cache s2 s3 → same_but_cache s1 s3.
Proof.
  intros (? & ? & ? & ?) (? & ? & ? & ?). repeat split; congruence.
Qed.

Lemma cache_put_frame k v s : same_but_cache (cache_put k v s) s.
Proof. unfold cache_put. by destruct (m_local_cache s). Qed.

Lemma subscript_present k s v :
  ts_transaction_data s !! k = Some v → subscript k s = (v, s).
Proof. intros H. unfold subscript. by rewrite H. Qed.

(** [get_key] touches neither the file nor the thread-locals. *)
Lemma get_key_frame k s : same_but_cache (get_key k s).2 s.
Proof.
  unfold get_key.
  destruct (ts_transaction_active s); simpl; [|done].
  case_decide; [done|].
  case_decide as Hd.
  { destruct Hd as [v Hv]. by rewrite (subscript_present _ _ _ Hv). }
  destruct (m_local_cache s) as [c|]; simpl.
  - destruct (Cache.get k None c) as [[[] tmp] c']; simpl; [done|].
    eapply same_but_cache_trans; [apply cache_put_frame|done].
  - apply cache_put_frame.
Qed.

Lemma get_key_inactive k s :
  ts_transaction_active s = false → get_key k s = ("", s).
Proof. intros H. unfold get_key. by rewrite H. Qed.

Lemma set_key_active k d s :
  ts_transaction_active s = true →
  set_key k d s =
    ((get_key k s).1,
     with_locals true (<[k := d]> (ts_transaction_data s))
       (ts_transaction_deletes s ∖ {[k]}) (get_key k s).2).
Proof.
  intros H. unfold set_key. rewrite H. simpl.
  destruct (get_key_frame k s) as (_ & Ha & Hd & Hs).
  destruct (get_key k s) as [old s1]. simpl in *.
  by rewrite Ha, Hd, Hs, H.
Qed.

Lemma delete_key_active k s :
  ts_transaction_active s = true →
  delete_key k s =
    ((get_key k s).1,
     with_locals true (delete k (ts_transaction_data s))
       (ts_transaction_deletes s ∪ {[k]}) (get_key k s).2).
Proof.
  intros H. unfold delete_key. rewrite H. simpl.
  destruct (get_key_frame k s) as (_ & Ha & Hd & Hs).
  destruct (get_key k s) as [old s1]. simpl in *.
  by rewrite Ha, Hd, Hs, H.
Qed.

(** A read of a key staged for writing returns the staged value. *)
Lemma get_key_staged k v s :
  ts_transaction_active s = true →
  k ∉ ts_transaction_deletes s →
  ts_transaction_data s !! k = Some v →
  get_key k s = (v, s).
Proof.
  intros Ha Hd Hv. unfold get_key. rewrite Ha. simpl.
  rewrite decide_False by done.
  rewrite decide_True by (by rewrite Hv).
  by apply subscript_present.
Qed.

End db_frame.

(** ** The claims about transactions *)

(** C3.  In an active transaction, [get_key(k)] right after
    [set_key(k, v)] returns [v], whatever the cache, the file and the rest
    of the buffer hold. *)
Theorem read_your_own_writes (k v : string) (s : Db.t) :
  Db.ts_transaction_active s = true →
  let s1 := (Db.set_key k v s).2 in
  Db.ts_transaction_active s1 = true ∧ Db.get_key k s1 = (v, s1).
Proof.
  intros Ha s1. unfold s1. rewrite (set_key_active _ _ _ Ha). simpl.
  split; [done|]. apply get_key_staged; simpl.
  - done.
  - intros [_ Hn]%elem_of_difference. by apply Hn, elem_of_singleton.
  - apply lookup_insert_eq.
Qed.

Lemma read_your_own_writes_witness :
  let s := (Db.begin_transaction (Db.new (FileStore.regular "k=old") 2)).2 in
  Db.ts_transaction_active s = true ∧
  (Db.get_key "k" (Db.set_key "k" "v" s).2).1 = "v".
Proof.
  intros s.
  assert (Db.ts_transaction_active s = true) as Ha by reflexivity.
  split; [exact Ha|].
  exact (f_equal fst (proj2 (read_your_own_writes "k" "v" s Ha))).
Defined.

(** C8.  [begin_transaction] in an active transaction returns [false]
    and returns the state it was given; without an active transaction
    [commit_transaction] and [abort_transaction] return [false], and
    [get_key], [set_key] and [delete_key] return the empty string, each
    with the state (buffer, cache and file) it was given. *)
Theorem calls_in_wrong_state (s : Db.t) :
  (Db.ts_transaction_active s = true →
     Db.begin_transaction s = (false, s)) ∧
  (Db.ts_transaction_active s = false →
     Db.commit_transaction s = (false, s) ∧
     Db.abort_transaction s = (false, s) ∧
     ∀ k d, Db.get_key k s = ("", s) ∧
            Db.set_key k d s = ("", s) ∧
            Db.delete_key k s = ("", s)).
Proof.
  split; intros Ha.
  - unfold Db.begin_transaction. by rewrite Ha.
  - unfold Db.commit_transaction, Db.abort_transaction, Db.set_key,
      Db.delete_key. rewrite Ha. simpl. repeat split; try done.
    by apply get_key_inactive.
Qed.

Lemma calls_in_wrong_state_witness :
  let s0 := Db.new (FileStore.regular "k=v") 2 in
  let s1 := (Db.set_key "a" "1" (Db.begin_transaction s0).2).2 in
  (Db.ts_transaction_active s1 = true ∧ Db.begin_transaction s1 = (false, s1)) ∧
  (Db.ts_transaction_active s0 = false ∧ Db.commit_transaction s0 = (false, s0)
   ∧ Db.get_key "k" s0 = ("", s0)).
Proof.
  intros s0 s1.
  assert (Db.ts_transaction_active s1 = true) as H1 by (by vm_compute).
  assert (Db.ts_transaction_active s0 = false) as H0 by reflexivity.
  split.
  - split; [exact H1|]. exact (proj1 (calls_in_wrong_state s1) H1).
  - split; [exact H0|].
    pose proof (proj2 (calls_in_wrong_state s0) H0) as (Hc & _ & Hg).
    split; [exact Hc|]. exact (proj1 (Hg "k" "")).
Defined.

(** C9.  The keys of [ts_transaction_data] and the set
    [ts_transaction_deletes] are disjoint when the thread starts and stay
    so under every call.  In an active transaction [set_key(k, d)] leaves
    [k] mapped to [d] and out of the deletes, [delete_key(k)] leaves [k]
    in the deletes and out of the writes.  [begin_transaction] without
    an active transaction, and [commit_transaction] and
    [abort_transaction] in an active one, return [true] and leave both
    empty; and whenever one of the three returns [true], both are empty
    afterwards. *)
Theorem writes_deletes_disjoint :
  (∀ file cache_size cs,
     Db.buffer_disjoint (Db.trace cs (Db.new file cache_size)).2) ∧
  (∀ c s, Db.buffer_disjoint s → Db.buffer_disjoint (Db.exec c s).2) ∧
  (∀ k d s, Db.ts_transaction_active s = true →
     let s' := (Db.set_key k d s).2 in
     Db.ts_transaction_data s' !! k = Some d ∧
     k ∉ Db.ts_transaction_deletes s') ∧
  (∀ k s, Db.ts_transaction_active s = true →
     let s' := (Db.delete_key k s).2 in
     Db.ts_transaction_data s' !! k = None ∧
     k ∈ Db.ts_transaction_deletes s') ∧
  (∀ s, Db.ts_transaction_active s = false →
     let r := Db.begin_transaction s in
     r.1 = true ∧ Db.ts_transaction_active r.2 = true ∧
     Db.ts_transaction_data r.2 = ∅ ∧ Db.ts_transaction_deletes r.2 = ∅) ∧
  (∀ s, Db.ts_transaction_active s = true →
     let r := Db.commit_transaction s in
     r.1 = true ∧ Db.ts_transaction_active r.2 = false ∧
     Db.ts_transaction_data r.2 = ∅ ∧ Db.ts_transaction_deletes r.2 = ∅) ∧
  (∀ s, Db.ts_transaction_active s = true →
     let r := Db.abort_transaction s in
     r.1 = true ∧ Db.ts_transaction_active r.2 = false ∧
     Db.ts_transaction_data r.2 = ∅ ∧ Db.ts_transaction_deletes r.2 = ∅) ∧
  (∀ c s, c = Db.Begin ∨ c = Db.Commit ∨ c = Db.Abort →
     (Db.exec c s).1 = Db.RBool true →
     Db.ts_transaction_data (Db.exec c s).2 = ∅ ∧
     Db.ts_transaction_deletes (Db.exec c s).2 = ∅).
Proof.
  assert (∀ c s, Db.buffer_disjoint s → Db.buffer_disjoint (Db.exec c s).2)
    as Hstep.
  { intros c s Hs. unfold Db.buffer_disjoint in *.
    destruct c as [| | |k|k d|k]; simpl.
    - unfold Db.begin_transaction.
      destruct (Db.ts_transaction_active s); simpl; [done|set_solver].
    - unfold Db.commit_transaction.
      destruct (Db.ts_transaction_active s); simpl; [set_solver|done].
    - unfold Db.abort_transaction.
      destruct (Db.ts_transaction_active s); simpl; [set_solver|done].
    - destruct (get_key_frame k s) as (_ & _ & -> & ->). done.
    - destruct (Db.ts_transaction_active s) eqn:Ha.
      + rewrite (set_key_active _ _ _ Ha). simpl.
        rewrite dom_insert_L. intros x Hx [Hd Hne]%elem_of_difference.
        apply elem_of_union in Hx as [Hx|Hx]; [done|]. by apply (Hs x).
      + unfold Db.set_key. rewrite Ha. done.
    - destruct (Db.ts_transaction_active s) eqn:Ha.
      + rewrite (delete_key_active _ _ Ha). simpl.
        rewrite dom_delete_L. intros x [Hx Hne]%elem_of_difference Hd.
        apply elem_of_union in Hd as [Hd|Hd]; [|done]. by apply (Hs x).
      + unfold Db.delete_key. rewrite Ha. done. }
  split; [|split; [exact Hstep|]].
  { intros file cache_size cs.
    assert (Db.buffer_disjoint (Db.new file cache_size)) as H0.
    { unfold Db.buffer_disjoint. simpl. set_solver. }
    revert H0. generalize (Db.new file cache_size).
    induction cs as [|c cs IH]; intros s Hs; [done|].
    simpl. specialize (Hstep c s Hs).
    destruct (Db.exec c s) as [r s1]. simpl in Hstep.
    specialize (IH s1 Hstep).
    destruct (Db.trace cs s1) as [rs s2]. done. }
  split; [|split; [|split; [|split; [|split]]]].
  - intros k d s Ha. rewrite (set_key_active _ _ _ Ha). simpl.
    split; [apply lookup_insert_eq|].
    intros [_ Hn]%elem_of_difference. by apply Hn, elem_of_singleton.
  - intros k s Ha. rewrite (delete_key_active _ _ Ha). simpl.
    split; [apply lookup_delete_eq|set_solver].
  - intros s Ha. unfold Db.begin_transaction. by rewrite Ha.
  - intros s Ha. unfold Db.commit_transaction. by rewrite Ha.
  - intros s Ha. unfold Db.abort_transaction. by rewrite Ha.
  - intros c s [-> | [-> | ->]]; simpl.
    + unfold Db.begin_transaction.
      destruct (Db.ts_transaction_active s); simpl; [done|done].
    + unfold Db.commit_transaction.
      destruct (Db.ts_transaction_active s); simpl; [done|done].
    + unfold Db.abort_transaction.
      destruct (Db.ts_transaction_active s); simpl; [done|done].
Qed.

Lemma writes_deletes_disjoint_witness :
  let s0 := Db.new (FileStore.regular "k=v") 2 in
  let s := (Db.trace [Db.Begin; Db.DeleteKey "k"] s0).2 in
  Db.buffer_disjoint s ∧
  Db.ts_transaction_active s = true ∧
  (Db.ts_transaction_data (Db.set_key "k" "w" s).2 !! "k" = Some "w" ∧
   "k" ∉ Db.ts_transaction_deletes (Db.set_key "k" "w" s).2) ∧
  (Db.ts_transaction_data (Db.delete_key "j" s).2 !! "j" = None ∧
   "j" ∈ Db.ts_transaction_deletes (Db.delete_key "j" s).2) ∧
  (Db.ts_transaction_active s0 = false ∧
   (Db.begin_transaction s0).1 = true) ∧
  ((Db.commit_transaction s).1 = true ∧
   Db.ts_transaction_deletes (Db.commit_transaction s).2 = ∅) ∧
  ((Db.abort_transaction s).1 = true ∧
   Db.ts_transaction_deletes (Db.abort_transaction s).2 = ∅) ∧
  ((Db.exec Db.Commit s).1 = Db.RBool true ∧
   Db.ts_transaction_deletes (Db.exec Db.Commit s).2 = ∅).
Proof.
  intros s0 s.
  assert (Db.ts_transaction_active s = true) as Ha by (by vm_compute).
  assert (Db.ts_transaction_active s0 = false) as Ha0 by reflexivity.
  assert ((Db.exec Db.Commit s).1 = Db.RBool true) as Hr by (by vm_compute).
  destruct writes_deletes_disjoint
    as (H0 & _ & Hset & Hdel & Hbegin & Hcommit & Habort & Hclear).
  split; [exact (H0 (FileStore.regular "k=v") 2%Z
                    [Db.Begin; Db.DeleteKey "k"])|].
  split; [exact Ha|]. split; [exact (Hset "k" "w" s Ha)|].
  split; [exact (Hdel "j" s Ha)|].
  split; [split; [exact Ha0|exact (proj1 (Hbegin s0 Ha0))]|].
  split; [split; [exact (proj1 (Hcommit s Ha))
                 |exact (proj2 (proj2 (proj2 (Hcommit s Ha))))]|].
  split; [split; [exact (proj1 (Habort s Ha))
                 |exact (proj2 (proj2 (proj2 (Habort s Ha))))]|].
  split; [exact Hr|].
  exact (proj2 (Hclear Db.Commit s (or_intror (or_introl eq_refl)) Hr)).
Defined.

(** * Properties of the file store *)

Section file_facts.

Import FileStore.

Lemma getlines_newline_free content :
  Forall (λ line, occurs newline line = false) (getlines content).
Proof.
  induction content as [|c rest IH]; simpl; [constructor|].
  case_decide as Hc.
  - constructor; [done|exact IH].
  - destruct (getlines rest) as [|line lines].
    + constructor; [|constructor]. simpl.
      by rewrite bool_decide_eq_false_2.
    + apply Forall_cons in IH as [Hl Hls]. constructor; [|done].
      simpl. by rewrite bool_decide_eq_false_2.
Qed.

Lemma getlines_line line rest :
  occurs newline line = false →
  getlines (line +:+ String newline rest) = line :: getlines rest.
Proof.
  induction line as [|c line IH]; simpl.
  - done.
  - intros [Hc Hl]%orb_false_elim. apply bool_decide_eq_false_1 in Hc.
    rewrite decide_False by done. by rewrite (IH Hl).
Qed.

(** Reading back what was written line by line. *)
Lemma getlines_putlines lines :
  Forall (λ line, occurs newline line = false) lines →
  getlines (putlines lines) = lines.
Proof.
  induction 1 as [|line lines Hl _ IH]; simpl; [done|].
  by rewrite (getlines_line _ _ Hl), IH.
Qed.

Lemma scan_found is_delete key value input :
  scan is_delete key value true input = (input, true).
Proof.
  induction input as [|line rest IH]; simpl; [done|]. by rewrite IH.
Qed.

(** The loop of [file_write_or_delete], deleting: the first line of the
    key goes and every other line stays. *)
Lemma scan_delete key value input :
  let '(lines, found) := scan true key value false input in
  filter (λ line, key_line key line = true) lines
    = tail (filter (λ line, key_line key line = true) input)
  ∧ (∀ P : string → Prop, Forall P input → Forall P lines)
  ∧ (found = false → lines = input
       ∧ filter (λ line, key_line key line = true) input = []).
Proof.
  induction input as [|line rest IH]; simpl.
  { split; [done|]. split; [done|]. done. }
  destruct (key_line key line) eqn:Hkl; simpl.
  - rewrite scan_found. rewrite filter_cons_True by done. simpl.
    split; [done|]. split; [|done].
    intros P HP. by apply Forall_cons in HP as [_ HP].
  - destruct (scan true key value false rest) as [lines found].
    destruct IH as (IH1 & IH2 & IH3).
    rewrite !filter_cons_False by (by rewrite Hkl).
    split; [done|]. split.
    + intros P [HP1 HP2]%Forall_cons. constructor; auto.
    + intros Hf. destruct (IH3 Hf) as [-> ->]. done.
Qed.

Lemma first_value_no_line key input :
  filter (λ line, key_line key line = true) input = [] →
  first_value key input = "".
Proof.
  induction input as [|line rest IH]; simpl; [done|].
  destruct (key_line key line) eqn:Hkl.
  - by rewrite filter_cons_True.
  - rewrite filter_cons_False by (by rewrite Hkl). exact IH.
Qed.

(** Where the file holds no line of the key, or one at most and opens
    for writing, a read after [file_delete_key] finds nothing. *)
Lemma file_get_after_delete key file :
  lines_of key file = [] ∨
  (writable file = true ∧ length (lines_of key file) ≤ 1) →
  file_get_value key (file_delete_key key file) = "".
Proof.
  destruct file as [[content|] w]; [|done].
  unfold file_delete_key, file_write_or_delete, file_get_value, lines_of.
  cbn [contents writable]. intros Hone.
  pose proof (scan_delete key "" (getlines content)) as Hscan.
  destruct (scan true key "" false (getlines content)) as [lines found].
  destruct Hscan as (H1 & H2 & H3).
  destruct found; cbn [negb andb].
  - destruct w; cbn [negb contents].
    + rewrite getlines_putlines by (apply H2, getlines_newline_free).
      apply first_value_no_line. rewrite H1.
      destruct Hone as [-> | [_ Hone]]; [done|].
      destruct (filter _ (getlines content)) as [|l1 [|l2 ls]]; simpl in *;
        [done|done|lia].
    + destruct Hone as [Hnone | [? _]]; [|done].
      by apply first_value_no_line.
  - cbn [contents]. destruct (H3 eq_refl) as [_ Hnone].
    by apply first_value_no_line.
Qed.

End file_facts.

(** * Writing a line and reading it back *)

Section file_write_facts.

Import FileStore.

Lemma append_cons c s t : String c s +:+ t = String c (s +:+ t).
Proof. done. Qed.

Lemma occurs_append c s t : occurs c (s +:+ t) = occurs c s || occurs c t.
Proof.
  induction s as [|c' s IH]; [done|].
  rewrite append_cons. simpl. by rewrite IH, orb_assoc.
Qed.

Lemma prefix_append p rest : String.prefix p (p +:+ rest) = true.
Proof.
  induction p as [|c p IH]; [by destruct rest|].
  rewrite append_cons. simpl. by destruct (ascii_dec c c).
Qed.

(** [line.find(p) == 0] says that [p] is a prefix of [line]. *)
Lemma find_zero_prefix line p :
  p ≠ "" → find line p = Some 0 ↔ String.prefix p line = true.
Proof.
  intros Hp. unfold find. destruct line as [|b line]; cbn [index].
  - destruct p; [done|]. split; intros; done.
  - destruct (String.prefix p (String b line)); [split; intros; done|].
    destruct (index 0 p line); split; intros; done.
Qed.

Lemma key_line_prefix key line :
  key_line key line = String.prefix (key +:+ "=") line.
Proof.
  unfold key_line.
  assert (key +:+ "=" ≠ "") as Hne by (by destruct key).
  destruct (String.prefix (key +:+ "=") line) eqn:Hp.
  - apply bool_decide_eq_true_2. by apply find_zero_prefix.
  - apply bool_decide_eq_false_2. intros H.
    apply find_zero_prefix in H; [congruence|done].
Qed.

Lemma key_line_written key value : key_line key (key +:+ "=" +:+ value) = true.
Proof.
  rewrite key_line_prefix.
  assert (key +:+ "=" +:+ value = (key +:+ "=") +:+ value) as ->.
  { induction key as [|c key IH]; [done|]. rewrite !append_cons. by f_equal. }
  apply prefix_append.
Qed.

Lemma find_separator key value :
  occurs "=" key = false →
  find (key +:+ "=" +:+ value) "=" = Some (String.length key).
Proof.
  unfold find. induction key as [|c key IH]; [by destruct value|].
  intros [Hc Hk]%orb_false_elim. apply bool_decide_eq_false_1 in Hc.
  rewrite append_cons.
  set (rest := key +:+ "=" +:+ value) in *.
  change (index 0 "=" (String c rest))
    with (if String.prefix "=" (String c rest) then Some 0
          else match index 0 "=" rest with
               | Some n => Some (S n)
               | None => None
               end).
  assert (String.prefix "=" (String c rest) = false) as ->.
  { change (String.prefix "=" (String c rest))
      with (match ascii_dec "=" c with
            | left _ => String.prefix "" rest
            | right _ => false
            end).
    destruct (ascii_dec "=" c); [congruence|done]. }
  by rewrite (IH Hk).
Qed.

Lemma substring_all s : substring 0 (String.length s) s = s.
Proof. induction s as [|c s IH]; [done|]. simpl. by rewrite IH. Qed.

Lemma substr_value key value :
  substr (key +:+ "=" +:+ value) (String.length key + 1) = value.
Proof.
  unfold substr. induction key as [|c key IH].
  - change ("" +:+ "=" +:+ value) with (String "=" value). simpl.
    rewrite Nat.sub_0_r. apply substring_all.
  - rewrite append_cons. simpl. exact IH.
Qed.

(** The loop of [file_get_value] on a line written for the key. *)
Lemma first_value_written key value rest :
  occurs "=" key = false →
  first_value key ((key +:+ "=" +:+ value) :: rest) = value.
Proof.
  intros Hk. simpl.
  by rewrite key_line_written, (find_separator _ _ Hk), substr_value.
Qed.

(** The loop of [file_write_or_delete], writing: the first line of the
    key in what is written back is the new one. *)
Lemma scan_write key value input :
  let '(lines, found) := scan false key value false input in
  let written := if found then lines else lines ++ [key +:+ "=" +:+ value] in
  first_value key written = first_value key [key +:+ "=" +:+ value]
  ∧ (∀ P : string → Prop,
       Forall P input → P (key +:+ "=" +:+ value) → Forall P written).
Proof.
  induction input as [|line rest IH].
  { simpl. split; [done|]. intros P _ HP. by constructor. }
  cbn [scan negb andb].
  destruct (key_line key line) eqn:Hkl.
  - rewrite scan_found. split.
    + cbn [first_value]. by rewrite key_line_written.
    + intros P [_ HP]%Forall_cons Hnew. by constructor.
  - destruct (scan false key value false rest) as [lines found].
    destruct IH as [IH1 IH2]. split.
    + destruct found; cbn [first_value app]; by rewrite Hkl.
    + intros P [HP1 HP2]%Forall_cons Hnew. specialize (IH2 P HP2 Hnew).
      destruct found; by constructor.
Qed.

(** On a file that opens for reading and for writing, a key without [=]
    and newline and a value without newline are read back as written. *)
Lemma file_get_after_write key value file :
  read_write file →
  occurs "=" key = false →
  occurs newline key = false →
  occurs newline value = false →
  file_get_value key (file_write_key_value key value file) = value.
Proof.
  destruct file as [[content|] w]; intros [[? Hc] Hw] Hk Hkn Hvn;
    cbn [contents writable] in Hc, Hw; [subst w|done].
  unfold file_write_key_value, file_write_or_delete, file_get_value.
  cbn [contents writable negb andb].
  pose proof (scan_write key value (getlines content)) as Hscan.
  destruct (scan false key value false (getlines content)) as [lines found].
  destruct Hscan as [H1 H2].
  assert (occurs newline (key +:+ "=" +:+ value) = false) as Hnew.
  { rewrite !occurs_append, Hkn, Hvn. done. }
  specialize (H2 _ (getlines_newline_free content) Hnew).
  rewrite (first_value_written _ _ _ Hk) in H1.
  destruct found; cbn [negb andb contents]; by rewrite getlines_putlines.
Qed.

End file_write_facts.


(** * Reads and commits, step by step *)

Section db_steps.

Import Db.

Lemma trace_cons c cs s :
  trace (c :: cs) s =
    ((exec c s).1 :: (trace cs (exec c s).2).1, (trace cs (exec c s).2).2).
Proof.
  simpl. destruct (exec c s) as [r s1]. simpl.
  by destruct (trace cs s1) as [rs s2].
Qed.

Lemma begin_inactive s :
  ts_transaction_active s = false →
  begin_transaction s = (true, with_locals true ∅ ∅ s).
Proof. intros H. unfold begin_transaction. by rewrite H. Qed.

Lemma with_cache_same c s : m_local_cache s = Some c → with_cache (Some c) s = s.
Proof. destruct s. simpl. by intros ->. Qed.

(** A read that the buffer does not answer, on a database without a
    cache: the value comes from the file. *)
Lemma get_key_no_cache k s :
  ts_transaction_active s = true →
  k ∉ ts_transaction_deletes s →
  ts_transaction_data s !! k = None →
  m_local_cache s = None →
  get_key k s = (FileStore.file_get_value k (m_file s), s).
Proof.
  intros Ha Hd Hw Hc. unfold get_key. rewrite Ha. simpl.
  rewrite decide_False by done.
  rewrite decide_False by (rewrite Hw; by intros [? ?]).
  rewrite Hc. unfold cache_put. by rewrite Hc.
Qed.

(** A read that the buffer does not answer and the cache does. *)
Lemma get_key_cache_hit k s c v c' :
  ts_transaction_active s = true →
  k ∉ ts_transaction_deletes s →
  ts_transaction_data s !! k = None →
  m_local_cache s = Some c →
  Cache.get k None c = (true, v, c') →
  get_key k s = (value_or v "", with_cache (Some c') s).
Proof.
  intros Ha Hd Hw Hc Hg. unfold get_key. rewrite Ha. simpl.
  rewrite decide_False by done.
  rewrite decide_False by (rewrite Hw; by intros [? ?]).
  by rewrite Hc, Hg.
Qed.

(** A read that neither the buffer nor the cache answers: the value
    comes from the file, and the cache is given [std::nullopt] for the
    key. *)
Lemma get_key_cache_miss k s c :
  ts_transaction_active s = true →
  k ∉ ts_transaction_deletes s →
  ts_transaction_data s !! k = None →
  m_local_cache s = Some c →
  Cache.m_cache_map c !! k = None →
  get_key k s = (FileStore.file_get_value k (m_file s),
                 with_cache (Some (Cache.put k None c)) s).
Proof.
  intros Ha Hd Hw Hc Hk. unfold get_key. rewrite Ha. simpl.
  rewrite decide_False by done.
  rewrite decide_False by (rewrite Hw; by intros [? ?]).
  rewrite Hc, (get_miss_index _ _ _ Hk). simpl.
  rewrite (with_cache_same _ _ Hc). unfold cache_put. by rewrite Hc.
Qed.

Lemma cache_put_ok k v s : cache_ok s → cache_ok (cache_put k v s).
Proof.
  intros Hok c'. unfold cache_put.
  destruct (m_local_cache s) as [c|] eqn:Hc; simpl.
  - intros [= <-]. destruct (Hok c Hc) as [Hwf Hcap].
    split; [by apply put_wf|by rewrite put_capacity].
  - rewrite Hc. done.
Qed.

Lemma cache_put_has k v s :
  is_Some (m_local_cache (cache_put k v s)) ↔ is_Some (m_local_cache s).
Proof.
  unfold cache_put. destruct (m_local_cache s) eqn:Hc; simpl; [|by rewrite Hc].
  split; eauto.
Qed.

(** [get_key] keeps a well-formed cache well formed, and neither
    creates nor drops the cache. *)
Lemma get_key_cache_ok k s : cache_ok s → cache_ok (get_key k s).2.
Proof.
  intros Hok. unfold get_key.
  destruct (ts_transaction_active s); simpl; [|done].
  case_decide; [done|].
  case_decide as Hd.
  { destruct Hd as [v Hv]. by rewrite (subscript_present _ _ _ Hv). }
  destruct (m_local_cache s) as [c|] eqn:Hc; simpl.
  - destruct (Hok c Hc) as [Hwf Hcap].
    pose proof (get_wf k None c Hwf) as Hwf'.
    pose proof (get_capacity k None c) as Hcap'.
    destruct (Cache.get k None c) as [[[] tmp] c']; simpl in *.
    + intros c0 [= <-]. split; [done|lia].
    + apply cache_put_ok. intros c0 [= <-]. split; [done|lia].
  - by apply cache_put_ok.
Qed.

Lemma get_key_has_cache k s :
  is_Some (m_local_cache (get_key k s).2) ↔ is_Some (m_local_cache s).
Proof.
  unfold get_key.
  destruct (ts_transaction_active s); simpl; [|done].
  case_decide; [done|].
  case_decide as Hd.
  { destruct Hd as [v Hv]. by rewrite (subscript_present _ _ _ Hv). }
  destruct (m_local_cache s) as [c|] eqn:Hc; simpl.
  - destruct (Cache.get k None c) as [[[] tmp] c']; simpl.
    + split; eauto.
    + split; eauto.
  - rewrite cache_put_has. by rewrite Hc.
Qed.

(** A commit whose buffer holds one delete and no write. *)
Lemma commit_single_delete k s :
  ts_transaction_active s = true →
  ts_transaction_data s = ∅ →
  ts_transaction_deletes s = {[k]} →
  commit_transaction s = (true, with_locals false ∅ ∅ (commit_delete k s)).
Proof.
  intros Ha Hw Hd. unfold commit_transaction.
  by rewrite Ha, Hw, Hd, map_to_list_empty, elements_singleton.
Qed.

(** A commit whose buffer holds one write and no delete. *)
Lemma commit_single_write k v s :
  ts_transaction_active s = true →
  ts_transaction_data s = {[k := v]} →
  ts_transaction_deletes s = ∅ →
  commit_transaction s = (true, with_locals false ∅ ∅ (commit_write (k, v) s)).
Proof.
  intros Ha Hw Hd. unfold commit_transaction.
  by rewrite Ha, Hw, Hd, map_to_list_singleton, elements_empty.
Qed.

(** After [cache_put] the key is at the front of the cache, if there is
    one, and a read that the buffer does not answer returns the value
    put, leaving the database as it is. *)
Lemma get_key_after_cache_put k v s0 s :
  cache_ok s0 →
  is_Some (m_local_cache s0) →
  m_local_cache s = m_local_cache (cache_put k v s0) →
  ts_transaction_active s = true →
  k ∉ ts_transaction_deletes s →
  ts_transaction_data s !! k = None →
  get_key k s = (value_or v "", s)
  ∧ ∃ c, m_local_cache s = Some c ∧ (k, v) ∈ Cache.entries c
         ∧ Cache.get k None c = (true, v, c).
Proof.
  intros Hok [c Hc] Hs Ha Hd Hw.
  destruct (Hok c Hc) as [Hwf Hcap].
  unfold cache_put in Hs. rewrite Hc in Hs. simpl in Hs.
  destruct (put_front k v c Hwf Hcap) as (it & rest & Hl & Hk).
  pose proof (get_front k v it rest None _ Hl Hk) as Hg.
  split.
  - rewrite (get_key_cache_hit k s _ v _ Ha Hd Hw Hs Hg).
    by rewrite (with_cache_same _ _ Hs).
  - exists (Cache.put k v c). split; [done|]. split; [|done].
    unfold Cache.entries. rewrite Hl. left.
Qed.

(** The cache of a newly constructed database is well formed, and every
    call keeps it so: [cache_ok] holds in every state a caller can reach. *)
Lemma new_cache_ok file cache_size : cache_ok (new file cache_size).
Proof.
  intros c. unfold new. simpl. case_decide; [|done].
  intros [= <-]. split; [apply new_wf|simpl; lia].
Qed.

Lemma foldl_cache_ok {A} (f : A → t → t) (l : list A) s :
  (∀ a s, cache_ok s → cache_ok (f a s)) →
  cache_ok s → cache_ok (foldl (λ s a, f a s) s l).
Proof.
  intros Hf. revert s. induction l as [|a l IH]; intros s H; [done|].
  simpl. apply IH, Hf, H.
Qed.

Lemma exec_cache_ok c s : cache_ok s → cache_ok (exec c s).2.
Proof.
  intros Hok. destruct c as [| | |k|k d|k]; cbn [exec].
  - unfold begin_transaction. by destruct (ts_transaction_active s).
  - unfold commit_transaction.
    destruct (ts_transaction_active s); [|done]. simpl.
    apply (foldl_cache_ok commit_delete
             (elements (ts_transaction_deletes s))).
    { intros k s' H. unfold commit_delete. by apply cache_put_ok. }
    apply (foldl_cache_ok commit_write (map_to_list (ts_transaction_data s))).
    { intros p s' H. unfold commit_write. by apply cache_put_ok. }
    exact Hok.
  - unfold abort_transaction. by destruct (ts_transaction_active s).
  - simpl. by apply get_key_cache_ok.
  - pose proof (get_key_cache_ok k s Hok) as H. unfold set_key.
    destruct (ts_transaction_active s); [|done]. simpl.
    by destruct (get_key k s).
  - pose proof (get_key_cache_ok k s Hok) as H. unfold delete_key.
    destruct (ts_transaction_active s); [|done]. simpl.
    by destruct (get_key k s).
Qed.

Lemma trace_cache_ok cs s : cache_ok s → cache_ok (trace cs s).2.
Proof.
  revert s. induction cs as [|c cs IH]; intros s H; [done|].
  rewrite trace_cons. cbn [snd]. by apply IH, exec_cache_ok.
Qed.

End db_steps.

(** ** The claims about commits and reads *)

(** C5 (as amended).  Let a caller with no active transaction run
    [begin_transaction(); delete_key(k); commit_transaction()], and let
    any caller with no active transaction then run
    [begin_transaction(); get_key(k)].  All calls succeed.  If the
    database has a cache, the read returns the empty string, and after
    the commit (and still after the read) the cache holds the pair of [k]
    with [std::nullopt] as its value, which [Cache::get] reports as a hit.
    If the database has no cache, the read returns the empty string
    provided that, before the transaction, the file held no line starting
    with [k=], or held one such line at most and opens for writing. *)
Theorem tombstone_after_delete (k : string) (s other : Db.t) :
  Db.ts_transaction_active s = false →
  Db.ts_transaction_active other = false →
  Db.cache_ok s →
  (Db.m_local_cache s = None →
   FileStore.lines_of k (Db.m_file s) = [] ∨
   (FileStore.writable (Db.m_file s) = true ∧
    length (FileStore.lines_of k (Db.m_file s)) ≤ 1)) →
  let r1 := Db.trace [Db.Begin; Db.DeleteKey k; Db.Commit] s in
  let r2 := Db.trace [Db.Begin; Db.GetKey k] (Db.on_thread other r1.2) in
  (∃ old, r1.1 = [Db.RBool true; Db.RString old; Db.RBool true]) ∧
  r2.1 = [Db.RBool true; Db.RString ""] ∧
  (is_Some (Db.m_local_cache s) →
   ∃ c, Db.m_local_cache r1.2 = Some c ∧ Db.m_local_cache r2.2 = Some c ∧
        (k, None) ∈ Cache.entries c ∧
        Cache.get k None c = (true, None, c)).
Proof.
  intros Hs Hother Hok Hfile r1 r2.
  (* the first transaction *)
  set (sb := Db.with_locals true ∅ ∅ s).
  set (g := (Db.get_key k sb).2).
  set (sd := Db.with_locals true (delete k ∅) (∅ ∪ {[k]}) g).
  set (sf := Db.with_file (FileStore.file_delete_key k (Db.m_file sd)) sd).
  set (sc := Db.with_locals false ∅ ∅ (Db.cache_put k None sf)).
  assert (Db.exec Db.Begin s = (Db.RBool true, sb)) as E1.
  { cbn [Db.exec]. by rewrite (begin_inactive _ Hs). }
  assert (Db.exec (Db.DeleteKey k) sb
          = (Db.RString (Db.get_key k sb).1, sd)) as E2.
  { cbn [Db.exec]. by rewrite (delete_key_active k sb eq_refl). }
  destruct (get_key_frame k sb) as (Hgf & Hga & Hgd & Hgs). fold g in Hgf, Hga, Hgd, Hgs.
  assert (Db.exec Db.Commit sd = (Db.RBool true, sc)) as E3.
  { cbn [Db.exec]. rewrite (commit_single_delete k sd); [done|done| |].
    - simpl. apply delete_empty.
    - simpl. by rewrite (left_id_L ∅ (∪)). }
  assert (r1 = ([Db.RBool true; Db.RString (Db.get_key k sb).1; Db.RBool true], sc))
    as Hr1.
  { unfold r1. rewrite !trace_cons, E1. cbn [fst snd].
    rewrite E2. cbn [fst snd]. rewrite E3. done. }
  (* the second one *)
  set (s2 := Db.with_locals true ∅ ∅ (Db.on_thread other sc)).
  assert (Db.exec Db.Begin (Db.on_thread other sc) = (Db.RBool true, s2)) as E4.
  { cbn [Db.exec]. by rewrite (begin_inactive (Db.on_thread other sc) Hother). }
  assert (Db.cache_ok sf) as Hoksf.
  { apply (get_key_cache_ok k sb). exact Hok. }
  assert (is_Some (Db.m_local_cache sf) ↔ is_Some (Db.m_local_cache s)) as Hhas.
  { apply (get_key_has_cache k sb). }
  assert (Db.m_file s2 = FileStore.file_delete_key k (Db.m_file s)) as Hfile2.
  { simpl. destruct (cache_put_frame k None sf) as [-> _]. simpl.
    by rewrite Hgf. }
  assert (Db.get_key k s2 = ("", s2) ∧
          (is_Some (Db.m_local_cache s) →
           ∃ c, Db.m_local_cache s2 = Some c ∧ (k, None) ∈ Cache.entries c
                ∧ Cache.get k None c = (true, None, c))) as [E5 Hc].
  { destruct (Db.m_local_cache s) as [c0|] eqn:Hc0.
    - destruct (get_key_after_cache_put k None sf s2 Hoksf) as [Hg Hc];
        [by apply Hhas|done|done|set_solver|done|].
      split; [exact Hg|]. intros _. exact Hc.
    - assert (Db.m_local_cache s2 = None) as Hnone.
      { simpl. unfold Db.cache_put.
        destruct (Db.m_local_cache sf) eqn:Hsf; [|by rewrite Hsf].
        assert (is_Some (@None Cache.t)) as [? ?]; [|done].
        apply Hhas. eauto. }
      split; [|by intros [? ?]].
      rewrite (get_key_no_cache k s2); [|done|set_solver|done|done].
      rewrite Hfile2. f_equal. apply file_get_after_delete. by apply Hfile. }
  assert (r2 = ([Db.RBool true; Db.RString ""], s2)) as Hr2.
  { unfold r2. rewrite Hr1. cbn [snd]. rewrite !trace_cons, E4.
    cbn [fst snd]. cbn [Db.exec]. rewrite E5. done. }
  rewrite Hr1, Hr2. cbn [fst snd].
  split; [eauto|]. split; [done|].
  intros Hsome. destruct (Hc Hsome) as (c & Hc2 & Hin & Hget).
  exists c. split; [exact Hc2|]. split; [exact Hc2|]. done.
Qed.

Lemma tombstone_after_delete_witness :
  let file := FileStore.regular (FileStore.putlines ["j=w"; "k=v"]) in
  let s := Db.new file 0 in
  let s' := Db.new file 2 in
  ((FileStore.writable (Db.m_file s) = true ∧
    length (FileStore.lines_of "k" (Db.m_file s)) ≤ 1) ∧
   (Db.trace [Db.Begin; Db.GetKey "k"]
      (Db.on_thread s (Db.trace [Db.Begin; Db.DeleteKey "k"; Db.Commit] s).2)).1
   = [Db.RBool true; Db.RString ""]) ∧
  (Db.trace [Db.Begin; Db.GetKey "k"]
     (Db.on_thread s' (Db.trace [Db.Begin; Db.DeleteKey "k"; Db.Commit] s').2)).1
  = [Db.RBool true; Db.RString ""].
Proof.
  intros file s s'.
  assert (FileStore.writable (Db.m_file s) = true ∧
          length (FileStore.lines_of "k" (Db.m_file s)) ≤ 1) as Hone
    by (split; [reflexivity|vm_compute; lia]).
  assert (Db.cache_ok s) as Hok by (intros c [=]).
  assert (Db.cache_ok s') as Hok'.
  { intros c [= <-]. split; [apply new_wf|simpl; lia]. }
  split; [split; [exact Hone|]|].
  - exact (proj1 (proj2 (tombstone_after_delete "k" s s eq_refl eq_refl Hok
                           (λ _, or_intror Hone)))).
  - refine (proj1 (proj2 (tombstone_after_delete "k" s' s' eq_refl eq_refl Hok'
                            _))).
    intros [=].
Defined.

(** C5 as stated fails on a database without a cache: the file store
    deletes the first line that starts with [k=] and no other.  From an
    empty file, committing [k] and then [k=x] leaves the lines [k=1] and
    [k=x=2]; after [delete_key("k")] is committed, [get_key("k")] finds the
    line [k=x=2] and returns [x=2]. *)
Lemma tombstone_after_delete_counterexample :
  let s := (Db.trace [Db.Begin; Db.SetKey "k" "1"; Db.Commit;
                      Db.Begin; Db.SetKey "k=x" "2"; Db.Commit]
              (Db.new (FileStore.regular "") 0)).2 in
  Db.ts_transaction_active s = false ∧
  Db.m_local_cache s = None ∧
  Db.m_file s = FileStore.regular (FileStore.putlines ["k=1"; "k=x=2"]) ∧
  (Db.trace [Db.Begin; Db.DeleteKey "k"; Db.Commit; Db.Begin; Db.GetKey "k"]
     s).1
  = [Db.RBool true; Db.RString "1"; Db.RBool true;
     Db.RBool true; Db.RString "x=2"].
Proof. by vm_compute. Qed.

(** A transaction that sets one key, committed, then a read of that key
    by any caller, on a database with a cache: the commit puts the value
    at the front of the cache, and the read that follows is answered from
    there. *)
Lemma commit_then_read_cached (k v : string) (s other : Db.t) :
  Db.ts_transaction_active s = false →
  Db.ts_transaction_active other = false →
  Db.cache_ok s →
  is_Some (Db.m_local_cache s) →
  let r1 := Db.trace [Db.Begin; Db.SetKey k v; Db.Commit] s in
  (Db.trace [Db.Begin; Db.GetKey k] (Db.on_thread other r1.2)).1
  = [Db.RBool true; Db.RString v].
Proof.
  intros Hs Hother Hok Hsome r1.
  set (sb := Db.with_locals true ∅ ∅ s).
  set (g := (Db.get_key k sb).2).
  set (sd := Db.with_locals true (<[k := v]> ∅) (∅ ∖ {[k]}) g).
  set (sf := Db.with_file
               (FileStore.file_write_key_value k v (Db.m_file sd)) sd).
  set (sc := Db.with_locals false ∅ ∅ (Db.cache_put k (Some v) sf)).
  assert (Db.exec Db.Begin s = (Db.RBool true, sb)) as E1.
  { cbn [Db.exec]. by rewrite (begin_inactive _ Hs). }
  assert (Db.exec (Db.SetKey k v) sb
          = (Db.RString (Db.get_key k sb).1, sd)) as E2.
  { cbn [Db.exec]. by rewrite (set_key_active k v sb eq_refl). }
  assert (Db.exec Db.Commit sd = (Db.RBool true, sc)) as E3.
  { cbn [Db.exec]. rewrite (commit_single_write k v sd); [done|done| |].
    - simpl. apply insert_empty.
    - simpl. apply empty_difference_L. }
  assert (r1.2 = sc) as ->.
  { unfold r1. rewrite !trace_cons, E1. cbn [fst snd].
    rewrite E2. cbn [fst snd]. rewrite E3. done. }
  set (s2 := Db.with_locals true ∅ ∅ (Db.on_thread other sc)).
  assert (Db.exec Db.Begin (Db.on_thread other sc) = (Db.RBool true, s2)) as E4.
  { cbn [Db.exec]. by rewrite (begin_inactive (Db.on_thread other sc) Hother). }
  assert (Db.cache_ok sf) as Hoksf.
  { apply (get_key_cache_ok k sb). exact Hok. }
  assert (is_Some (Db.m_local_cache sf)) as Hhas.
  { apply (get_key_has_cache k sb). exact Hsome. }
  destruct (get_key_after_cache_put k (Some v) sf s2 Hoksf Hhas) as [Hg _];
    [done|done|set_solver|done|].
  rewrite !trace_cons, E4. cbn [fst snd]. cbn [Db.exec]. by rewrite Hg.
Qed.

(** A transaction that sets one key, committed, then a read of that key
    by any caller, on a database without a cache whose file opens for
    reading and for writing: the read returns the value, for a key without
    [=] and newline and a value without newline. *)
Lemma commit_then_read_uncached (k v : string) (s other : Db.t) :
  Db.ts_transaction_active s = false →
  Db.ts_transaction_active other = false →
  Db.m_local_cache s = None →
  FileStore.read_write (Db.m_file s) →
  FileStore.occurs "=" k = false →
  FileStore.occurs FileStore.newline k = false →
  FileStore.occurs FileStore.newline v = false →
  let r1 := Db.trace [Db.Begin; Db.SetKey k v; Db.Commit] s in
  (Db.trace [Db.Begin; Db.GetKey k] (Db.on_thread other r1.2)).1
  = [Db.RBool true; Db.RString v].
Proof.
  intros Hs Hother Hnone Hfile Hk Hkn Hvn r1.
  set (sb := Db.with_locals true ∅ ∅ s).
  assert (Db.get_key k sb
          = (FileStore.file_get_value k (Db.m_file s), sb)) as Hg.
  { by rewrite (get_key_no_cache k sb). }
  set (sd := Db.with_locals true (<[k := v]> ∅) (∅ ∖ {[k]}) sb).
  set (sf := Db.with_file
               (FileStore.file_write_key_value k v (Db.m_file sd)) sd).
  set (sc := Db.with_locals false ∅ ∅ sf).
  assert (Db.exec Db.Begin s = (Db.RBool true, sb)) as E1.
  { cbn [Db.exec]. by rewrite (begin_inactive _ Hs). }
  assert (Db.exec (Db.SetKey k v) sb
          = (Db.RString (FileStore.file_get_value k (Db.m_file s)), sd)) as E2.
  { cbn [Db.exec]. by rewrite (set_key_active k v sb eq_refl), Hg. }
  assert (Db.exec Db.Commit sd = (Db.RBool true, sc)) as E3.
  { cbn [Db.exec]. rewrite (commit_single_write k v sd); [|done| |].
    - unfold Db.commit_write, Db.cache_put. simpl. by rewrite Hnone.
    - simpl. apply insert_empty.
    - simpl. apply empty_difference_L. }
  assert (r1.2 = sc) as ->.
  { unfold r1. rewrite !trace_cons, E1. cbn [fst snd].
    rewrite E2. cbn [fst snd]. rewrite E3. done. }
  set (s2 := Db.with_locals true ∅ ∅ (Db.on_thread other sc)).
  assert (Db.exec Db.Begin (Db.on_thread other sc) = (Db.RBool true, s2)) as E4.
  { cbn [Db.exec]. by rewrite (begin_inactive (Db.on_thread other sc) Hother). }
  rewrite !trace_cons, E4. cbn [fst snd]. cbn [Db.exec].
  rewrite (get_key_no_cache k s2); [|done|apply not_elem_of_empty|done|done].
  simpl. by rewrite file_get_after_write.
Qed.

(** A read that misses the buffer and the cache returns what the file
    holds, and the read of the same key after it returns the empty string
    whatever the file holds. *)
Lemma miss_then_read_empty (k : string) (s : Db.t) (c : Cache.t) :
  Db.cache_ok s →
  Db.ts_transaction_active s = true →
  k ∉ Db.ts_transaction_deletes s →
  Db.ts_transaction_data s !! k = None →
  Db.m_local_cache s = Some c →
  Cache.m_cache_map c !! k = None →
  (Db.get_key k s).1 = FileStore.file_get_value k (Db.m_file s) ∧
  (Db.get_key k (Db.get_key k s).2).1 = "".
Proof.
  intros Hok Ha Hd Hw Hc Hk.
  rewrite (get_key_cache_miss k s c Ha Hd Hw Hc Hk). cbn [fst snd].
  split; [done|].
  destruct (get_key_after_cache_put k None s
              (Db.with_cache (Some (Cache.put k None c)) s) Hok) as [-> _];
    try done.
  unfold Db.cache_put. by rewrite Hc.
Qed.

Section db_without_cache.

Import Db.

Lemma same_but_cache_sym s s' : same_but_cache s s' → same_but_cache s' s.
Proof. intros (? & ? & ? & ?). by repeat split. Qed.

Lemma commit_write_frame p s s' :
  same_but_cache s s' → same_but_cache (commit_write p s) (commit_write p s').
Proof.
  intros (Hf & Ha & Hd & Hs). unfold commit_write.
  eapply same_but_cache_trans; [apply cache_put_frame|].
  eapply same_but_cache_trans; [|apply same_but_cache_sym, cache_put_frame].
  repeat split; simpl; congruence.
Qed.

Lemma commit_delete_frame k s s' :
  same_but_cache s s' → same_but_cache (commit_delete k s) (commit_delete k s').
Proof.
  intros (Hf & Ha & Hd & Hs). unfold commit_delete.
  eapply same_but_cache_trans; [apply cache_put_frame|].
  eapply same_but_cache_trans; [|apply same_but_cache_sym, cache_put_frame].
  repeat split; simpl; congruence.
Qed.

Lemma foldl_frame {A} (f : A → t → t) (l : list A) s s' :
  (∀ a s s', same_but_cache s s' → same_but_cache (f a s) (f a s')) →
  same_but_cache s s' →
  same_but_cache (foldl (λ s a, f a s) s l) (foldl (λ s a, f a s) s' l).
Proof.
  intros Hf. revert s s'. induction l as [|a l IH]; intros s s' H; [done|].
  simpl. apply IH, Hf, H.
Qed.

(** Every call takes two databases that differ only in the cache to two
    databases that differ only in the cache, and the calls that return a
    [bool] return the same one. *)
Lemma exec_frame c s s' :
  same_but_cache s s' →
  same_but_cache (exec c s).2 (exec c s').2 ∧
  (c = Begin ∨ c = Commit ∨ c = Abort → (exec c s).1 = (exec c s').1).
Proof.
  intros H. pose proof H as (Hf & Ha & Hd & Hs).
  destruct c as [| | |k|k d|k]; cbn [exec].
  - unfold begin_transaction. rewrite <- Ha.
    destruct (ts_transaction_active s); simpl; [done|].
    split; [|done]. repeat split; simpl; congruence.
  - unfold commit_transaction. rewrite <- Ha, <- Hd, <- Hs.
    destruct (ts_transaction_active s); simpl; [|done].
    split; [|done].
    assert (same_but_cache
      (foldl (λ s k, commit_delete k s)
         (foldl (λ s p, commit_write p s) s
            (map_to_list (ts_transaction_data s)))
         (elements (ts_transaction_deletes s)))
      (foldl (λ s k, commit_delete k s)
         (foldl (λ s p, commit_write p s) s'
            (map_to_list (ts_transaction_data s)))
         (elements (ts_transaction_deletes s)))) as (Hf' & _).
    { apply (foldl_frame commit_delete); [apply commit_delete_frame|].
      apply (foldl_frame commit_write); [apply commit_write_frame|done]. }
    repeat split; simpl; congruence.
  - unfold abort_transaction. rewrite <- Ha.
    destruct (ts_transaction_active s); simpl; [|done].
    split; [|done]. repeat split; simpl; congruence.
  - split; [|by intros [|[|]]]. simpl.
    eapply same_but_cache_trans; [apply get_key_frame|].
    eapply same_but_cache_trans; [exact H|].
    apply same_but_cache_sym, get_key_frame.
  - split; [|by intros [|[|]]].
    destruct (get_key_frame k s) as (Hf1 & Ha1 & Hd1 & Hs1).
    destruct (get_key_frame k s') as (Hf2 & Ha2 & Hd2 & Hs2).
    destruct (ts_transaction_active s) eqn:Hact.
    + rewrite (set_key_active k d s Hact).
      rewrite (set_key_active k d s') by congruence.
      repeat split; simpl; congruence.
    + unfold set_key. rewrite <- Ha, Hact. done.
  - split; [|by intros [|[|]]].
    destruct (get_key_frame k s) as (Hf1 & Ha1 & Hd1 & Hs1).
    destruct (get_key_frame k s') as (Hf2 & Ha2 & Hd2 & Hs2).
    destruct (ts_transaction_active s) eqn:Hact.
    + rewrite (delete_key_active k s Hact).
      rewrite (delete_key_active k s') by congruence.
      repeat split; simpl; congruence.
    + unfold delete_key. rewrite <- Ha, Hact. done.
Qed.

(** The file and the transaction buffer never depend on the cache:
    with and without one, a sequence of calls ends with the same file and
    the same buffer. *)
Lemma trace_frame cs s s' :
  same_but_cache s s' → same_but_cache (trace cs s).2 (trace cs s').2.
Proof.
  revert s s'. induction cs as [|c cs IH]; intros s s' H; [done|].
  rewrite !trace_cons. cbn [snd]. apply IH, exec_frame, H.
Qed.

Lemma file_independent_of_cache file n m cs :
  m_file (trace cs (new file n)).2 = m_file (trace cs (new file m)).2.
Proof. apply (trace_frame cs (new file n) (new file m)). done. Qed.

End db_without_cache.

(** C1.  The database holds [k=v] in its file and has an empty cache of
    capacity 2; a transaction is active and its buffer is empty.
    [get_key("k")] returns [v], read from the file, but the entry it
    records in the cache is [std::nullopt], not [v]: the cache then
    reports a hit with no value, and the next [get_key("k")] returns the
    empty string. *)
Theorem miss_records_nullopt :
  let s := (Db.begin_transaction (Db.new (FileStore.regular "k=v") 2)).2 in
  let s1 := (Db.get_key "k" s).2 in
  Db.ts_transaction_active s = true ∧
  Db.ts_transaction_data s = ∅ ∧ Db.ts_transaction_deletes s = ∅ ∧
  Db.m_local_cache s = Some (Cache.new 2) ∧
  FileStore.file_get_value "k" (Db.m_file s) = "v" ∧
  (Db.get_key "k" s).1 = "v" ∧
  (∃ c, Db.m_local_cache s1 = Some c ∧
        Cache.entries c = [("k", None)] ∧
        Cache.get "k" None c = (true, None, c)) ∧
  Db.m_file s1 = Db.m_file s ∧
  (Db.get_key "k" s1).1 = "".
Proof.
  intros s s1.
  split; [done|]. split; [done|]. split; [done|]. split; [done|].
  split; [by vm_compute|]. split; [by vm_compute|].
  split; [|split; by vm_compute].
  eexists. split; [by vm_compute|]. split; by vm_compute.
Qed.

(** C2.  The same three calls on the same file: without a cache both
    reads return [v]; with a cache of capacity 1 the second read returns
    the empty string.  (The file and the buffer are the same in both
    runs.) *)
Theorem cache_changes_read_results :
  let calls := [Db.Begin; Db.GetKey "k"; Db.GetKey "k"] in
  let without := Db.trace calls (Db.new (FileStore.regular "k=v") 0) in
  let with_one := Db.trace calls (Db.new (FileStore.regular "k=v") 1) in
  without.1 = [Db.RBool true; Db.RString "v"; Db.RString "v"] ∧
  with_one.1 = [Db.RBool true; Db.RString "v"; Db.RString ""] ∧
  Db.same_but_cache without.2 with_one.2.
Proof.
  intros calls without with_one.
  split; [by vm_compute|]. split; [by vm_compute|].
  apply trace_frame. done.
Qed.

(** C4.  On an empty file and a cache of capacity 1: a transaction sets
    [k] to [v] and commits.  A second transaction reads another key [j]
    (which evicts [k] from the cache) and then [k] (answered [v] from the
    file, and recorded in the cache as [std::nullopt]).  A third
    transaction reads [k] and gets the empty string, although nothing has
    written [k] since the commit and the file still holds [k=v]. *)
Theorem committed_value_hidden_by_cache :
  let r := Db.trace [Db.Begin; Db.SetKey "k" "v"; Db.Commit;
                     Db.Begin; Db.GetKey "j"; Db.GetKey "k"; Db.Commit;
                     Db.Begin; Db.GetKey "k"]
             (Db.new (FileStore.regular "") 1) in
  r.1 = [Db.RBool true; Db.RString ""; Db.RBool true;
         Db.RBool true; Db.RString ""; Db.RString "v"; Db.RBool true;
         Db.RBool true; Db.RString ""] ∧
  Db.m_file r.2 = FileStore.regular (FileStore.putlines ["k=v"]) ∧
  FileStore.file_get_value "k" (Db.m_file r.2) = "v".
Proof. intros r. split; [by vm_compute|]. split; by vm_compute. Qed.

(** * Further properties of the cache *)

Lemma filter_all {A} (P : A → Prop) `{!∀ x, Decision (P x)} (l : list A) :
  Forall P l → filter P l = l.
Proof.
  induction 1 as [|x l Hx _ IH]; [done|].
  by rewrite filter_cons_True, IH.
Qed.

Lemma length_removelast_nonempty {A} (l : list A) :
  l ≠ [] → S (length (removelast l)) = length l.
Proof.
  intros Hne. destruct (exists_last Hne) as (l' & x & ->).
  rewrite removelast_last, length_app. simpl. lia.
Qed.

Section cache_entries.

Import Cache.

Lemma entries_unlink it k v l :
  NoDup ((l.*2).*1) → deref it l = Some (k, v) →
  (unlink it l).*2 = filter (λ e : entry, e.1 ≠ k) (l.*2).
Proof.
  induction l as [|[a e] l IH]; [done|]. simpl.
  intros [Hnotin Hnd]%NoDup_cons. case_decide as Ha.
  - intros [= ->]. simpl in Hnotin.
    rewrite filter_cons_False by (simpl; auto).
    symmetry. apply filter_all. apply Forall_forall.
    intros e He <-. apply Hnotin. apply list_elem_of_fmap. by exists e.
  - intros Hd. assert (e.1 ≠ k) as Hne.
    { intros <-. apply Hnotin. apply deref_elem_of in Hd.
      apply list_elem_of_fmap. exists (e.1, v). split; [done|].
      apply list_elem_of_fmap. by exists (it, (e.1, v)). }
    rewrite filter_cons_True by done. simpl. f_equal. apply (IH Hnd Hd).
Qed.

Lemma unlink_assign_second it v l :
  unlink it (assign_second it v l) = unlink it l.
Proof.
  induction l as [|[a e] l IH]; [done|]. simpl.
  case_decide as Ha; simpl.
  - by rewrite decide_True.
  - rewrite decide_False by done. by rewrite IH.
Qed.

Lemma deref_assign_second it v l e :
  deref it l = Some e → deref it (assign_second it v l) = Some (e.1, v).
Proof.
  induction l as [|[a e'] l IH]; [done|]. simpl.
  case_decide as Ha; simpl.
  - intros [= ->]. by rewrite decide_True.
  - rewrite decide_False by done. exact IH.
Qed.

(** The pairs after [move_to_front] of a key the index knows. *)
Lemma entries_move_to_front k v it c :
  NoDup (keys c) →
  m_cache_map c !! k = Some it → deref it (m_cache c) = Some (k, v) →
  entries (move_to_front k c)
  = (k, v) :: filter (λ e : entry, e.1 ≠ k) (entries c).
Proof.
  intros Hnd Hk Hd. unfold move_to_front, entries. rewrite Hk. simpl.
  unfold splice_front. rewrite Hd. simpl. f_equal.
  apply (entries_unlink it k v _ Hnd Hd).
Qed.

(** The pairs after a [put] on a key the index knows. *)
Lemma entries_put_present k v it c :
  wf c → m_cache_map c !! k = Some it →
  entries (put k v c) = (k, v) :: filter (λ e : entry, e.1 ≠ k) (entries c).
Proof.
  intros Hwf Hk. destruct (wf_present _ _ _ Hwf Hk) as [v0 Hd].
  unfold put, move_to_front, entries. rewrite Hk. simpl. rewrite Hk. simpl.
  unfold splice_front.
  rewrite (deref_assign_second _ v _ _ Hd), unlink_assign_second. simpl.
  f_equal. apply (entries_unlink it k v0 _ (wf_keys _ Hwf) Hd).
Qed.

Lemma wf_key_present c k :
  wf c → k ∈ keys c ↔ is_Some (m_cache_map c !! k).
Proof.
  intros Hwf. split.
  - intros Hin. destruct (m_cache_map c !! k) eqn:Hk; [eauto|].
    by apply wf_absent in Hk.
  - intros [it Hk]. apply (wf_index _ Hwf) in Hk as [v Hin].
    unfold keys, entries.
    apply list_elem_of_fmap. exists (k, v). split; [done|].
    apply list_elem_of_fmap. by exists (it, (k, v)).
Qed.

Lemma wf_entry_deref c k v :
  wf c → (k, v) ∈ entries c →
  ∃ it, m_cache_map c !! k = Some it ∧ deref it (m_cache c) = Some (k, v).
Proof.
  intros Hwf Hin. unfold entries in Hin.
  apply list_elem_of_fmap in Hin as [[it e] [He Hin]]. simpl in He. subst e.
  exists it. split.
  - apply (wf_index _ Hwf). eauto.
  - apply elem_of_deref; [apply Hwf|done].
Qed.

Lemma length_filter_key k (l : list entry) :
  NoDup (l.*1) → k ∈ l.*1 →
  S (length (filter (λ e : entry, e.1 ≠ k) l)) = length l.
Proof.
  induction l as [|e l IH]; simpl.
  - intros _ Hin. by apply elem_of_nil in Hin.
  - intros [Hnotin Hnd]%NoDup_cons Hin.
    destruct (decide (e.1 = k)) as [Heq|Hne].
    + rewrite filter_cons_False by auto. f_equal.
      rewrite filter_all; [done|]. apply Forall_forall.
      intros e' He' Hk. apply Hnotin. rewrite Heq, <- Hk.
      apply list_elem_of_fmap. by exists e'.
    + rewrite filter_cons_True by done. simpl. f_equal. apply IH; [done|].
      apply elem_of_cons in Hin as [Hin|Hin]; [congruence|done].
Qed.

(** A pair of another key found after a [put] was there before. *)
Lemma put_entries_other k k' v v' c :
  wf c → k' ≠ k →
  (k', v') ∈ entries (put k v c) → (k', v') ∈ entries c.
Proof.
  intros Hwf Hne. destruct (m_cache_map c !! k) as [it|] eqn:Hk.
  - rewrite (entries_put_present k v it c Hwf Hk).
    intros [Heq|Hin]%elem_of_cons; [congruence|].
    by apply list_elem_of_filter in Hin as [_ ?].
  - destruct (decide (m_capacity c ≤ length (m_cache c))) as [Hfull|Hroom].
    + rewrite (put_overflow k v c Hk Hfull).
      intros [Heq|Hin]%elem_of_cons; [congruence|].
      destruct (entries c) as [|e l] using rev_ind; [done|].
      rewrite removelast_last in Hin. apply elem_of_app. by left.
    + rewrite (put_room k v c Hk) by lia.
      intros [Heq|Hin]%elem_of_cons; [congruence|done].
Qed.

(** In a well-formed cache a key has one value. *)
Lemma wf_entry_unique c k v v' :
  wf c → (k, v) ∈ entries c → (k, v') ∈ entries c → v = v'.
Proof.
  intros Hwf. pose proof (wf_keys _ Hwf) as Hnd. unfold keys in Hnd.
  induction (entries c) as [|e l IH]; [by intros ?%elem_of_nil|].
  simpl in Hnd. apply NoDup_cons in Hnd as [Hnotin Hnd].
  intros [H1|H1]%elem_of_cons [H2|H2]%elem_of_cons.
  - congruence.
  - exfalso. apply Hnotin. rewrite <- H1. apply list_elem_of_fmap.
    by exists (k, v').
  - exfalso. apply Hnotin. rewrite <- H2. apply list_elem_of_fmap.
    by exists (k, v).
  - by apply IH.
Qed.

End cache_entries.

(** X1.  On a well-formed cache of positive capacity, [get] right after
    [put(key, value)] reports a hit with that value (a [std::nullopt]
    included) and leaves the cache as [put] left it. *)
Theorem put_then_get (key : string) (value tmp : option string) (c : Cache.t) :
  Cache.wf c → 0 < Cache.m_capacity c →
  Cache.get key tmp (Cache.put key value c)
  = (true, value, Cache.put key value c).
Proof.
  intros Hwf Hcap.
  destruct (put_front key value c Hwf Hcap) as (it & rest & Hl & Hk).
  by apply (get_front key value it rest).
Qed.

Lemma put_then_get_witness :
  let c := Cache.put "A" (Some "1") (Cache.new 2) in
  Cache.get "B" (Some "junk") (Cache.put "B" None c)
  = (true, None, Cache.put "B" None c).
Proof.
  intros c. apply put_then_get.
  - apply put_wf; [apply new_wf|simpl; lia].
  - unfold c. rewrite put_capacity. simpl. lia.
Defined.

(** X2.  A [put] on a key the cache already holds replaces its value and
    moves the pair to the front; every other pair stays, with its value
    and in the same relative order, and nothing is evicted, even when the
    cache is full. *)
Theorem put_existing_key (key : string) (value : option string) (c : Cache.t) :
  Cache.wf c → key ∈ Cache.keys c →
  Cache.entries (Cache.put key value c)
  = (key, value) :: filter (λ e : Cache.entry, e.1 ≠ key) (Cache.entries c)
  ∧ length (Cache.entries (Cache.put key value c))
    = length (Cache.entries c).
Proof.
  intros Hwf Hin. pose proof Hin as [it Hk]%(wf_key_present _ _ Hwf).
  rewrite (entries_put_present key value it c Hwf Hk). split; [done|].
  simpl. apply length_filter_key; [apply Hwf|done].
Qed.

Lemma put_existing_key_witness :
  let c := Cache.run [Cache.Put "A" (Some "1"); Cache.Put "B" (Some "2")]
             (Cache.new 2) in
  Cache.entries (Cache.put "A" None c)
  = ("A", None) :: filter (λ e : Cache.entry, e.1 ≠ "A") (Cache.entries c).
Proof.
  intros c. refine (proj1 (put_existing_key "A" None c _ _)).
  - apply run_wf; [apply new_wf|simpl; lia].
  - vm_compute. apply list_elem_of_In. simpl. tauto.
Defined.

(** X3.  A [get] on a key the cache holds returns the value stored with
    it, moves that pair to the front, and leaves every other pair, the
    relative order of the others, the index and the capacity as they
    were. *)
Theorem get_hit_moves_to_front (key : string) (value tmp : option string)
    (c : Cache.t) :
  Cache.wf c → (key, value) ∈ Cache.entries c →
  let r := Cache.get key tmp c in
  r.1 = (true, value) ∧
  Cache.entries r.2
  = (key, value) :: filter (λ e : Cache.entry, e.1 ≠ key) (Cache.entries c) ∧
  Cache.m_cache_map r.2 = Cache.m_cache_map c ∧
  Cache.m_capacity r.2 = Cache.m_capacity c.
Proof.
  intros Hwf Hin r.
  destruct (wf_entry_deref c key value Hwf Hin) as (it & Hk & Hd).
  unfold r, Cache.get. rewrite Hk, Hd. simpl.
  split; [done|]. split.
  - apply (entries_move_to_front key value it); [apply Hwf|done|done].
  - split; [apply move_to_front_map|apply move_to_front_capacity].
Qed.

Lemma get_hit_moves_to_front_witness :
  let c := Cache.run [Cache.Put "A" (Some "1"); Cache.Put "B" None;
                      Cache.Put "C" (Some "3")] (Cache.new 3) in
  Cache.entries (Cache.get "A" None c).2
  = [("A", Some "1"); ("C", Some "3"); ("B", None)].
Proof.
  intros c.
  assert (Cache.wf c) as Hwf by (apply run_wf; [apply new_wf|simpl; lia]).
  assert (("A", Some "1") ∈ Cache.entries c) as Hin.
  { vm_compute. apply list_elem_of_In. simpl. tauto. }
  rewrite (proj1 (proj2 (get_hit_moves_to_front "A" (Some "1") None c Hwf Hin))).
  by vm_compute.
Defined.

(** X4.  The number of pairs after a [put], on a well-formed cache of
    positive capacity: unchanged when the key was there, one more when it
    was not and there was room, and unchanged (equal to the capacity)
    when it was not and the cache was full. *)
Theorem put_size (key : string) (value : option string) (c : Cache.t) :
  Cache.wf c → 0 < Cache.m_capacity c →
  length (Cache.entries (Cache.put key value c))
  = if decide (key ∈ Cache.keys c) then length (Cache.entries c)
    else Nat.min (S (length (Cache.entries c))) (Cache.m_capacity c).
Proof.
  intros Hwf Hcap. case_decide as Hin.
  - pose proof Hin as [it Hk]%(wf_key_present _ _ Hwf).
    rewrite (entries_put_present key value it c Hwf Hk). simpl.
    apply length_filter_key; [apply Hwf|done].
  - assert (Cache.m_cache_map c !! key = None) as Hk.
    { destruct (Cache.m_cache_map c !! key) eqn:Hk; [|done].
      exfalso. apply Hin, (wf_key_present _ _ Hwf). eauto. }
    pose proof (Cache.wf_capacity _ Hwf) as Hle.
    assert (length (Cache.entries c) = length (Cache.m_cache c)) as Hlen.
    { unfold Cache.entries. apply length_fmap. }
    destruct (decide (Cache.m_capacity c ≤ length (Cache.m_cache c))) as [Hfull|Hroom].
    + rewrite (put_overflow key value c Hk Hfull). cbn [length].
      rewrite length_removelast_nonempty; [lia|].
      intros Hnil. rewrite Hnil in Hlen. simpl in Hlen. lia.
    + rewrite (put_room key value c Hk) by lia. cbn [length]. lia.
Qed.

Lemma put_size_witness :
  let c := Cache.run [Cache.Put "A" (Some "1"); Cache.Put "B" (Some "2")]
             (Cache.new 2) in
  length (Cache.entries (Cache.put "C" None c)) = 2.
Proof.
  intros c.
  rewrite (put_size "C" None c);
    [by vm_compute|apply run_wf; [apply new_wf|simpl; lia]|vm_compute; lia].
Defined.


(** X5.  A [put] on one key does not touch the others: a pair of
    another key found after the [put] was there before, with the same
    value; and a pair of another key that was there before is still
    there, unless the [put] brought a new key into a full cache and the
    pair was the last one. *)
Theorem put_other_keys (key key' : string) (value value' : option string)
    (c : Cache.t) :
  Cache.wf c → key' ≠ key →
  ((key', value') ∈ Cache.entries (Cache.put key value c) →
   (key', value') ∈ Cache.entries c) ∧
  ((key', value') ∈ Cache.entries c →
   (key', value') ∈ Cache.entries (Cache.put key value c) ∨
   ((key ∉ Cache.keys c) ∧ Cache.m_capacity c ≤ length (Cache.entries c) ∧
    last (Cache.entries c) = Some (key', value'))).
Proof.
  intros Hwf Hne.
  assert (length (Cache.entries c) = length (Cache.m_cache c)) as Hlen.
  { unfold Cache.entries. apply length_fmap. }
  destruct (decide (key ∈ Cache.keys c)) as [Hin|Hnotin].
  - pose proof Hin as [it Hk]%(wf_key_present _ _ Hwf).
    rewrite (entries_put_present key value it c Hwf Hk). split.
    + intros [Heq|Hin']%elem_of_cons; [congruence|].
      by apply list_elem_of_filter in Hin' as [_ ?].
    + intros Hin'. left. right. by apply list_elem_of_filter.
  - assert (Cache.m_cache_map c !! key = None) as Hk.
    { destruct (Cache.m_cache_map c !! key) eqn:Hk; [|done].
      exfalso. apply Hnotin, (wf_key_present _ _ Hwf). eauto. }
    destruct (decide (Cache.m_capacity c ≤ length (Cache.m_cache c)))
      as [Hfull|Hroom].
    + rewrite (put_overflow key value c Hk Hfull).
      destruct (Cache.entries c) as [|e l] eqn:He using rev_ind.
      { split; [|by intros ?%elem_of_nil].
        intros [Heq|Hin']%elem_of_cons; [congruence|done]. }
      clear IHl. rewrite removelast_last. split.
      * intros [Heq|Hin']%elem_of_cons; [congruence|].
        apply elem_of_app. by left.
      * intros [Hin'|Hin']%elem_of_app; [left; by right|].
        apply list_elem_of_singleton in Hin' as <-. right.
        split; [done|]. split; [lia|]. apply last_snoc.
    + rewrite (put_room key value c Hk) by lia. split.
      * intros [Heq|Hin']%elem_of_cons; [congruence|done].
      * intros Hin'. left. by right.
Qed.

Lemma put_other_keys_witness :
  let c := Cache.run [Cache.Put "A" (Some "1"); Cache.Put "B" (Some "2")]
             (Cache.new 2) in
  Cache.wf c ∧ "B" ≠ "C" ∧
  (("B", Some "2") ∈ Cache.entries (Cache.put "C" None c) →
   ("B", Some "2") ∈ Cache.entries c).
Proof.
  intros c.
  assert (Cache.wf c) as Hwf by (apply run_wf; [apply new_wf|simpl; lia]).
  assert ("B" ≠ "C") as Hne by discriminate.
  split; [exact Hwf|]. split; [exact Hne|].
  exact (proj1 (put_other_keys "C" "B" None (Some "2") c Hwf Hne)).
Defined.


(** * Further properties of the file store *)

Section file_lines.

Import FileStore.

Lemma prefix_cons a s1 b s2 :
  String.prefix (String a s1) (String b s2) = true
  ↔ a = b ∧ String.prefix s1 s2 = true.
Proof.
  change (String.prefix (String a s1) (String b s2))
    with (match ascii_dec a b with
          | left _ => String.prefix s1 s2
          | right _ => false
          end).
  destruct (ascii_dec a b); split; intros; try done; by destruct_and?.
Qed.

Lemma prefix_empty_r s : String.prefix s "" = true → s = "".
Proof. by destruct s. Qed.

(** A line is the line of at most one key without [=]. *)
Lemma key_line_inj key key' line :
  occurs "=" key = false → occurs "=" key' = false →
  key_line key line = true → key_line key' line = true → key = key'.
Proof.
  rewrite !key_line_prefix.
  revert key' line. induction key as [|c key IH]; intros key' line Hk Hk'.
  - destruct line as [|b line]; [done|].
    change ("" +:+ "=") with (String "=" ""). intros [<- _]%prefix_cons.
    destruct key' as [|c' key']; [done|].
    rewrite append_cons. intros [-> _]%prefix_cons.
    by vm_compute in Hk'.
  - simpl in Hk. apply orb_false_elim in Hk as [Hc Hk].
    apply bool_decide_eq_false_1 in Hc.
    destruct line as [|b line]; [by rewrite append_cons|].
    rewrite append_cons. intros [-> Hp]%prefix_cons.
    destruct key' as [|c' key'].
    + change ("" +:+ "=") with (String "=" ""). by intros [<- _]%prefix_cons.
    + simpl in Hk'. apply orb_false_elim in Hk' as [_ Hk'].
      rewrite append_cons. intros [-> Hp']%prefix_cons.
      f_equal. by apply (IH key' line).
Qed.

Lemma first_value_lines key input :
  first_value key input
  = first_value key (filter (λ line, key_line key line = true) input).
Proof.
  induction input as [|line rest IH]; [done|].
  destruct (key_line key line) eqn:Hkl.
  - rewrite filter_cons_True by done. simpl. by rewrite Hkl.
  - rewrite filter_cons_False by (by rewrite Hkl). simpl. by rewrite Hkl.
Qed.

Lemma file_get_value_lines key file :
  file_get_value key file = first_value key (lines_of key file).
Proof. destruct file as [[content|] w]; [apply first_value_lines|done]. Qed.

(** The loop of [file_write_or_delete] and the lines of another key. *)
Lemma scan_other is_delete key value key' found0 input :
  (∀ line, key_line key line = true → key_line key' line = false) →
  key_line key' (key +:+ "=" +:+ value) = false →
  filter (λ line, key_line key' line = true)
    (scan is_delete key value found0 input).1
  = filter (λ line, key_line key' line = true) input.
Proof.
  intros Hdis Hnew. revert found0.
  induction input as [|line rest IH]; intros found0; [done|].
  cbn [scan]. destruct (negb found0 && key_line key line) eqn:Hm.
  - apply andb_true_iff in Hm as [_ Hm]. specialize (IH true).
    destruct (scan is_delete key value true rest) as [lines found].
    simpl in *. rewrite (filter_cons_False _ line) by (by rewrite (Hdis _ Hm)).
    destruct is_delete; [done|].
    by rewrite filter_cons_False by (by rewrite Hnew).
  - specialize (IH found0).
    destruct (scan is_delete key value found0 rest) as [lines found].
    simpl in *. rewrite !filter_cons. by rewrite IH.
Qed.

(** The loop of [file_write_or_delete], writing, and the lines of the
    key itself. *)
Lemma scan_write_self key value input :
  let '(lines, found) := scan false key value false input in
  filter (λ line, key_line key line = true)
    (if found then lines else lines ++ [key +:+ "=" +:+ value])
  = (key +:+ "=" +:+ value)
      :: tail (filter (λ line, key_line key line = true) input).
Proof.
  induction input as [|line rest IH].
  { simpl. by rewrite filter_cons_True by apply key_line_written. }
  cbn [scan negb andb]. destruct (key_line key line) eqn:Hkl.
  - rewrite scan_found.
    rewrite filter_cons_True by apply key_line_written.
    by rewrite (filter_cons_True _ line) by done.
  - destruct (scan false key value false rest) as [lines found].
    rewrite (filter_cons_False _ line) by (by rewrite Hkl).
    rewrite <- IH. destruct found; simpl;
      by rewrite filter_cons_False by (by rewrite Hkl).
Qed.

Lemma scan_newline_free is_delete key value found0 input :
  occurs newline (key +:+ "=" +:+ value) = false →
  Forall (λ line, occurs newline line = false) input →
  Forall (λ line, occurs newline line = false)
    (scan is_delete key value found0 input).1.
Proof.
  intros Hnew. revert found0.
  induction input as [|line rest IH]; intros found0 Hin; [done|].
  apply Forall_cons in Hin as [Hl Hrest]. cbn [scan].
  destruct (negb found0 && key_line key line).
  - specialize (IH true Hrest).
    destruct (scan is_delete key value true rest) as [lines found].
    simpl in *. destruct is_delete; [done|by constructor].
  - specialize (IH found0 Hrest).
    destruct (scan is_delete key value found0 rest) as [lines found].
    simpl in *. by constructor.
Qed.

Lemma written_line_newline_free key value :
  occurs newline key = false → occurs newline value = false →
  occurs newline (key +:+ "=" +:+ value) = false.
Proof. intros Hk Hv. by rewrite !occurs_append, Hk, Hv. Qed.

(** A file that does not open for writing stays as it is. *)
Lemma file_read_only is_delete key value file :
  writable file = false → file_write_or_delete is_delete key value file = file.
Proof.
  destruct file as [[content|] w]; intros Hw; cbn [writable] in Hw; [|done].
  subst w. unfold file_write_or_delete. cbn [contents writable negb].
  destruct (scan is_delete key value false (getlines content))
    as [lines found].
  by destruct (negb found && is_delete).
Qed.

(** The lines of [key] after [file_write_key_value] on [key], on a file
    that opens for reading and for writing. *)
Lemma lines_of_write_self key value file :
  read_write file →
  occurs newline key = false → occurs newline value = false →
  lines_of key (file_write_key_value key value file)
  = (key +:+ "=" +:+ value) :: tail (lines_of key file).
Proof.
  destruct file as [[content|] w]; intros [[? Hc] Hw] Hk Hv;
    cbn [contents writable] in Hc, Hw; [subst w|done].
  unfold file_write_key_value, file_write_or_delete, lines_of.
  cbn [contents writable negb andb].
  pose proof (written_line_newline_free _ _ Hk Hv) as Hnew.
  pose proof (scan_write_self key value (getlines content)) as Hself.
  pose proof (scan_newline_free false key value false (getlines content)
                Hnew (getlines_newline_free content)) as Hfree.
  destruct (scan false key value false (getlines content)) as [lines found].
  simpl in Hfree. destruct found; cbn [negb andb contents].
  - by rewrite getlines_putlines.
  - rewrite getlines_putlines; [done|].
    apply Forall_app. split; [done|]. by constructor.
Qed.

(** The lines of another key after [file_write_key_value]. *)
Lemma lines_of_write_other key value key' file :
  occurs "=" key = false → occurs "=" key' = false → key' ≠ key →
  occurs newline key = false → occurs newline value = false →
  lines_of key' (file_write_key_value key value file) = lines_of key' file.
Proof.
  intros Hk Hk' Hne Hkn Hv.
  destruct (writable file) eqn:Hw;
    [|unfold file_write_key_value; by rewrite file_read_only].
  destruct file as [[content|] w]; [|done]. cbn [writable] in Hw. subst w.
  unfold file_write_key_value, file_write_or_delete, lines_of.
  cbn [contents writable negb andb].
  pose proof (written_line_newline_free _ _ Hkn Hv) as Hnew.
  assert (∀ line, key_line key line = true → key_line key' line = false)
    as Hdis.
  { intros line H. destruct (key_line key' line) eqn:H'; [|done].
    destruct Hne. by apply (key_line_inj key' key line). }
  pose proof (Hdis _ (key_line_written key value)) as Hnew'.
  pose proof (scan_other false key value key' false (getlines content)
                Hdis Hnew') as Hother.
  pose proof (scan_newline_free false key value false (getlines content)
                Hnew (getlines_newline_free content)) as Hfree.
  destruct (scan false key value false (getlines content)) as [lines found].
  simpl in Hother, Hfree. destruct found; cbn [negb andb contents].
  - by rewrite getlines_putlines.
  - rewrite getlines_putlines by (apply Forall_app; split; [done|by constructor]).
    rewrite filter_app, Hother.
    rewrite filter_cons_False by (by rewrite Hnew'). apply app_nil_r.
Qed.

Lemma scan_delete_found key value input :
  (scan true key value false input).2 = false →
  filter (λ line, key_line key line = true) input = [].
Proof.
  intros Hf. pose proof (scan_delete key value input) as H.
  destruct (scan true key value false input) as [lines found].
  simpl in Hf. subst found. by destruct H as (_ & _ & [_ ?]).
Qed.

(** The lines of [key] after [file_delete_key] on [key], on a file that
    opens for writing: the first one is gone. *)
Lemma lines_of_delete_self key file :
  writable file = true →
  lines_of key (file_delete_key key file) = tail (lines_of key file).
Proof.
  destruct file as [[content|] w]; intros Hw; cbn [writable] in Hw; [|done].
  subst w. unfold file_delete_key, file_write_or_delete, lines_of.
  cbn [contents writable negb andb].
  pose proof (scan_delete key "" (getlines content)) as Hscan.
  destruct (scan true key "" false (getlines content)) as [lines found].
  destruct Hscan as (H1 & H2 & H3). destruct found; cbn [negb andb contents].
  - by rewrite getlines_putlines by (apply H2, getlines_newline_free).
  - destruct (H3 eq_refl) as [_ ->]. done.
Qed.

(** The lines of another key after [file_delete_key]. *)
Lemma lines_of_delete_other key key' file :
  occurs "=" key = false → occurs "=" key' = false → key' ≠ key →
  lines_of key' (file_delete_key key file) = lines_of key' file.
Proof.
  intros Hk Hk' Hne.
  destruct (writable file) eqn:Hw;
    [|unfold file_delete_key; by rewrite file_read_only].
  destruct file as [[content|] w]; [|done]. cbn [writable] in Hw. subst w.
  unfold file_delete_key, file_write_or_delete, lines_of.
  cbn [contents writable negb andb].
  assert (∀ line, key_line key line = true → key_line key' line = false)
    as Hdis.
  { intros line H. destruct (key_line key' line) eqn:H'; [|done].
    destruct Hne. by apply (key_line_inj key' key line). }
  pose proof (Hdis _ (key_line_written key "")) as Hnew'.
  pose proof (scan_other true key "" key' false (getlines content)
                Hdis Hnew') as Hother.
  pose proof (scan_delete key "" (getlines content)) as Hscan.
  destruct (scan true key "" false (getlines content)) as [lines found].
  destruct Hscan as (_ & H2 & _). simpl in Hother.
  destruct found; cbn [negb andb contents]; [|done].
  by rewrite getlines_putlines by (apply H2, getlines_newline_free).
Qed.

(** Whether the file opens, for reading and for writing, is the same
    before and after [file_write_or_delete]. *)
Lemma file_write_or_delete_opens is_delete key value file :
  (is_Some (contents (file_write_or_delete is_delete key value file))
   ↔ is_Some (contents file)) ∧
  writable (file_write_or_delete is_delete key value file) = writable file.
Proof.
  destruct file as [[content|] w]; [|done].
  unfold file_write_or_delete. cbn [contents writable].
  destruct (scan is_delete key value false (getlines content))
    as [lines found].
  destruct (negb found && is_delete); [done|].
  destruct w; cbn [negb contents writable]; [|done].
  split; [|done]. split; eauto.
Qed.

Lemma file_write_opens key value file :
  read_write (file_write_key_value key value file) ↔ read_write file.
Proof.
  unfold read_write, file_write_key_value.
  destruct (file_write_or_delete_opens false key value file) as [-> ->]. done.
Qed.

Lemma file_delete_opens key file :
  read_write (file_delete_key key file) ↔ read_write file.
Proof.
  unfold read_write, file_delete_key.
  destruct (file_write_or_delete_opens true key "" file) as [-> ->]. done.
Qed.

Lemma one_line_write key value file :
  plain_key key → plain_value value →
  one_line_per_key file → one_line_per_key (file_write_key_value key value file).
Proof.
  intros [Hk Hkn] Hv Hone key' Hk'.
  destruct (decide (key' = key)) as [->|Hne].
  - destruct (writable file) eqn:Hw;
      [|unfold file_write_key_value; rewrite file_read_only by done;
        by apply Hone].
    destruct (contents file) as [content|] eqn:Hc.
    + rewrite lines_of_write_self by (done || (split; [by eexists|done])).
      specialize (Hone key Hk).
      destruct (lines_of key file) as [|l1 [|l2 ls]]; simpl in *; lia.
    + unfold file_write_key_value, file_write_or_delete, lines_of.
      rewrite Hc, Hc. simpl. lia.
  - rewrite lines_of_write_other by done. by apply Hone.
Qed.

Lemma one_line_delete key file :
  occurs "=" key = false →
  one_line_per_key file → one_line_per_key (file_delete_key key file).
Proof.
  intros Hk Hone key' Hk'.
  destruct (decide (key' = key)) as [->|Hne].
  - destruct (writable file) eqn:Hw;
      [|unfold file_delete_key; rewrite file_read_only by done;
        by apply Hone].
    rewrite lines_of_delete_self by done. specialize (Hone key Hk).
    destruct (lines_of key file) as [|l1 [|l2 ls]]; simpl in *; lia.
  - rewrite lines_of_delete_other by done. by apply Hone.
Qed.

(** Without a line of the key the loop copies its input and finds
    nothing. *)
Lemma scan_no_line is_delete key value input :
  filter (λ line, key_line key line = true) input = [] →
  scan is_delete key value false input = (input, false).
Proof.
  induction input as [|line rest IH]; [done|].
  cbn [scan negb andb]. destruct (key_line key line) eqn:Hkl.
  - by rewrite filter_cons_True.
  - rewrite filter_cons_False by (by rewrite Hkl).
    intros H. by rewrite (IH H).
Qed.

End file_lines.


(** X6.  On a file that opens for reading and for writing,
    [file_get_value] after [file_write_key_value] returns the value
    written, for a key without [=] and newline and a value without
    newline (the value may contain [=]), whether the key had a line
    before or not.  On a file that does not open for writing,
    [file_write_key_value] leaves the file as it is. *)
Theorem write_then_get (key value : string) (file : FileStore.File) :
  FileStore.plain_key key → FileStore.plain_value value →
  (FileStore.read_write file →
   FileStore.file_get_value key
     (FileStore.file_write_key_value key value file) = value) ∧
  (FileStore.writable file = false →
   FileStore.file_write_key_value key value file = file).
Proof.
  intros [Hk Hkn] Hv. split.
  - intros Hrw. by apply file_get_after_write.
  - apply file_read_only.
Qed.

Lemma write_then_get_witness :
  let file := FileStore.putlines ["j=1"; "k=2"] in
  FileStore.file_get_value "k"
    (FileStore.file_write_key_value "k" "a=b" (FileStore.regular file))
  = "a=b" ∧
  FileStore.file_get_value "k"
    (FileStore.file_write_key_value "k" "a=b" (FileStore.read_only file))
  = "2".
Proof.
  intros file.
  assert (FileStore.plain_key "k") as Hk by (by vm_compute).
  assert (FileStore.plain_value "a=b") as Hv by (by vm_compute).
  split.
  - apply (proj1 (write_then_get "k" "a=b" (FileStore.regular file) Hk Hv)).
    split; [by eexists|reflexivity].
  - rewrite (proj2 (write_then_get "k" "a=b" (FileStore.read_only file)
                      Hk Hv) eq_refl).
    by vm_compute.
Defined.

(** X7.  [file_write_key_value] on one key leaves what
    [file_get_value] returns for every other key as it was (keys without
    [=]; written key and value without newline). *)
Theorem write_keeps_other_keys (key key' value : string)
    (file : FileStore.File) :
  FileStore.plain_key key → FileStore.plain_value value →
  FileStore.occurs "=" key' = false → key' ≠ key →
  FileStore.file_get_value key'
    (FileStore.file_write_key_value key value file)
  = FileStore.file_get_value key' file.
Proof.
  intros [Hk Hkn] Hv Hk' Hne.
  by rewrite !file_get_value_lines, lines_of_write_other.
Qed.

Lemma write_keeps_other_keys_witness :
  let file := FileStore.regular (FileStore.putlines ["j=1"; "k=2"]) in
  FileStore.file_get_value "j" (FileStore.file_write_key_value "k" "3" file)
  = FileStore.file_get_value "j" file.
Proof.
  intros file.
  apply write_keeps_other_keys; [by vm_compute|by vm_compute|by vm_compute|].
  discriminate.
Defined.

(** X8.  On a file that opens for writing, [file_get_value] after
    [file_delete_key] on the same key returns what the second line of the
    key holds; where the file has at most one line of the key, that is
    the empty string.  On a file that does not open for writing,
    [file_delete_key] leaves the file as it is. *)
Theorem delete_then_get (key : string) (file : FileStore.File) :
  (FileStore.writable file = true →
   FileStore.file_get_value key (FileStore.file_delete_key key file)
   = FileStore.first_value key (tail (FileStore.lines_of key file))) ∧
  (FileStore.writable file = true →
   length (FileStore.lines_of key file) ≤ 1 →
   FileStore.file_get_value key (FileStore.file_delete_key key file) = "") ∧
  (FileStore.writable file = false →
   FileStore.file_delete_key key file = file).
Proof.
  split; [|split].
  - intros Hw. by rewrite file_get_value_lines, lines_of_delete_self.
  - intros Hw Hone. apply file_get_after_delete. by right.
  - apply file_read_only.
Qed.

Lemma delete_then_get_witness :
  let content := FileStore.putlines ["j=1"; "k=2"] in
  let file := FileStore.regular content in
  (FileStore.writable file = true ∧
   length (FileStore.lines_of "k" file) ≤ 1 ∧
   FileStore.file_get_value "k" (FileStore.file_delete_key "k" file) = "") ∧
  FileStore.file_get_value "k"
    (FileStore.file_delete_key "k" (FileStore.read_only content)) = "2".
Proof.
  intros content file.
  assert (length (FileStore.lines_of "k" file) ≤ 1) as H by (vm_compute; lia).
  split; [split; [reflexivity|split; [exact H|]]|].
  - exact (proj1 (proj2 (delete_then_get "k" file)) eq_refl H).
  - rewrite (proj2 (proj2 (delete_then_get "k"
                             (FileStore.read_only content))) eq_refl).
    by vm_compute.
Defined.

(** X9.  [file_delete_key] on one key leaves what [file_get_value]
    returns for every other key as it was (keys without [=]). *)
Theorem delete_keeps_other_keys (key key' : string) (file : FileStore.File) :
  FileStore.occurs "=" key = false → FileStore.occurs "=" key' = false →
  key' ≠ key →
  FileStore.file_get_value key' (FileStore.file_delete_key key file)
  = FileStore.file_get_value key' file.
Proof.
  intros Hk Hk' Hne.
  by rewrite !file_get_value_lines, lines_of_delete_other.
Qed.

Lemma delete_keeps_other_keys_witness :
  let file := FileStore.regular (FileStore.putlines ["j=1"; "k=2"]) in
  FileStore.file_get_value "j" (FileStore.file_delete_key "k" file)
  = FileStore.file_get_value "j" file.
Proof.
  intros file.
  apply delete_keeps_other_keys; [by vm_compute|by vm_compute|discriminate].
Defined.

(** X10.  An empty file has at most one line per key, and
    [file_write_key_value] (key without [=] and newline, value without
    newline) and [file_delete_key] (key without [=]) keep it so: a file
    maintained through these two functions never holds two lines for a
    key without [=]. *)
Theorem one_line_per_key_kept :
  (∀ w, FileStore.one_line_per_key (FileStore.mk_file (Some "") w)) ∧
  (∀ key value file,
     FileStore.plain_key key → FileStore.plain_value value →
     FileStore.one_line_per_key file →
     FileStore.one_line_per_key
       (FileStore.file_write_key_value key value file)) ∧
  (∀ key file,
     FileStore.occurs "=" key = false →
     FileStore.one_line_per_key file →
     FileStore.one_line_per_key (FileStore.file_delete_key key file)).
Proof.
  split; [|split].
  - intros w key _. simpl. lia.
  - intros key value file. apply one_line_write.
  - intros key file. apply one_line_delete.
Qed.

Lemma one_line_per_key_kept_witness :
  FileStore.one_line_per_key
    (FileStore.file_delete_key "j"
       (FileStore.file_write_key_value "k" "v" (FileStore.regular ""))).
Proof.
  destruct one_line_per_key_kept as (H0 & Hw & Hd).
  apply Hd; [by vm_compute|].
  apply Hw; [by vm_compute|by vm_compute|exact (H0 true)].
Defined.

(** X11.  [file_delete_key] on a key that has no line in the file
    returns without rewriting it: the contents stay byte for byte the
    same (a file whose last line lacks the final newline keeps lacking
    it). *)
Theorem delete_absent_key (key : string) (file : FileStore.File) :
  FileStore.lines_of key file = [] →
  FileStore.file_delete_key key file = file.
Proof.
  destruct file as [[content|] w]; [|done].
  unfold FileStore.file_delete_key, FileStore.file_write_or_delete,
    FileStore.lines_of.
  cbn [FileStore.contents]. intros Hnone.
  by rewrite (scan_no_line true key "" _ Hnone).
Qed.

Lemma delete_absent_key_witness :
  FileStore.file_delete_key "x" (FileStore.regular "j=1")
  = FileStore.regular "j=1".
Proof. apply delete_absent_key. by vm_compute. Defined.


Section file_truncation.

Import FileStore.

Lemma getlines_first_line v rest :
  ∃ lines, getlines (v +:+ String newline rest) = first_line v :: lines.
Proof.
  induction v as [|c v [lines IH]].
  - exists (getlines rest). done.
  - rewrite append_cons. cbn [getlines first_line]. case_decide.
    + eauto.
    + rewrite IH. eauto.
Qed.

Lemma first_line_append p v :
  occurs newline p = false → first_line (p +:+ v) = p +:+ first_line v.
Proof.
  induction p as [|c p IH]; [done|].
  simpl. intros [Hc Hp]%orb_false_elim. apply bool_decide_eq_false_1 in Hc.
  rewrite !append_cons. cbn [first_line].
  rewrite decide_False by done. by rewrite IH.
Qed.

Lemma first_line_plain v : occurs newline v = false → first_line v = v.
Proof.
  induction v as [|c v IH]; [done|].
  simpl. intros [Hc Hp]%orb_false_elim. apply bool_decide_eq_false_1 in Hc.
  rewrite decide_False by done. by rewrite IH.
Qed.

(** Reading back a written line: it ends at its first newline. *)
Lemma first_value_written_line key value rest :
  plain_key key →
  first_value key (getlines ((key +:+ "=" +:+ value) +:+ String newline rest))
  = first_line value.
Proof.
  intros [Hk Hkn].
  destruct (getlines_first_line (key +:+ "=" +:+ value) rest) as [lines ->].
  rewrite first_line_append by done.
  change ("=" +:+ value) with (String "=" value). cbn [first_line].
  rewrite decide_False by done.
  by apply (first_value_written key (first_line value)).
Qed.

Lemma scan_write_read key value input :
  plain_key key →
  Forall (λ line, occurs newline line = false) input →
  let '(lines, found) := scan false key value false input in
  first_value key
    (getlines (putlines (if found then lines
                         else lines ++ [key +:+ "=" +:+ value])))
  = first_line value.
Proof.
  intros Hkey. induction input as [|line rest IH]; intros Hfree.
  { simpl. by apply first_value_written_line. }
  apply Forall_cons in Hfree as [Hline Hfree].
  cbn [scan negb andb]. destruct (key_line key line) eqn:Hkl.
  - rewrite scan_found. cbn [putlines].
    by apply first_value_written_line.
  - specialize (IH Hfree).
    destruct (scan false key value false rest) as [lines found].
    assert (∀ l, first_value key (getlines (putlines (line :: l)))
                 = first_value key (getlines (putlines l))) as Hskip.
    { intros l. cbn [putlines]. rewrite (getlines_line _ _ Hline).
      cbn [first_value]. by rewrite Hkl. }
    destruct found.
    + by rewrite Hskip.
    + by rewrite <- app_comm_cons, Hskip.
Qed.

End file_truncation.

(** X12.  Values are stored unescaped: on a file that opens for
    reading and for writing, [file_get_value] after
    [file_write_key_value] returns the written value only up to its first
    newline (key without [=] and newline; any value). *)
Theorem write_truncates_at_newline (key value : string)
    (file : FileStore.File) :
  FileStore.read_write file →
  FileStore.plain_key key →
  FileStore.file_get_value key
    (FileStore.file_write_key_value key value file)
  = FileStore.first_line value.
Proof.
  destruct file as [[content|] w]; intros [[? Hc] Hw] Hkey;
    cbn [FileStore.contents FileStore.writable] in Hc, Hw; [subst w|done].
  unfold FileStore.file_write_key_value, FileStore.file_write_or_delete,
    FileStore.file_get_value.
  cbn [FileStore.contents FileStore.writable negb andb].
  pose proof (scan_write_read key value (FileStore.getlines content) Hkey
                (getlines_newline_free content)) as Hscan.
  destruct (FileStore.scan false key value false (FileStore.getlines content))
    as [lines found].
  by destruct found.
Qed.

Lemma write_truncates_at_newline_witness :
  FileStore.file_get_value "k"
    (FileStore.file_write_key_value "k" (FileStore.putlines ["a"; "j=b"])
       (FileStore.regular "j=1"))
  = "a".
Proof.
  rewrite write_truncates_at_newline;
    [by vm_compute|split; [by eexists|reflexivity]|by vm_compute].
Defined.


(** * What a commit does to the file and to the cache *)

Section file_folds.

Import FileStore.

Lemma file_write_writable key value file :
  writable (file_write_key_value key value file) = writable file.
Proof. apply file_write_or_delete_opens. Qed.

Lemma file_delete_writable key file :
  writable (file_delete_key key file) = writable file.
Proof. apply file_write_or_delete_opens. Qed.

Lemma fold_write_opens (l : list (string * string)) file :
  read_write (foldl (λ f p, file_write_key_value p.1 p.2 f) file l)
  ↔ read_write file.
Proof.
  revert file. induction l as [|p l IH]; intros file; [done|].
  simpl. by rewrite IH, file_write_opens.
Qed.

Lemma fold_delete_opens (l : list string) file :
  read_write (foldl (λ f k, file_delete_key k f) file l) ↔ read_write file.
Proof.
  revert file. induction l as [|p l IH]; intros file; [done|].
  simpl. by rewrite IH, file_delete_opens.
Qed.

Lemma fold_write_writable (l : list (string * string)) file :
  writable (foldl (λ f p, file_write_key_value p.1 p.2 f) file l)
  = writable file.
Proof.
  revert file. induction l as [|p l IH]; intros file; [done|].
  simpl. by rewrite IH, file_write_writable.
Qed.

Lemma fold_delete_writable (l : list string) file :
  writable (foldl (λ f k, file_delete_key k f) file l) = writable file.
Proof.
  revert file. induction l as [|p l IH]; intros file; [done|].
  simpl. by rewrite IH, file_delete_writable.
Qed.

Lemma fold_write_read_only (l : list (string * string)) file :
  writable file = false →
  foldl (λ f p, file_write_key_value p.1 p.2 f) file l = file.
Proof.
  intros Hw. induction l as [|p l IH]; [done|].
  simpl. unfold file_write_key_value at 2. by rewrite file_read_only.
Qed.

Lemma fold_delete_read_only (l : list string) file :
  writable file = false →
  foldl (λ f k, file_delete_key k f) file l = file.
Proof.
  intros Hw. induction l as [|p l IH]; [done|].
  simpl. unfold file_delete_key at 2. by rewrite file_read_only.
Qed.

Lemma fold_write_other (l : list (string * string)) file key :
  Forall (λ p, plain_key p.1 ∧ plain_value p.2) l →
  occurs "=" key = false → key ∉ l.*1 →
  lines_of key (foldl (λ f p, file_write_key_value p.1 p.2 f) file l)
  = lines_of key file.
Proof.
  revert file. induction l as [|p l IH]; intros file Hl Hk Hnotin; [done|].
  apply Forall_cons in Hl as [[[Hp Hpn] Hv] Hl].
  apply not_elem_of_cons in Hnotin as [Hne Hnotin].
  simpl. rewrite IH by done. by apply lines_of_write_other.
Qed.

Lemma fold_write_self (l : list (string * string)) file key value :
  Forall (λ p, plain_key p.1 ∧ plain_value p.2) l →
  NoDup (l.*1) → (key, value) ∈ l → read_write file →
  lines_of key (foldl (λ f p, file_write_key_value p.1 p.2 f) file l)
  = (key +:+ "=" +:+ value) :: tail (lines_of key file).
Proof.
  revert file. induction l as [|p l IH]; intros file Hl Hnd Hin Hfile.
  { by apply elem_of_nil in Hin. }
  pose proof Hl as [[[Hp Hpn] Hv] Hl']%Forall_cons.
  apply NoDup_cons in Hnd as [Hnotin Hnd]. simpl.
  apply elem_of_cons in Hin as [<-|Hin].
  - simpl in *. rewrite fold_write_other by done.
    by apply lines_of_write_self.
  - assert (key ≠ p.1) as Hne.
    { intros ->. apply Hnotin. apply list_elem_of_fmap. by exists (p.1, value). }
    assert (occurs "=" key = false) as Hk.
    { apply (proj1 (Forall_forall _ _) Hl') in Hin. apply Hin. }
    rewrite IH; [|done|done|done|by apply file_write_opens].
    by rewrite lines_of_write_other.
Qed.

Lemma fold_write_one_line (l : list (string * string)) file :
  Forall (λ p, plain_key p.1 ∧ plain_value p.2) l →
  one_line_per_key file →
  one_line_per_key (foldl (λ f p, file_write_key_value p.1 p.2 f) file l).
Proof.
  revert file. induction l as [|p l IH]; intros file Hl Hone; [done|].
  apply Forall_cons in Hl as [[Hp Hv] Hl]. simpl.
  apply IH; [done|]. by apply one_line_write.
Qed.

Lemma fold_delete_other (l : list string) file key :
  Forall (λ k, occurs "=" k = false) l →
  occurs "=" key = false → key ∉ l →
  lines_of key (foldl (λ f k, file_delete_key k f) file l)
  = lines_of key file.
Proof.
  revert file. induction l as [|p l IH]; intros file Hl Hk Hnotin; [done|].
  apply Forall_cons in Hl as [Hp Hl].
  apply not_elem_of_cons in Hnotin as [Hne Hnotin].
  simpl. rewrite IH by done. by apply lines_of_delete_other.
Qed.

Lemma fold_delete_self (l : list string) file key :
  Forall (λ k, occurs "=" k = false) l →
  NoDup l → key ∈ l → writable file = true →
  lines_of key (foldl (λ f k, file_delete_key k f) file l)
  = tail (lines_of key file).
Proof.
  revert file. induction l as [|p l IH]; intros file Hl Hnd Hin Hw.
  { by apply elem_of_nil in Hin. }
  pose proof Hl as [Hp Hl']%Forall_cons.
  apply NoDup_cons in Hnd as [Hnotin Hnd]. simpl.
  apply elem_of_cons in Hin as [->|Hin].
  - rewrite fold_delete_other by done. by apply lines_of_delete_self.
  - assert (key ≠ p) as Hne by (by intros ->).
    assert (occurs "=" key = false) as Hk.
    { by apply (proj1 (Forall_forall _ _) Hl') in Hin. }
    rewrite IH by (done || by rewrite file_delete_writable).
    by rewrite lines_of_delete_other.
Qed.

Lemma fold_delete_one_line (l : list string) file :
  Forall (λ k, occurs "=" k = false) l →
  one_line_per_key file →
  one_line_per_key (foldl (λ f k, file_delete_key k f) file l).
Proof.
  revert file. induction l as [|p l IH]; intros file Hl Hone; [done|].
  apply Forall_cons in Hl as [Hp Hl]. simpl.
  apply IH; [done|]. by apply one_line_delete.
Qed.

End file_folds.

Section cache_folds.

Import Cache.

Lemma fold_put_wf (l : list entry) c :
  wf c → 0 < m_capacity c →
  wf (foldl (λ c p, put p.1 p.2 c) c l)
  ∧ m_capacity (foldl (λ c p, put p.1 p.2 c) c l) = m_capacity c.
Proof.
  revert c. induction l as [|p l IH]; intros c Hwf Hcap; [done|].
  simpl. destruct (IH (put p.1 p.2 c)) as [Hw Hc].
  - by apply put_wf.
  - by rewrite put_capacity.
  - split; [done|]. by rewrite Hc, put_capacity.
Qed.

Lemma fold_put_other (l : list entry) c k v :
  wf c → 0 < m_capacity c → k ∉ l.*1 →
  (k, v) ∈ entries (foldl (λ c p, put p.1 p.2 c) c l) → (k, v) ∈ entries c.
Proof.
  revert c. induction l as [|p l IH]; intros c Hwf Hcap Hnotin; [done|].
  apply not_elem_of_cons in Hnotin as [Hne Hnotin]. simpl. intros Hin.
  apply IH in Hin; [|by apply put_wf|by rewrite put_capacity|done].
  by apply put_entries_other in Hin.
Qed.

(** After a run of [put]s on distinct keys, a key of the run is either
    gone from the cache or has the value it was put with. *)
Lemma fold_put_value (l : list entry) c k v v' :
  wf c → 0 < m_capacity c → NoDup (l.*1) → (k, v) ∈ l →
  (k, v') ∈ entries (foldl (λ c p, put p.1 p.2 c) c l) → v' = v.
Proof.
  revert c. induction l as [|p l IH]; intros c Hwf Hcap Hnd Hin.
  { by apply elem_of_nil in Hin. }
  apply NoDup_cons in Hnd as [Hnotin Hnd]. simpl.
  apply elem_of_cons in Hin as [<-|Hin].
  - simpl in *. intros Hin.
    apply fold_put_other in Hin; [|by apply put_wf|by rewrite put_capacity|done].
    destruct (put_front k v c Hwf Hcap) as (it & rest & Hl & _).
    apply (wf_entry_unique (put k v c) k); [by apply put_wf|done|].
    unfold entries. rewrite Hl. left.
  - apply IH; [by apply put_wf|by rewrite put_capacity|done|done].
Qed.

End cache_folds.


Section db_commit.

Import Db.

Lemma commit_write_file p s :
  m_file (commit_write p s)
  = FileStore.file_write_key_value p.1 p.2 (m_file s).
Proof. unfold commit_write. by destruct (cache_put_frame p.1 (Some p.2)
  (with_file (FileStore.file_write_key_value p.1 p.2 (m_file s)) s)) as [-> _]. Qed.

Lemma commit_delete_file k s :
  m_file (commit_delete k s) = FileStore.file_delete_key k (m_file s).
Proof. unfold commit_delete. by destruct (cache_put_frame k None
  (with_file (FileStore.file_delete_key k (m_file s)) s)) as [-> _]. Qed.

Lemma cache_put_cache k v s :
  m_local_cache (cache_put k v s) = Cache.put k v <$> m_local_cache s.
Proof. unfold cache_put. by destruct (m_local_cache s) eqn:E; simpl; [|rewrite E]. Qed.

Lemma fold_commit_write (l : list (string * string)) s :
  m_file (foldl (λ s p, commit_write p s) s l)
  = foldl (λ f p, FileStore.file_write_key_value p.1 p.2 f) (m_file s) l
  ∧ m_local_cache (foldl (λ s p, commit_write p s) s l)
    = (λ c, foldl (λ c p, Cache.put p.1 p.2 c) c
              ((λ p : string * string, (p.1, Some p.2)) <$> l))
      <$> m_local_cache s.
Proof.
  revert s. induction l as [|p l IH]; intros s.
  { split; [done|]. cbn [foldl]. destruct (m_local_cache s); reflexivity. }
  simpl. destruct (IH (commit_write p s)) as [-> ->].
  rewrite commit_write_file. split; [done|].
  unfold commit_write. rewrite cache_put_cache. simpl.
  destruct (m_local_cache s); reflexivity.
Qed.

Lemma fold_commit_delete (l : list string) s :
  m_file (foldl (λ s k, commit_delete k s) s l)
  = foldl (λ f k, FileStore.file_delete_key k f) (m_file s) l
  ∧ m_local_cache (foldl (λ s k, commit_delete k s) s l)
    = (λ c, foldl (λ c p, Cache.put p.1 p.2 c) c
              ((λ k : string, (k, None)) <$> l))
      <$> m_local_cache s.
Proof.
  revert s. induction l as [|p l IH]; intros s.
  { split; [done|]. cbn [foldl]. destruct (m_local_cache s); reflexivity. }
  simpl. destruct (IH (commit_delete p s)) as [-> ->].
  rewrite commit_delete_file. split; [done|].
  unfold commit_delete. rewrite cache_put_cache. simpl.
  destruct (m_local_cache s); reflexivity.
Qed.

(** The state after the loops of a commit, in whatever order they visit
    the buffer: the file goes through the writes and then the deletes,
    the cache through the corresponding [put]s, and the buffer is
    cleared. *)
Lemma commit_in_order_state ws ds s :
  let s' := commit_in_order ws ds s in
  ts_transaction_active s' = false ∧
  ts_transaction_data s' = ∅ ∧ ts_transaction_deletes s' = ∅ ∧
  m_file s'
  = foldl (λ f k, FileStore.file_delete_key k f)
      (foldl (λ f p, FileStore.file_write_key_value p.1 p.2 f) (m_file s) ws)
      ds ∧
  m_local_cache s'
  = (λ c, foldl (λ c p, Cache.put p.1 p.2 c) c (puts_in_order ws ds))
    <$> m_local_cache s.
Proof.
  cbn zeta. unfold commit_in_order.
  simpl. split; [done|]. split; [done|]. split; [done|].
  destruct (fold_commit_delete ds (foldl (λ s p, commit_write p s) s ws))
    as [-> ->].
  destruct (fold_commit_write ws s) as [-> ->].
  split; [done|]. unfold puts_in_order.
  destruct (m_local_cache s); simpl; [|done]. by rewrite foldl_app.
Qed.

Lemma commit_snd s :
  ts_transaction_active s = true →
  commit_transaction s
  = (true, commit_in_order (map_to_list (ts_transaction_data s))
             (elements (ts_transaction_deletes s)) s).
Proof. intros Ha. unfold commit_transaction. by rewrite Ha. Qed.

(** A commit in an active transaction, in the order the model visits
    the buffer. *)
Lemma commit_active s :
  ts_transaction_active s = true →
  ∃ s', commit_transaction s = (true, s') ∧
    ts_transaction_active s' = false ∧
    ts_transaction_data s' = ∅ ∧ ts_transaction_deletes s' = ∅ ∧
    m_file s'
    = foldl (λ f k, FileStore.file_delete_key k f)
        (foldl (λ f p, FileStore.file_write_key_value p.1 p.2 f) (m_file s)
           (map_to_list (ts_transaction_data s)))
        (elements (ts_transaction_deletes s)) ∧
    m_local_cache s'
    = (λ c, foldl (λ c p, Cache.put p.1 p.2 c) c (commit_puts s))
      <$> m_local_cache s.
Proof.
  intros Ha. rewrite (commit_snd s Ha). eexists. split; [done|].
  apply commit_in_order_state.
Qed.

Lemma iteration_order_default s :
  iteration_order (map_to_list (ts_transaction_data s))
    (elements (ts_transaction_deletes s)) s.
Proof. by split. Qed.

Lemma iteration_order_reverse s :
  iteration_order (reverse (map_to_list (ts_transaction_data s)))
    (reverse (elements (ts_transaction_deletes s))) s.
Proof. split; apply reverse_Permutation. Qed.

(** Whatever the order, each pair of the writes map is visited once,
    and each key of the deletes set. *)
Lemma iteration_order_writes ws ds s :
  iteration_order ws ds s →
  NoDup (ws.*1) ∧ (∀ k v, (k, v) ∈ ws ↔ ts_transaction_data s !! k = Some v).
Proof.
  intros [Hw _]. split.
  - rewrite Hw. apply NoDup_fst_map_to_list.
  - intros k v. rewrite Hw. apply elem_of_map_to_list.
Qed.

Lemma iteration_order_deletes ws ds s :
  iteration_order ws ds s →
  NoDup ds ∧ (∀ k, k ∈ ds ↔ k ∈ ts_transaction_deletes s).
Proof.
  intros [_ Hd]. split.
  - rewrite Hd. apply NoDup_elements.
  - intros k. rewrite Hd. apply elem_of_elements.
Qed.

Lemma iteration_order_plain ws ds s :
  iteration_order ws ds s → plain_buffer s →
  Forall (λ p, FileStore.plain_key p.1 ∧ FileStore.plain_value p.2) ws ∧
  Forall (λ k, FileStore.occurs "=" k = false) ds.
Proof.
  intros Hord [Hpw Hpd].
  destruct (iteration_order_writes ws ds s Hord) as [_ Hw].
  destruct (iteration_order_deletes ws ds s Hord) as [_ Hd].
  split; apply Forall_forall.
  - intros [k v] Hin. apply Hw in Hin. by apply Hpw.
  - intros k Hin. apply Hd in Hin. by apply Hpd.
Qed.

Lemma iteration_order_unstaged ws ds s k :
  iteration_order ws ds s → ts_transaction_data s !! k = None → k ∉ ws.*1.
Proof.
  intros Hord Hk Hin. apply list_elem_of_fmap in Hin as [[k' v] [-> Hin]].
  apply (iteration_order_writes ws ds s Hord) in Hin. simpl in Hk. congruence.
Qed.

(** The lines of a key in the file after a commit, in whatever order
    the loops visit the buffer. *)
Lemma commit_in_order_lines ws ds s k :
  iteration_order ws ds s → plain_buffer s →
  FileStore.read_write (m_file s) →
  FileStore.occurs "=" k = false →
  FileStore.lines_of k (m_file (commit_in_order ws ds s))
  = let written :=
      match ts_transaction_data s !! k with
      | Some v => (k +:+ "=" +:+ v) :: tail (FileStore.lines_of k (m_file s))
      | None => FileStore.lines_of k (m_file s)
      end in
    if decide (k ∈ ts_transaction_deletes s) then tail written else written.
Proof.
  intros Hord Hplain Hfile Hk.
  destruct (commit_in_order_state ws ds s) as (_ & _ & _ & Hf & _).
  rewrite Hf.
  destruct (iteration_order_plain ws ds s Hord Hplain) as [Hpw Hpd].
  destruct (iteration_order_writes ws ds s Hord) as [Hndw Hinw].
  destruct (iteration_order_deletes ws ds s Hord) as [Hndd Hind].
  assert (FileStore.lines_of k
            (foldl (λ f p, FileStore.file_write_key_value p.1 p.2 f)
               (m_file s) ws)
          = match ts_transaction_data s !! k with
            | Some v => (k +:+ "=" +:+ v)
                          :: tail (FileStore.lines_of k (m_file s))
            | None => FileStore.lines_of k (m_file s)
            end) as Hw.
  { destruct (ts_transaction_data s !! k) as [v|] eqn:Hv.
    - apply fold_write_self; [done|done| |done]. by apply Hinw.
    - apply fold_write_other; [done|done|].
      by apply (iteration_order_unstaged ws ds s). }
  case_decide as Hd.
  - rewrite fold_delete_self; [by rewrite Hw|done|done|by apply Hind|].
    rewrite fold_write_writable. apply Hfile.
  - rewrite fold_delete_other; [done|done|done|]. by rewrite Hind.
Qed.

Lemma commit_in_order_one_line ws ds s :
  iteration_order ws ds s → plain_buffer s →
  FileStore.one_line_per_key (m_file s) →
  FileStore.one_line_per_key (m_file (commit_in_order ws ds s)).
Proof.
  intros Hord Hplain Hone.
  destruct (commit_in_order_state ws ds s) as (_ & _ & _ & Hf & _).
  rewrite Hf.
  destruct (iteration_order_plain ws ds s Hord Hplain) as [Hpw Hpd].
  apply fold_delete_one_line; [done|]. by apply fold_write_one_line.
Qed.

Lemma commit_one_line s :
  ts_transaction_active s = true → plain_buffer s →
  FileStore.one_line_per_key (m_file s) →
  FileStore.one_line_per_key (m_file (commit_transaction s).2).
Proof.
  intros Ha Hplain Hone. rewrite (commit_snd s Ha). cbn [snd].
  apply commit_in_order_one_line; [apply iteration_order_default|done|done].
Qed.

(** Whether the file opens is the same before and after a commit. *)
Lemma commit_in_order_opens ws ds s :
  (is_Some (FileStore.contents (m_file (commit_in_order ws ds s)))
   ↔ is_Some (FileStore.contents (m_file s))) ∧
  FileStore.writable (m_file (commit_in_order ws ds s))
  = FileStore.writable (m_file s).
Proof.
  destruct (commit_in_order_state ws ds s) as (_ & _ & _ & Hf & _).
  rewrite Hf. clear Hf. generalize (m_file s). intros file.
  assert (∀ file,
    (is_Some (FileStore.contents
       (foldl (λ f k, FileStore.file_delete_key k f) file ds))
     ↔ is_Some (FileStore.contents file)) ∧
    FileStore.writable (foldl (λ f k, FileStore.file_delete_key k f) file ds)
    = FileStore.writable file) as Hd.
  { clear file. induction ds as [|k ds IH]; intros file; [done|].
    simpl. destruct (IH (FileStore.file_delete_key k file)) as [-> ->].
    apply file_write_or_delete_opens. }
  destruct (Hd (foldl (λ f p, FileStore.file_write_key_value p.1 p.2 f)
                  file ws)) as [-> ->].
  clear Hd. revert file. induction ws as [|p ws IH]; intros file; [done|].
  simpl. destruct (IH (FileStore.file_write_key_value p.1 p.2 file))
    as [-> ->].
  apply file_write_or_delete_opens.
Qed.

Lemma commit_in_order_read_write ws ds s :
  FileStore.read_write (m_file (commit_in_order ws ds s))
  ↔ FileStore.read_write (m_file s).
Proof.
  unfold FileStore.read_write.
  by destruct (commit_in_order_opens ws ds s) as [-> ->].
Qed.

(** A commit on a file that does not open for reading, or not for
    writing, leaves the file as it is. *)
Lemma commit_in_order_not_opening ws ds s :
  ¬ FileStore.read_write (m_file s) →
  m_file (commit_in_order ws ds s) = m_file s.
Proof.
  intros Hno.
  destruct (commit_in_order_state ws ds s) as (_ & _ & _ & Hf & _).
  rewrite Hf. clear Hf. revert Hno. generalize (m_file s). intros file Hno.
  assert (∀ is_delete key value,
            FileStore.file_write_or_delete is_delete key value file = file)
    as Hsame.
  { intros is_delete key value.
    destruct (FileStore.writable file) eqn:Hw; [|by apply file_read_only].
    destruct file as [[content|] w]; [|done].
    destruct Hno. split; [by eexists|done]. }
  assert (foldl (λ f p, FileStore.file_write_key_value p.1 p.2 f) file ws
          = file) as ->.
  { induction ws as [|p ws IH]; [done|]. simpl.
    unfold FileStore.file_write_key_value at 2. by rewrite Hsame. }
  induction ds as [|k ds IH]; [done|]. simpl.
  unfold FileStore.file_delete_key at 2. by rewrite Hsame.
Qed.

(** What the file returns for a key after a commit. *)
Lemma commit_in_order_file_value ws ds s k :
  iteration_order ws ds s → plain_buffer s →
  FileStore.read_write (m_file s) →
  FileStore.one_line_per_key (m_file s) →
  FileStore.occurs "=" k = false →
  FileStore.file_get_value k (m_file (commit_in_order ws ds s))
  = if decide (k ∈ ts_transaction_deletes s) then ""
    else match ts_transaction_data s !! k with
         | Some v => v
         | None => FileStore.file_get_value k (m_file s)
         end.
Proof.
  intros Hord Hplain Hfile Hone Hk.
  rewrite file_get_value_lines, (commit_in_order_lines ws ds s k) by done.
  cbn zeta.
  specialize (Hone k Hk). rewrite (file_get_value_lines k (m_file s)).
  destruct (FileStore.lines_of k (m_file s)) as [|l1 [|l2 ls]];
    simpl in Hone; [| |lia].
  - case_decide.
    + by destruct (ts_transaction_data s !! k).
    + destruct (ts_transaction_data s !! k); [|done].
      by apply first_value_written.
  - case_decide.
    + by destruct (ts_transaction_data s !! k).
    + destruct (ts_transaction_data s !! k); [|done].
      by apply first_value_written.
Qed.

Lemma commit_file_value s k :
  ts_transaction_active s = true → plain_buffer s →
  FileStore.read_write (m_file s) →
  FileStore.one_line_per_key (m_file s) →
  FileStore.occurs "=" k = false →
  FileStore.file_get_value k (m_file (commit_transaction s).2)
  = if decide (k ∈ ts_transaction_deletes s) then ""
    else match ts_transaction_data s !! k with
         | Some v => v
         | None => FileStore.file_get_value k (m_file s)
         end.
Proof.
  intros Ha Hplain Hfile Hone Hk. rewrite (commit_snd s Ha). cbn [snd].
  apply commit_in_order_file_value; [apply iteration_order_default|done..].
Qed.

(** The [put]s of a commit are on distinct keys, and each staged key has
    one. *)
Lemma puts_in_order_keys ws ds s :
  iteration_order ws ds s → buffer_disjoint s →
  NoDup ((puts_in_order ws ds).*1).
Proof.
  intros Hord Hdis.
  destruct (iteration_order_writes ws ds s Hord) as [Hndw Hinw].
  destruct (iteration_order_deletes ws ds s Hord) as [Hndd Hind].
  unfold puts_in_order. rewrite fmap_app, <- !list_fmap_compose.
  assert (∀ l : list (string * string),
            (fst ∘ (λ p : string * string, (p.1, Some p.2))) <$> l = l.*1)
    as ->.
  { induction l as [|x l IH]; [done|]. simpl. by f_equal. }
  assert (∀ l : list string,
            (fst ∘ (λ k : string, (k, @None string))) <$> l = l) as ->.
  { induction l as [|x l IH]; [done|]. simpl. f_equal. exact IH. }
  apply NoDup_app. split; [done|]. split; [|done].
  intros k Hin Hin'.
  apply list_elem_of_fmap in Hin as [[k' v] [-> Hin]].
  apply Hinw in Hin. apply Hind in Hin'. simpl in Hin'.
  apply (Hdis k'); [|done]. apply elem_of_dom. eauto.
Qed.

Lemma puts_in_order_elem ws ds s k :
  iteration_order ws ds s → buffer_disjoint s →
  k ∈ dom (ts_transaction_data s) ∪ ts_transaction_deletes s →
  (k, ts_transaction_data s !! k) ∈ puts_in_order ws ds.
Proof.
  intros Hord Hdis Hin.
  destruct (iteration_order_writes ws ds s Hord) as [Hndw Hinw].
  destruct (iteration_order_deletes ws ds s Hord) as [Hndd Hind].
  unfold puts_in_order. apply elem_of_app.
  apply elem_of_union in Hin as [Hin|Hin].
  - left. apply elem_of_dom in Hin as [v Hv]. rewrite Hv.
    apply list_elem_of_fmap. exists (k, v). split; [done|]. by apply Hinw.
  - right. assert (ts_transaction_data s !! k = None) as ->.
    { apply not_elem_of_dom. intros Hdom. by apply (Hdis k). }
    apply list_elem_of_fmap. exists k. split; [done|]. by apply Hind.
Qed.

Lemma commit_in_order_cache_ok ws ds s :
  cache_ok s → cache_ok (commit_in_order ws ds s).
Proof.
  intros Hok. unfold commit_in_order.
  apply (foldl_cache_ok commit_delete ds).
  { intros k s' H. unfold commit_delete. by apply cache_put_ok. }
  apply (foldl_cache_ok commit_write ws).
  { intros p s' H. unfold commit_write. by apply cache_put_ok. }
  exact Hok.
Qed.

End db_commit.


Section db_more.

Import Db.

Lemma exec_file c s : c ≠ Commit → m_file (exec c s).2 = m_file s.
Proof.
  intros Hc. destruct c as [| | |k|k d|k]; cbn [exec]; simpl.
  - unfold begin_transaction. by destruct (ts_transaction_active s).
  - done.
  - unfold abort_transaction. by destruct (ts_transaction_active s).
  - by destruct (get_key_frame k s) as [-> _].
  - destruct (ts_transaction_active s) eqn:Ha.
    + rewrite (set_key_active k d s Ha). simpl.
      by destruct (get_key_frame k s) as [-> _].
    + unfold set_key. by rewrite Ha.
  - destruct (ts_transaction_active s) eqn:Ha.
    + rewrite (delete_key_active k s Ha). simpl.
      by destruct (get_key_frame k s) as [-> _].
    + unfold delete_key. by rewrite Ha.
Qed.

Lemma trace_file cs s : Commit ∉ cs → m_file (trace cs s).2 = m_file s.
Proof.
  revert s. induction cs as [|c cs IH]; intros s Hc; [done|].
  apply not_elem_of_cons in Hc as [Hne Hc].
  rewrite trace_cons. cbn [snd]. rewrite IH by done. by apply exec_file.
Qed.

Lemma trace_app cs1 cs2 s :
  (trace (cs1 ++ cs2) s).2 = (trace cs2 (trace cs1 s).2).2.
Proof.
  revert s. induction cs1 as [|c cs1 IH]; intros s; [done|].
  rewrite <- app_comm_cons, !trace_cons. cbn [snd]. apply IH.
Qed.

Lemma exec_has_cache c s :
  is_Some (m_local_cache (exec c s).2) ↔ is_Some (m_local_cache s).
Proof.
  destruct c as [| | |k|k d|k]; cbn [exec]; simpl.
  - unfold begin_transaction. by destruct (ts_transaction_active s).
  - destruct (ts_transaction_active s) eqn:Ha.
    + destruct (commit_active s Ha) as (s' & -> & _ & _ & _ & _ & Hc).
      simpl. rewrite Hc. by rewrite fmap_is_Some.
    + unfold commit_transaction. by rewrite Ha.
  - unfold abort_transaction. by destruct (ts_transaction_active s).
  - apply get_key_has_cache.
  - destruct (ts_transaction_active s) eqn:Ha.
    + rewrite (set_key_active k d s Ha). simpl. apply get_key_has_cache.
    + unfold set_key. by rewrite Ha.
  - destruct (ts_transaction_active s) eqn:Ha.
    + rewrite (delete_key_active k s Ha). simpl. apply get_key_has_cache.
    + unfold delete_key. by rewrite Ha.
Qed.

Lemma trace_has_cache cs s :
  is_Some (m_local_cache (trace cs s).2) ↔ is_Some (m_local_cache s).
Proof.
  revert s. induction cs as [|c cs IH]; intros s; [done|].
  rewrite trace_cons. cbn [snd]. by rewrite IH, exec_has_cache.
Qed.

(** The capacity of the cache, if there is one. *)
Lemma get_key_capacity k s :
  Cache.m_capacity <$> m_local_cache (get_key k s).2
  = Cache.m_capacity <$> m_local_cache s.
Proof.
  unfold get_key.
  destruct (ts_transaction_active s); simpl; [|done].
  case_decide; [done|].
  case_decide as Hd.
  { destruct Hd as [v Hv]. by rewrite (subscript_present _ _ _ Hv). }
  destruct (m_local_cache s) as [c|] eqn:Hc; simpl.
  - pose proof (get_capacity k None c) as Hcap.
    destruct (Cache.get k None c) as [[[] tmp] c']; simpl in *.
    + by rewrite Hcap.
    + by rewrite put_capacity, Hcap.
  - unfold cache_put. by rewrite Hc, Hc.
Qed.

Lemma exec_capacity c s :
  Cache.m_capacity <$> m_local_cache (exec c s).2
  = Cache.m_capacity <$> m_local_cache s.
Proof.
  destruct c as [| | |k|k d|k]; cbn [exec]; simpl.
  - unfold begin_transaction. by destruct (ts_transaction_active s).
  - destruct (ts_transaction_active s) eqn:Ha.
    + destruct (commit_active s Ha) as (s' & -> & _ & _ & _ & _ & Hc).
      simpl. rewrite Hc. clear Hc. destruct (m_local_cache s) as [c|]; [|done].
      simpl. f_equal. generalize (commit_puts s). intros l. revert c.
      induction l as [|p l IH]; intros c; [done|].
      simpl. by rewrite IH, put_capacity.
    + unfold commit_transaction. by rewrite Ha.
  - unfold abort_transaction. by destruct (ts_transaction_active s).
  - apply get_key_capacity.
  - destruct (ts_transaction_active s) eqn:Ha.
    + rewrite (set_key_active k d s Ha). simpl. apply get_key_capacity.
    + unfold set_key. by rewrite Ha.
  - destruct (ts_transaction_active s) eqn:Ha.
    + rewrite (delete_key_active k s Ha). simpl. apply get_key_capacity.
    + unfold delete_key. by rewrite Ha.
Qed.

Lemma trace_capacity cs s :
  Cache.m_capacity <$> m_local_cache (trace cs s).2
  = Cache.m_capacity <$> m_local_cache s.
Proof.
  revert s. induction cs as [|c cs IH]; intros s; [done|].
  rewrite trace_cons. cbn [snd]. by rewrite IH, exec_capacity.
Qed.

Lemma exec_idle_empty c s : idle_empty s → idle_empty (exec c s).2.
Proof.
  intros Hs. unfold idle_empty in *.
  destruct c as [| | |k|k d|k]; cbn [exec]; simpl.
  - unfold begin_transaction.
    destruct (ts_transaction_active s) eqn:Ha; simpl; [by rewrite Ha|done].
  - unfold commit_transaction.
    destruct (ts_transaction_active s) eqn:Ha; simpl; [done|by rewrite Ha].
  - unfold abort_transaction.
    destruct (ts_transaction_active s) eqn:Ha; simpl; [done|by rewrite Ha].
  - by destruct (get_key_frame k s) as (_ & -> & -> & ->).
  - destruct (ts_transaction_active s) eqn:Ha.
    + by rewrite (set_key_active k d s Ha).
    + unfold set_key. rewrite Ha. simpl. by rewrite Ha.
  - destruct (ts_transaction_active s) eqn:Ha.
    + by rewrite (delete_key_active k s Ha).
    + unfold delete_key. rewrite Ha. simpl. by rewrite Ha.
Qed.

(** A read that the buffer does not answer returns what the cache or
    the file holds for the key. *)
Lemma get_key_unstaged k s expected :
  cache_ok s →
  ts_transaction_active s = true →
  k ∉ ts_transaction_deletes s →
  ts_transaction_data s !! k = None →
  FileStore.file_get_value k (m_file s) = value_or expected "" →
  (∀ c v, m_local_cache s = Some c → (k, v) ∈ Cache.entries c →
          v = expected) →
  (get_key k s).1 = value_or expected "".
Proof.
  intros Hok Ha Hd Hw Hfile Hcache.
  destruct (m_local_cache s) as [c|] eqn:Hc.
  - destruct (Hok c Hc) as [Hwf _].
    destruct (Cache.m_cache_map c !! k) as [it|] eqn:Hk.
    + destruct (get_hit k None c it Hwf Hk) as (v & Hin & Hget).
      rewrite (get_key_cache_hit k s c v _ Ha Hd Hw Hc Hget). simpl.
      by rewrite (Hcache c v eq_refl Hin).
    + by rewrite (get_key_cache_miss k s c Ha Hd Hw Hc Hk).
  - by rewrite (get_key_no_cache k s Ha Hd Hw Hc).
Qed.

End db_more.


Section db_invariants.

Import Db.

Lemma exec_buffer_disjoint c s :
  buffer_disjoint s → buffer_disjoint (exec c s).2.
Proof.
  intros Hs. unfold buffer_disjoint in *.
  destruct c as [| | |k|k d|k]; cbn [exec]; simpl.
  - unfold begin_transaction.
    destruct (ts_transaction_active s); simpl; [done|].
    rewrite dom_empty_L. apply disjoint_empty_l.
  - unfold commit_transaction.
    destruct (ts_transaction_active s); simpl; [|done].
    rewrite dom_empty_L. apply disjoint_empty_l.
  - unfold abort_transaction.
    destruct (ts_transaction_active s); simpl; [|done].
    rewrite dom_empty_L. apply disjoint_empty_l.
  - by destruct (get_key_frame k s) as (_ & _ & -> & ->).
  - destruct (ts_transaction_active s) eqn:Ha.
    + rewrite (set_key_active _ _ _ Ha). simpl.
      rewrite dom_insert_L. intros x Hx [Hd Hne]%elem_of_difference.
      apply elem_of_union in Hx as [Hx|Hx]; [done|]. by apply (Hs x).
    + unfold set_key. by rewrite Ha.
  - destruct (ts_transaction_active s) eqn:Ha.
    + rewrite (delete_key_active _ _ Ha). simpl.
      rewrite dom_delete_L. intros x [Hx Hne]%elem_of_difference Hd.
      apply elem_of_union in Hd as [Hd|Hd]; [|done]. by apply (Hs x).
    + unfold delete_key. by rewrite Ha.
Qed.

Lemma plain_buffer_empty active s : plain_buffer (with_locals active ∅ ∅ s).
Proof.
  split; simpl.
  - intros k v. by rewrite lookup_empty.
  - intros k Hk. by apply not_elem_of_empty in Hk.
Qed.

Lemma exec_plain_buffer c s :
  plain_call c → plain_buffer s → plain_buffer (exec c s).2.
Proof.
  intros Hc [Hw Hd].
  destruct c as [| | |k|k d|k]; cbn [exec]; simpl.
  - unfold begin_transaction.
    destruct (ts_transaction_active s); simpl; [done|].
    apply plain_buffer_empty.
  - unfold commit_transaction.
    destruct (ts_transaction_active s); simpl; [|done].
    apply plain_buffer_empty.
  - unfold abort_transaction.
    destruct (ts_transaction_active s); simpl; [|done].
    apply plain_buffer_empty.
  - destruct (get_key_frame k s) as (_ & _ & Hd' & Hs').
    split; [rewrite Hd'|rewrite Hs']; done.
  - destruct (ts_transaction_active s) eqn:Ha.
    + rewrite (set_key_active _ _ _ Ha). split; simpl.
      * intros k' v. destruct (decide (k' = k)) as [->|Hne].
        { rewrite lookup_insert_eq. by intros [= <-]. }
        rewrite lookup_insert_ne by done. apply Hw.
      * intros k' [Hk' _]%elem_of_difference. by apply Hd.
    + unfold set_key. by rewrite Ha.
  - destruct (ts_transaction_active s) eqn:Ha.
    + rewrite (delete_key_active _ _ Ha). split; simpl.
      * intros k' v. destruct (decide (k' = k)) as [->|Hne].
        { by rewrite lookup_delete_eq. }
        rewrite lookup_delete_ne by done. apply Hw.
      * intros k' [Hk'|Hk']%elem_of_union; [by apply Hd|].
        by apply elem_of_singleton in Hk' as ->.
    + unfold delete_key. by rewrite Ha.
Qed.

Lemma exec_one_line c s :
  plain_buffer s →
  FileStore.one_line_per_key (m_file s) →
  FileStore.one_line_per_key (m_file (exec c s).2).
Proof.
  intros Hplain Hone.
  assert (c = Commit ∨ c ≠ Commit) as [->|Hc]
    by (destruct c; (by left) || (by right)).
  - cbn [exec]. simpl. destruct (ts_transaction_active s) eqn:Ha.
    + by apply commit_one_line.
    + unfold commit_transaction. by rewrite Ha.
  - by rewrite exec_file.
Qed.

(** What every call keeps, when the calls stage plain keys and values. *)
Lemma trace_invariants cs s :
  Forall plain_call cs →
  plain_buffer s → buffer_disjoint s → cache_ok s →
  FileStore.one_line_per_key (m_file s) →
  let s' := (trace cs s).2 in
  plain_buffer s' ∧ buffer_disjoint s' ∧ cache_ok s' ∧
  FileStore.one_line_per_key (m_file s').
Proof.
  revert s. induction cs as [|c cs IH]; intros s Hcs Hp Hd Hok Hone; [done|].
  apply Forall_cons in Hcs as [Hc Hcs]. cbn zeta.
  rewrite trace_cons. cbn [snd]. apply IH; [done| | | |].
  - by apply exec_plain_buffer.
  - by apply exec_buffer_disjoint.
  - by apply exec_cache_ok.
  - by apply exec_one_line.
Qed.

Lemma new_invariants file cache_size :
  plain_buffer (new file cache_size) ∧ buffer_disjoint (new file cache_size)
  ∧ cache_ok (new file cache_size).
Proof.
  split; [|split].
  - split; simpl.
    + intros k v. by rewrite lookup_empty.
    + intros k Hk. by apply not_elem_of_empty in Hk.
  - unfold buffer_disjoint. simpl. rewrite dom_empty_L. apply disjoint_empty_l.
  - apply new_cache_ok.
Qed.

Lemma empty_file_one_line : FileStore.one_line_per_key (FileStore.regular "").
Proof. intros key _. simpl. lia. Qed.

End db_invariants.


Section db_commit_read.

Import Db.

Lemma commit_cache s :
  ts_transaction_active s = true →
  m_local_cache (commit_transaction s).2
  = (λ c, foldl (λ c p, Cache.put p.1 p.2 c) c (commit_puts s))
    <$> m_local_cache s.
Proof.
  intros Ha. destruct (commit_active s Ha) as (s' & Hc & _ & _ & _ & _ & Hm).
  by rewrite Hc.
Qed.

Lemma commit_cache_ok s :
  ts_transaction_active s = true → cache_ok s →
  cache_ok (commit_transaction s).2.
Proof. intros _ Hok. apply (exec_cache_ok Commit s Hok). Qed.

Lemma commit_result s :
  ts_transaction_active s = true → (commit_transaction s).1 = true.
Proof. intros Ha. unfold commit_transaction. by rewrite Ha. Qed.

(** The first read of a key by a caller that begins a transaction on
    the database [s1]. *)
Lemma begin_then_get k s1 other :
  ts_transaction_active other = false →
  (trace [Begin; GetKey k] (on_thread other s1)).1
  = [RBool true;
     RString (get_key k (with_locals true ∅ ∅ (on_thread other s1))).1].
Proof.
  intros Hother. rewrite !trace_cons. cbn [exec].
  by rewrite (begin_inactive (on_thread other s1) Hother).
Qed.

End db_commit_read.

Section db_examples.

Import Db.

(** A caller in the middle of its second transaction, on a cache of
    capacity 1: the first transaction committed [k=v]; the second has
    staged two writes and the deletion of [k]. *)
Lemma example_state_ok :
  let s := (trace [Begin; SetKey "k" "v"; Commit;
                   Begin; SetKey "a" "1"; SetKey "b" "2"; DeleteKey "k"]
              (new (FileStore.regular "") 1)).2 in
  plain_buffer s ∧ buffer_disjoint s ∧ cache_ok s ∧
  FileStore.one_line_per_key (m_file s).
Proof.
  destruct (new_invariants (FileStore.regular "") 1) as (Hp & Hd & Hok).
  apply trace_invariants; [|done|done|done|apply empty_file_one_line].
  repeat constructor; by vm_compute.
Qed.

End db_examples.

(** ** Commits *)

(** X13.  [commit_transaction] in an active transaction returns [true],
    and in whatever order its loops visit the buffer it leaves the file
    such that [file_get_value] returns, for every key without [=]: the
    empty string if the key was staged for deletion, the staged value if
    it was staged for writing, and what it returned before otherwise.
    This holds for a file that opens for reading and for writing and has
    at most one line per key (both of which the commit preserves), and a
    buffer whose keys have no [=] or newline and whose values have no
    newline. *)
Theorem commit_applies_buffer_to_file (s : Db.t) (k : string)
    (writes : list (string * string)) (deletes : list string) :
  Db.ts_transaction_active s = true →
  Db.plain_buffer s →
  FileStore.read_write (Db.m_file s) →
  FileStore.one_line_per_key (Db.m_file s) →
  FileStore.occurs "=" k = false →
  Db.iteration_order writes deletes s →
  let s' := Db.commit_in_order writes deletes s in
  (Db.commit_transaction s).1 = true ∧
  FileStore.file_get_value k (Db.m_file s')
  = (if decide (k ∈ Db.ts_transaction_deletes s) then ""
     else match Db.ts_transaction_data s !! k with
          | Some v => v
          | None => FileStore.file_get_value k (Db.m_file s)
          end) ∧
  FileStore.read_write (Db.m_file s') ∧
  FileStore.one_line_per_key (Db.m_file s').
Proof.
  intros Ha Hplain Hfile Hone Hk Hord s'. unfold s'.
  split; [by apply commit_result|].
  split; [by apply commit_in_order_file_value|].
  split; [by apply commit_in_order_read_write
         |by apply commit_in_order_one_line].
Qed.

Lemma commit_applies_buffer_to_file_witness :
  let s := (Db.trace [Db.Begin; Db.SetKey "k" "v"; Db.Commit; Db.Begin;
                      Db.SetKey "a" "1"; Db.SetKey "b" "2"; Db.DeleteKey "k"]
              (Db.new (FileStore.regular "") 1)).2 in
  FileStore.file_get_value "b" (Db.m_file (Db.commit_transaction s).2) = "2" ∧
  FileStore.file_get_value "k"
    (Db.m_file
       (Db.commit_in_order (reverse (map_to_list (Db.ts_transaction_data s)))
          (reverse (elements (Db.ts_transaction_deletes s))) s)) = "".
Proof.
  intros s. destruct example_state_ok as (Hp & Hd & Hok & Hone).
  fold s in Hp, Hd, Hok, Hone.
  assert (Db.ts_transaction_active s = true) as Ha by (by vm_compute).
  assert (FileStore.read_write (Db.m_file s)) as Hfile
    by (split; [by eexists; vm_compute|by vm_compute]).
  split.
  - rewrite (commit_snd s Ha). cbn [snd].
    rewrite (proj1 (proj2 (commit_applies_buffer_to_file s "b" _ _ Ha Hp Hfile
                             Hone eq_refl (iteration_order_default s)))).
    by vm_compute.
  - rewrite (proj1 (proj2 (commit_applies_buffer_to_file s "k" _ _ Ha Hp Hfile
                             Hone eq_refl (iteration_order_reverse s)))).
    by vm_compute.
Defined.

(** X14.  After a commit, in whatever order its loops visited the
    buffer, the first read of a key of the committed buffer, by any
    caller that begins a transaction, returns the value written for it,
    or the empty string if the key was deleted, with or without a cache,
    whatever the capacity of the cache and the number of keys in the
    buffer.  (Same conditions on file and buffer as for X13.) *)
Theorem commit_visible_to_next_read (s other : Db.t) (k : string)
    (writes : list (string * string)) (deletes : list string) :
  Db.ts_transaction_active other = false →
  Db.cache_ok s →
  Db.buffer_disjoint s →
  Db.plain_buffer s →
  FileStore.read_write (Db.m_file s) →
  FileStore.one_line_per_key (Db.m_file s) →
  k ∈ dom (Db.ts_transaction_data s) ∪ Db.ts_transaction_deletes s →
  Db.iteration_order writes deletes s →
  (Db.trace [Db.Begin; Db.GetKey k]
     (Db.on_thread other (Db.commit_in_order writes deletes s))).1
  = [Db.RBool true;
     Db.RString (Db.value_or (Db.ts_transaction_data s !! k) "")].
Proof.
  intros Hother Hok Hdis Hplain Hfile Hone Hin Hord.
  rewrite (begin_then_get k _ other Hother). do 3 f_equal.
  assert (FileStore.occurs "=" k = false) as Hk.
  { apply elem_of_union in Hin as [Hin|Hin].
    - apply elem_of_dom in Hin as [v Hv].
      by apply (proj1 Hplain) in Hv as [[? _] _].
    - by apply (proj2 Hplain). }
  destruct (commit_in_order_state writes deletes s)
    as (_ & _ & _ & _ & Hcache).
  apply get_key_unstaged.
  - intros c Hc. by apply (commit_in_order_cache_ok writes deletes s Hok).
  - done.
  - apply not_elem_of_empty.
  - done.
  - cbn [Db.m_file Db.with_locals Db.on_thread].
    rewrite (commit_in_order_file_value writes deletes s k) by done.
    case_decide as Hd.
    + assert (Db.ts_transaction_data s !! k = None) as ->; [|done].
      apply not_elem_of_dom. intros Hdom. by apply (Hdis k).
    + apply elem_of_union in Hin as [Hin|Hin]; [|done].
      by apply elem_of_dom in Hin as [v ->].
  - intros c v. cbn [Db.m_local_cache Db.with_locals Db.on_thread].
    rewrite Hcache.
    destruct (Db.m_local_cache s) as [c0|] eqn:Hc0; [|done].
    simpl. intros [= <-] Hv. destruct (Hok c0 Hc0) as [Hwf Hcap].
    apply (fold_put_value (Db.puts_in_order writes deletes) c0 k); try done.
    + by apply (puts_in_order_keys writes deletes s).
    + by apply (puts_in_order_elem writes deletes s).
Qed.

Lemma commit_visible_to_next_read_witness :
  let s := (Db.trace [Db.Begin; Db.SetKey "k" "v"; Db.Commit; Db.Begin;
                      Db.SetKey "a" "1"; Db.SetKey "b" "2"; Db.DeleteKey "k"]
              (Db.new (FileStore.regular "") 1)).2 in
  (Db.trace [Db.Begin; Db.GetKey "a"]
     (Db.on_thread (Db.new FileStore.missing 0)
        (Db.commit_in_order (reverse (map_to_list (Db.ts_transaction_data s)))
           (reverse (elements (Db.ts_transaction_deletes s))) s))).1
  = [Db.RBool true; Db.RString "1"].
Proof.
  intros s. destruct example_state_ok as (Hp & Hd & Hok & Hone).
  fold s in Hp, Hd, Hok, Hone.
  assert (FileStore.read_write (Db.m_file s)) as Hfile
    by (split; [by eexists; vm_compute|by vm_compute]).
  rewrite (commit_visible_to_next_read s (Db.new FileStore.missing 0) "a"
             _ _ eq_refl Hok Hd Hp Hfile Hone).
  - by vm_compute.
  - apply elem_of_union. left. apply elem_of_dom. by eexists; vm_compute.
  - apply iteration_order_reverse.
Defined.

(** X15.  On a database without a cache, and in whatever order the
    loops of the commit visited the buffer, the first read of any key
    without [=] by a caller that begins a transaction after a commit
    returns what [get_key] returned to the committing caller just before
    the commit.  (Same conditions on file and buffer as for X13.) *)
Theorem commit_keeps_view_without_cache (s other : Db.t) (k : string)
    (writes : list (string * string)) (deletes : list string) :
  Db.ts_transaction_active s = true →
  Db.ts_transaction_active other = false →
  Db.m_local_cache s = None →
  Db.plain_buffer s →
  FileStore.read_write (Db.m_file s) →
  FileStore.one_line_per_key (Db.m_file s) →
  FileStore.occurs "=" k = false →
  Db.iteration_order writes deletes s →
  (Db.trace [Db.Begin; Db.GetKey k]
     (Db.on_thread other (Db.commit_in_order writes deletes s))).1
  = [Db.RBool true; Db.RString (Db.get_key k s).1].
Proof.
  intros Ha Hother Hnone Hplain Hfile Hone Hk Hord.
  rewrite (begin_then_get k _ other Hother). do 3 f_equal.
  destruct (commit_in_order_state writes deletes s)
    as (_ & _ & _ & _ & Hcache).
  rewrite get_key_no_cache; [|done|apply not_elem_of_empty|done|].
  2:{ cbn [Db.m_local_cache Db.with_locals Db.on_thread].
      rewrite Hcache. by rewrite Hnone. }
  cbn [Db.m_file Db.with_locals Db.on_thread fst].
  rewrite (commit_in_order_file_value writes deletes s k) by done.
  unfold Db.get_key. rewrite Ha. simpl. case_decide as Hd; [done|].
  destruct (Db.ts_transaction_data s !! k) as [v|] eqn:Hv.
  - rewrite decide_True by eauto. by rewrite (subscript_present _ _ _ Hv).
  - rewrite decide_False by (by intros [? ?]).
    rewrite Hnone. done.
Qed.

Lemma commit_keeps_view_without_cache_witness :
  let s := (Db.trace [Db.Begin; Db.SetKey "k" "v"; Db.Commit; Db.Begin;
                      Db.SetKey "a" "1"; Db.DeleteKey "k"]
              (Db.new (FileStore.regular "") 0)).2 in
  (Db.trace [Db.Begin; Db.GetKey "k"]
     (Db.on_thread (Db.new FileStore.missing 0)
        (Db.commit_in_order (reverse (map_to_list (Db.ts_transaction_data s)))
           (reverse (elements (Db.ts_transaction_deletes s))) s))).1
  = [Db.RBool true; Db.RString (Db.get_key "k" s).1].
Proof.
  intros s.
  destruct (new_invariants (FileStore.regular "") 0) as (Hp0 & Hd0 & Hok0).
  destruct (trace_invariants
              [Db.Begin; Db.SetKey "k" "v"; Db.Commit; Db.Begin;
               Db.SetKey "a" "1"; Db.DeleteKey "k"]
              (Db.new (FileStore.regular "") 0))
    as (Hp & _ & _ & Hone);
    [repeat constructor; by vm_compute|done|done|done
    |apply empty_file_one_line|].
  fold s in Hp, Hone.
  apply commit_keeps_view_without_cache; try done.
Defined.

(** ** Transactions *)

(** X16.  Among the six calls only [commit_transaction] writes to the
    file: after any sequence of the other calls, successful or not, the
    file is as it was. *)
Theorem only_commit_writes_file (cs : list Db.call) (s : Db.t) :
  Db.Commit ∉ cs → Db.m_file (Db.trace cs s).2 = Db.m_file s.
Proof. apply trace_file. Qed.

Lemma only_commit_writes_file_witness :
  let cs := [Db.Begin; Db.SetKey "k" "w"; Db.DeleteKey "j"; Db.GetKey "k";
             Db.Abort] in
  Db.m_file (Db.trace cs (Db.new (FileStore.regular "k=v") 2)).2
  = FileStore.regular "k=v".
Proof.
  intros cs. rewrite only_commit_writes_file; [done|].
  intros Hin. apply list_elem_of_In in Hin. simpl in Hin.
  repeat destruct Hin as [Hin|Hin]; try discriminate Hin. done.
Defined.

(** X17.  In an active transaction, [get_key(k)] right after
    [delete_key(k)] returns the empty string and changes nothing,
    whatever the cache and the file hold for [k]. *)
Theorem read_your_own_deletes (k : string) (s : Db.t) :
  Db.ts_transaction_active s = true →
  let s1 := (Db.delete_key k s).2 in
  Db.ts_transaction_active s1 = true ∧ Db.get_key k s1 = ("", s1).
Proof.
  intros Ha s1. unfold s1. rewrite (delete_key_active _ _ Ha). simpl.
  split; [done|]. unfold Db.get_key. simpl.
  rewrite decide_True; [done|]. apply elem_of_union. right.
  by apply elem_of_singleton.
Qed.

Lemma read_your_own_deletes_witness :
  let s := (Db.begin_transaction (Db.new (FileStore.regular "k=v") 2)).2 in
  (Db.get_key "k" (Db.delete_key "k" s).2).1 = "".
Proof.
  intros s.
  exact (f_equal fst (proj2 (read_your_own_deletes "k" s eq_refl))).
Defined.

(** X18.  On a thread that starts with no transaction, whenever no
    transaction is active the buffer is empty: nothing staged survives a
    commit or an abort, and nothing can be staged outside a
    transaction. *)
Theorem buffer_empty_outside_transaction (file : FileStore.File)
    (cache_size : Z) (cs : list Db.call) :
  let s := (Db.trace cs (Db.new file cache_size)).2 in
  Db.ts_transaction_active s = false →
  Db.ts_transaction_data s = ∅ ∧ Db.ts_transaction_deletes s = ∅.
Proof.
  cbn zeta. assert (Db.idle_empty (Db.new file cache_size)) as H0 by done.
  revert H0. generalize (Db.new file cache_size).
  induction cs as [|c cs IH]; intros s Hs; [done|].
  rewrite trace_cons. cbn [snd]. by apply IH, exec_idle_empty.
Qed.

Lemma buffer_empty_outside_transaction_witness :
  let s := (Db.trace [Db.SetKey "a" "1"; Db.Begin; Db.SetKey "k" "w";
                      Db.DeleteKey "j"; Db.Abort; Db.DeleteKey "b"]
              (Db.new (FileStore.regular "k=v") 2)).2 in
  Db.ts_transaction_data s = ∅ ∧ Db.ts_transaction_deletes s = ∅.
Proof.
  intros s.
  apply (buffer_empty_outside_transaction (FileStore.regular "k=v") 2
           [Db.SetKey "a" "1"; Db.Begin; Db.SetKey "k" "w";
            Db.DeleteKey "j"; Db.Abort; Db.DeleteKey "b"]).
  by vm_compute.
Defined.

(** X19.  Whether the database has a cache is decided by the
    constructor and never changes: with [cache_size <= 0] no call ever
    creates one; with [cache_size > 0] there is always one, well formed,
    of capacity [cache_size], holding at most [cache_size] pairs. *)
Theorem cache_fixed_at_construction (file : FileStore.File)
    (cache_size : Z) (cs : list Db.call) :
  let s := (Db.trace cs (Db.new file cache_size)).2 in
  ((cache_size ≤ 0)%Z → Db.m_local_cache s = None) ∧
  ((0 < cache_size)%Z →
   ∃ c, Db.m_local_cache s = Some c ∧ Cache.wf c ∧
        Cache.m_capacity c = Z.to_nat cache_size ∧
        length (Cache.entries c) ≤ Z.to_nat cache_size).
Proof.
  cbn zeta.
  pose proof (trace_has_cache cs (Db.new file cache_size)) as Hhas.
  pose proof (trace_capacity cs (Db.new file cache_size)) as Hcap.
  pose proof (trace_cache_ok cs _ (new_cache_ok file cache_size)) as Hok.
  assert (Db.m_local_cache (Db.new file cache_size)
          = if decide (0 < cache_size)%Z
            then Some (Cache.new (Z.to_nat cache_size)) else None) as Hnew
    by done.
  rewrite Hnew in Hhas, Hcap. split; intros Hsize.
  - rewrite decide_False in Hhas by lia.
    destruct (Db.m_local_cache _); [|done].
    by destruct (proj1 Hhas ltac:(eauto)).
  - rewrite decide_True in Hhas, Hcap by done.
    destruct (proj2 Hhas ltac:(eauto)) as [c Hc].
    rewrite Hc in Hcap. simpl in Hcap. injection Hcap as Hcap.
    destruct (Hok c Hc) as [Hwf _]. exists c.
    split; [done|]. split; [done|]. split; [done|].
    unfold Cache.entries. rewrite length_fmap, <- Hcap. apply Hwf.
Qed.

Lemma cache_fixed_at_construction_witness :
  let s := (Db.trace [Db.Begin; Db.GetKey "a"; Db.GetKey "b"; Db.GetKey "c"]
              (Db.new (FileStore.regular "") 2)).2 in
  ∃ c, Db.m_local_cache s = Some c ∧ length (Cache.entries c) ≤ 2.
Proof.
  intros s.
  destruct (proj2 (cache_fixed_at_construction (FileStore.regular "") 2
                     [Db.Begin; Db.GetKey "a"; Db.GetKey "b"; Db.GetKey "c"]))
    as (c & Hc & _ & _ & Hlen); [lia|].
  exists c. split; [exact Hc|exact Hlen].
Defined.

(** X20.  When the file cannot be opened, [commit_transaction] still
    returns [true], but nothing is stored: the file stays unopenable, and
    on a database without a cache every read that follows returns the
    empty string, also for the keys just committed. *)
Theorem commit_on_unopenable_file (s other : Db.t) (k : string) :
  Db.ts_transaction_active s = true →
  FileStore.contents (Db.m_file s) = None →
  let r := Db.commit_transaction s in
  r.1 = true ∧ Db.m_file r.2 = Db.m_file s ∧
  (Db.m_local_cache s = None →
   Db.ts_transaction_active other = false →
   (Db.trace [Db.Begin; Db.GetKey k] (Db.on_thread other r.2)).1
   = [Db.RBool true; Db.RString ""]).
Proof.
  intros Ha Hfile r. unfold r. split; [by apply commit_result|].
  assert (Db.m_file (Db.commit_transaction s).2 = Db.m_file s) as Hnone.
  { rewrite (commit_snd s Ha). cbn [snd]. apply commit_in_order_not_opening.
    intros [[? Hc] _]. congruence. }
  split; [done|]. intros Hc Hother.
  rewrite (begin_then_get k _ other Hother). do 3 f_equal.
  rewrite get_key_no_cache; [|done|apply not_elem_of_empty|done|].
  - simpl. rewrite Hnone. unfold FileStore.file_get_value. by rewrite Hfile.
  - simpl. rewrite (commit_cache s Ha). by rewrite Hc.
Qed.

Lemma commit_on_unopenable_file_witness :
  let s := (Db.trace [Db.Begin; Db.SetKey "k" "v"]
              (Db.new FileStore.missing 0)).2 in
  (Db.commit_transaction s).1 = true ∧
  (Db.trace [Db.Begin; Db.GetKey "k"]
     (Db.on_thread (Db.new FileStore.missing 0) (Db.commit_transaction s).2)).1
  = [Db.RBool true; Db.RString ""].
Proof.
  intros s.
  destruct (commit_on_unopenable_file s (Db.new FileStore.missing 0) "k"
              eq_refl eq_refl) as (H1 & _ & H3).
  split; [exact H1|]. exact (H3 eq_refl eq_refl).
Defined.

(** X21.  On a database without a cache, a transaction that ends in
    [abort_transaction] leaves no trace: whatever it read, wrote and
    deleted, the first read of any key by a caller that begins a
    transaction afterwards returns what the file held before. *)
Theorem abort_discards (cs : list Db.call) (s other : Db.t) (k : string) :
  Db.Commit ∉ cs →
  Db.m_local_cache s = None →
  Db.ts_transaction_active other = false →
  (Db.trace [Db.Begin; Db.GetKey k]
     (Db.on_thread other (Db.trace (cs ++ [Db.Abort]) s).2)).1
  = [Db.RBool true; Db.RString (FileStore.file_get_value k (Db.m_file s))].
Proof.
  intros Hcs Hc Hother.
  rewrite (begin_then_get k _ other Hother). do 3 f_equal.
  rewrite get_key_no_cache; [|done|apply not_elem_of_empty|done|].
  - simpl. rewrite trace_file; [done|].
    intros [Hin|Hin]%elem_of_app; [done|].
    by apply list_elem_of_singleton in Hin.
  - simpl. destruct (Db.m_local_cache (Db.trace _ s).2) eqn:E; [|done].
    assert (is_Some (Db.m_local_cache s)) as [? ?]; [|congruence].
    apply (trace_has_cache (cs ++ [Db.Abort]) s). rewrite E. eauto.
Qed.

Lemma abort_discards_witness :
  let s := Db.new (FileStore.regular "k=v") 0 in
  (Db.trace [Db.Begin; Db.GetKey "k"]
     (Db.on_thread s
        (Db.trace ([Db.Begin; Db.SetKey "k" "w"; Db.DeleteKey "j"]
                   ++ [Db.Abort]) s).2)).1
  = [Db.RBool true; Db.RString "v"].
Proof.
  intros s.
  rewrite (abort_discards [Db.Begin; Db.SetKey "k" "w"; Db.DeleteKey "j"]
             s s "k"); [by vm_compute| |done|done].
  intros Hin. apply list_elem_of_In in Hin. simpl in Hin.
  repeat destruct Hin as [Hin|Hin]; try discriminate Hin. done.
Defined.

(** X22.  A database built on a file with at most one line per key
    keeps it so under every sequence of calls whose staged keys have no
    [=] or newline and whose staged values have no newline. *)
Theorem file_stays_one_line_per_key (file : FileStore.File)
    (cache_size : Z) (cs : list Db.call) :
  Forall Db.plain_call cs →
  FileStore.one_line_per_key file →
  FileStore.one_line_per_key
    (Db.m_file (Db.trace cs (Db.new file cache_size)).2).
Proof.
  intros Hcs Hone.
  destruct (new_invariants file cache_size) as (Hp & Hd & Hok).
  by apply trace_invariants.
Qed.

Lemma file_stays_one_line_per_key_witness :
  FileStore.one_line_per_key
    (Db.m_file (Db.trace [Db.Begin; Db.SetKey "k" "v"; Db.SetKey "j" "w";
                          Db.Commit; Db.Begin; Db.DeleteKey "k"; Db.Commit]
                  (Db.new (FileStore.regular "") 1)).2).
Proof.
  apply file_stays_one_line_per_key; [|apply empty_file_one_line].
  repeat constructor; by vm_compute.
Defined.


(** * What the calls write to [std::cerr] *)

Section db_cerr.

Import Db.

Lemma file_cerr_opens is_delete key value file :
  FileStore.read_write file →
  FileStore.file_write_or_delete_cerr is_delete key value file = [].
Proof.
  destruct file as [[content|] w]; intros [[? Hc] Hw];
    cbn [FileStore.contents FileStore.writable] in Hc, Hw; [subst w|done].
  unfold FileStore.file_write_or_delete_cerr.
  cbn [FileStore.contents FileStore.writable negb].
  destruct (FileStore.scan is_delete key value false
              (FileStore.getlines content)) as [lines found].
  by destruct (negb found && is_delete).
Qed.

Lemma file_cerr_unreadable is_delete key value file :
  FileStore.contents file = None →
  FileStore.file_write_or_delete_cerr is_delete key value file
  = [FileStore.read_error] ∧
  FileStore.file_write_or_delete is_delete key value file = file.
Proof.
  intros Hc.
  unfold FileStore.file_write_or_delete_cerr, FileStore.file_write_or_delete.
  by rewrite Hc.
Qed.

Lemma get_key_cerr_staged k v s :
  ts_transaction_active s = true →
  k ∉ ts_transaction_deletes s →
  ts_transaction_data s !! k = Some v →
  get_key_cerr k s = [].
Proof.
  intros Ha Hd Hv. unfold get_key_cerr. rewrite Ha. simpl.
  rewrite decide_False by done.
  by rewrite decide_True by (by rewrite Hv).
Qed.

Lemma get_key_cerr_opens k s :
  is_Some (FileStore.contents (m_file s)) → get_key_cerr k s = [].
Proof.
  intros [content Hc]. unfold get_key_cerr, FileStore.file_get_value_cerr.
  rewrite Hc. destruct (ts_transaction_active s); simpl; [|done].
  case_decide; [done|]. case_decide; [done|].
  destruct (m_local_cache s) as [c|]; [|done].
  by destruct (Cache.get k None c) as [[[] tmp] c'].
Qed.

Lemma get_key_cerr_no_cache k s :
  ts_transaction_active s = true →
  k ∉ ts_transaction_deletes s →
  ts_transaction_data s !! k = None →
  m_local_cache s = None →
  get_key_cerr k s = FileStore.file_get_value_cerr k (m_file s).
Proof.
  intros Ha Hd Hw Hc. unfold get_key_cerr. rewrite Ha. simpl.
  rewrite decide_False by done.
  rewrite decide_False by (rewrite Hw; by intros [? ?]).
  by rewrite Hc.
Qed.

Lemma commit_writes_cerr_opens ws s :
  FileStore.read_write (m_file s) → commit_writes_cerr ws s = [].
Proof.
  revert s. induction ws as [|p ws IH]; intros s Hfile; [done|].
  cbn [commit_writes_cerr]. rewrite file_cerr_opens by done.
  rewrite IH; [done|]. rewrite commit_write_file.
  by apply file_write_opens.
Qed.

Lemma commit_deletes_cerr_opens ds s :
  FileStore.read_write (m_file s) → commit_deletes_cerr ds s = [].
Proof.
  revert s. induction ds as [|k ds IH]; intros s Hfile; [done|].
  cbn [commit_deletes_cerr]. rewrite file_cerr_opens by done.
  rewrite IH; [done|]. rewrite commit_delete_file.
  by apply file_delete_opens.
Qed.

(** On a file that opens for reading and for writing a commit writes
    nothing to [std::cerr]. *)
Lemma commit_in_order_cerr_opens ws ds s :
  FileStore.read_write (m_file s) → commit_in_order_cerr ws ds s = [].
Proof.
  intros Hfile. unfold commit_in_order_cerr.
  rewrite commit_writes_cerr_opens by done.
  rewrite commit_deletes_cerr_opens; [done|].
  destruct (fold_commit_write ws s) as [-> _]. by apply fold_write_opens.
Qed.

Lemma commit_writes_cerr_unreadable ws s :
  FileStore.contents (m_file s) = None →
  commit_writes_cerr ws s = replicate (length ws) FileStore.read_error ∧
  m_file (foldl (λ s p, commit_write p s) s ws) = m_file s.
Proof.
  revert s. induction ws as [|p ws IH]; intros s Hfile; [done|].
  cbn [commit_writes_cerr foldl length replicate].
  destruct (file_cerr_unreadable false p.1 p.2 (m_file s) Hfile) as [-> Hsame].
  assert (m_file (commit_write p s) = m_file s) as Hf.
  { rewrite commit_write_file. exact Hsame. }
  destruct (IH (commit_write p s)) as [-> ->]; [by rewrite Hf|].
  by rewrite Hf.
Qed.

Lemma commit_deletes_cerr_unreadable ds s :
  FileStore.contents (m_file s) = None →
  commit_deletes_cerr ds s = replicate (length ds) FileStore.read_error.
Proof.
  revert s. induction ds as [|k ds IH]; intros s Hfile; [done|].
  cbn [commit_deletes_cerr length replicate].
  destruct (file_cerr_unreadable true k "" (m_file s) Hfile) as [-> Hsame].
  rewrite IH; [done|]. rewrite commit_delete_file.
  unfold FileStore.file_delete_key. by rewrite Hsame.
Qed.

(** On a file that does not open for reading a commit writes one
    message per staged write and per staged deletion. *)
Lemma commit_in_order_cerr_unreadable ws ds s :
  FileStore.contents (m_file s) = None →
  commit_in_order_cerr ws ds s
  = replicate (length ws + length ds) FileStore.read_error.
Proof.
  intros Hfile. unfold commit_in_order_cerr.
  destruct (commit_writes_cerr_unreadable ws s Hfile) as [-> Hf].
  rewrite commit_deletes_cerr_unreadable by (by rewrite Hf).
  by rewrite replicate_add.
Qed.

Lemma commit_writes_cerr_read_only ws s :
  is_Some (FileStore.contents (m_file s)) →
  FileStore.writable (m_file s) = false →
  commit_writes_cerr ws s = replicate (length ws) FileStore.write_error.
Proof.
  revert s. induction ws as [|p ws IH]; intros s Hopen Hw; [done|].
  cbn [commit_writes_cerr length replicate].
  assert (m_file (commit_write p s) = m_file s) as Hf.
  { rewrite commit_write_file. unfold FileStore.file_write_key_value.
    by apply file_read_only. }
  rewrite IH by (by rewrite Hf). destruct Hopen as [content Hc].
  unfold FileStore.file_write_or_delete_cerr. rewrite Hc, Hw.
  by destruct (FileStore.scan false p.1 p.2 false
                 (FileStore.getlines content)) as [lines []].
Qed.

End db_cerr.

(** X24.  When the file opens for reading but not for writing,
    [commit_transaction] in an active transaction still returns [true],
    but in whatever order its loops visit the buffer the file is left as
    it is: on a database without a cache the first read of any key by a
    caller that begins a transaction afterwards returns what the file
    held before, so that a committed write or deletion is lost.  Each
    staged write makes [file_write_or_delete] report the failure on
    [std::cerr]. *)
Theorem commit_on_read_only_file (s other : Db.t) (k : string)
    (writes : list (string * string)) (deletes : list string) :
  Db.ts_transaction_active s = true →
  FileStore.writable (Db.m_file s) = false →
  let s' := Db.commit_in_order writes deletes s in
  (Db.commit_transaction s).1 = true ∧
  Db.m_file s' = Db.m_file s ∧
  (is_Some (FileStore.contents (Db.m_file s)) →
   Db.commit_writes_cerr writes s
   = replicate (length writes) FileStore.write_error) ∧
  (Db.m_local_cache s = None →
   Db.ts_transaction_active other = false →
   (Db.trace [Db.Begin; Db.GetKey k] (Db.on_thread other s')).1
   = [Db.RBool true; Db.RString (FileStore.file_get_value k (Db.m_file s))]).
Proof.
  intros Ha Hfile s'. unfold s'. split; [by apply commit_result|].
  assert (Db.m_file (Db.commit_in_order writes deletes s) = Db.m_file s)
    as Hsame.
  { apply commit_in_order_not_opening. intros [_ Hw]. congruence. }
  split; [done|]. split; [intros Hopen; by apply commit_writes_cerr_read_only|].
  intros Hc Hother.
  rewrite (begin_then_get k _ other Hother). do 3 f_equal.
  destruct (commit_in_order_state writes deletes s)
    as (_ & _ & _ & _ & Hcache).
  rewrite get_key_no_cache; [|done|apply not_elem_of_empty|done|].
  - cbn [Db.m_file Db.with_locals Db.on_thread fst]. by rewrite Hsame.
  - cbn [Db.m_local_cache Db.with_locals Db.on_thread].
    rewrite Hcache. by rewrite Hc.
Qed.

Lemma commit_on_read_only_file_witness :
  let s0 := Db.new (FileStore.read_only "k=v") 0 in
  let s := (Db.trace [Db.Begin; Db.DeleteKey "k"; Db.SetKey "j" "w"] s0).2 in
  (Db.commit_transaction s).1 = true ∧
  (Db.trace [Db.Begin; Db.GetKey "k"]
     (Db.on_thread s0 (Db.commit_transaction s).2)).1
  = [Db.RBool true; Db.RString "v"] ∧
  Db.commit_transaction_cerr s
  = [FileStore.write_error; FileStore.write_error].
Proof.
  intros s0 s.
  assert (Db.ts_transaction_active s = true) as Ha by (by vm_compute).
  destruct (commit_on_read_only_file s s0 "k"
              (map_to_list (Db.ts_transaction_data s))
              (elements (Db.ts_transaction_deletes s)) Ha eq_refl)
    as (H1 & _ & H3 & H4).
  split; [exact H1|]. split.
  - rewrite (commit_snd s Ha). cbn [snd].
    rewrite (H4 eq_refl eq_refl). by vm_compute.
  - unfold Db.commit_transaction_cerr, Db.commit_in_order_cerr.
    rewrite Ha, (H3 ltac:(by eexists)). by vm_compute.
Defined.



(** * The test driver *)

Section test_driver.

Import Db.

Lemma occurs_string_of_uint c d :
  FileStore.occurs c "0123456789" = false →
  FileStore.occurs c (NilEmpty.string_of_uint d) = false.
Proof.
  intros H. simpl in H.
  repeat (apply orb_false_elim in H as [? H]).
  induction d as [|d IH|d IH|d IH|d IH|d IH|d IH|d IH|d IH|d IH|d IH];
    simpl; [done|..]; rewrite IH; by rewrite orb_false_r.
Qed.

Lemma occurs_to_string c n :
  FileStore.occurs c "-0123456789" = false →
  FileStore.occurs c (to_string n) = false.
Proof.
  intros H. simpl in H. apply orb_false_elim in H as [Hminus H].
  assert (FileStore.occurs c "0" = false) as H0.
  { simpl in *. by apply orb_false_elim in H as [-> _]. }
  assert (∀ d, FileStore.occurs c (NilZero.string_of_uint d) = false) as Hu.
  { intros d. destruct d; try done; by apply occurs_string_of_uint. }
  unfold to_string. destruct (Z.to_int n) as [d|d]; simpl.
  - apply Hu.
  - by rewrite Hminus, Hu.
Qed.

Lemma append_inj_l s a b : s +:+ a = s +:+ b → a = b.
Proof.
  induction s as [|c s IH]; [done|].
  rewrite !append_cons. intros [= H]. by apply IH.
Qed.

Lemma test1_keys_differ id : "key" +:+ id +:+ "_1" ≠ "key" +:+ id +:+ "_2".
Proof. intros H. by do 2 apply append_inj_l in H. Qed.

Lemma test1_key_plain n suffix :
  FileStore.plain_key suffix →
  FileStore.plain_key ("key" +:+ to_string n +:+ suffix).
Proof.
  intros [H1 H2]. split; rewrite !occurs_append.
  - by rewrite (occurs_to_string "=" n), H1.
  - by rewrite (occurs_to_string FileStore.newline n), H2.
Qed.

Lemma test1_value_plain n suffix :
  FileStore.plain_value suffix →
  FileStore.plain_value ("value" +:+ to_string n +:+ suffix).
Proof.
  intros H. unfold FileStore.plain_value. rewrite !occurs_append.
  by rewrite (occurs_to_string FileStore.newline n), H.
Qed.

End test_driver.


Section test_driver_run.

Import Db.

Variable thread_id : Z.
Variable s : t.
Hypothesis Hidle : ts_transaction_active s = false.

Let id := to_string thread_id.
Let key1 := "key" +:+ id +:+ "_1".
Let key2 := "key" +:+ id +:+ "_2".
Let value1 := "value" +:+ id +:+ "_1".
Let value2 := "value" +:+ id +:+ "_2".

(** The states [test1] goes through. *)
Let db1 := with_locals true ∅ ∅ s.
Let db2 := with_locals true (<[key1 := value1]> ∅) (∅ ∖ {[key1]})
             (get_key key1 db1).2.
Let db3 := with_locals true (<[key2 := value2]> (<[key1 := value1]> ∅))
             (∅ ∖ {[key1]} ∖ {[key2]}) (get_key key2 db2).2.
Let db6 := with_locals true
             (delete key1 (<[key2 := value2]> (<[key1 := value1]> ∅)))
             (∅ ∖ {[key1]} ∖ {[key2]} ∪ {[key1]}) db3.

Lemma test1_get1 : get_key key1 db3 = (value1, db3).
Proof.
  apply get_key_staged; simpl.
  - done.
  - intros [[Hin _]%elem_of_difference _]%elem_of_difference.
    by apply not_elem_of_empty in Hin.
  - rewrite lookup_insert_ne by (apply not_eq_sym, test1_keys_differ).
    apply lookup_insert_eq.
Qed.

Lemma test1_get2 : get_key key2 db3 = (value2, db3).
Proof.
  apply get_key_staged; simpl.
  - done.
  - intros [[Hin _]%elem_of_difference _]%elem_of_difference.
    by apply not_elem_of_empty in Hin.
  - apply lookup_insert_eq.
Qed.

(** What [test1] writes on a thread without a transaction, with the
    messages of the calls it makes. *)
Lemma test1_run :
  test1 thread_id s
  = (((Cerr <$> set_key_cerr key1 value1 db1)
      ++ (Cerr <$> set_key_cerr key2 value2 db2)
      ++ [Cout ("Thread " +:+ id +:+ ": Set " +:+ key1 +:+ " = " +:+ value1
                +:+ endl);
          Cout ("Thread " +:+ id +:+ ": Set " +:+ key2 +:+ " = " +:+ value2
                +:+ endl)])
     ++ ((Cerr <$> get_key_cerr key1 db3)
         ++ (Cerr <$> get_key_cerr key2 db3)
         ++ [Cout ("Thread " +:+ id +:+ ": Got " +:+ key1 +:+ " = "
                   +:+ value1 +:+ endl);
             Cout ("Thread " +:+ id +:+ ": Got " +:+ key2 +:+ " = "
                   +:+ value2 +:+ endl)])
     ++ ((Cerr <$> delete_key_cerr key1 db3)
         ++ [Cout ("Thread " +:+ id +:+ ": Deleted " +:+ key1 +:+ endl)])
     ++ (Cerr <$> commit_transaction_cerr db6)
     ++ [Cerr ("Thread " +:+ id +:+ ": Committed transaction!" +:+ endl);
         Cout (print_cache (commit_transaction db6).2)],
     (commit_transaction db6).2).
Proof.
  unfold test1. rewrite (begin_inactive s Hidle).
  lazy beta iota zeta delta [negb]. fold id key1 key2 value1 value2 db1.
  rewrite (set_key_active key1 value1 db1 eq_refl). lazy beta iota.
  match goal with
  | |- context [set_key key2 value2 ?x] => change x with db2
  end.
  rewrite (set_key_active key2 value2 db2 eq_refl). lazy beta iota.
  match goal with
  | |- context [get_key key1 ?x] =>
      lazymatch x with db1 => fail | _ => change x with db3 end
  end.
  rewrite test1_get1. lazy beta iota. rewrite test1_get2. lazy beta iota.
  rewrite (delete_key_active key1 db3 eq_refl), test1_get1. lazy beta iota.
  match goal with
  | |- context [commit_transaction ?x] => change x with db6
  end.
  pose proof (commit_result db6 eq_refl) as Hc.
  destruct (commit_transaction db6) as [committed db7]. simpl in Hc.
  subst committed. done.
Qed.

Lemma test1_db6_file : m_file db6 = m_file s.
Proof.
  simpl. destruct (get_key_frame key2 db2) as [-> _]. simpl.
  by destruct (get_key_frame key1 db1) as [-> _].
Qed.

Lemma test1_db6_plain : plain_buffer db6.
Proof.
  split; simpl.
  - intros k v. destruct (decide (k = key1)) as [->|Hne1].
    { by rewrite lookup_delete_eq. }
    rewrite lookup_delete_ne by done.
    destruct (decide (k = key2)) as [->|Hne2].
    + rewrite lookup_insert_eq. intros [= <-]. split.
      * by apply test1_key_plain.
      * by apply test1_value_plain.
    + rewrite lookup_insert_ne by done.
      rewrite lookup_insert_ne by done. by rewrite lookup_empty.
  - intros k [Hin|Hin]%elem_of_union.
    + apply elem_of_difference in Hin as [Hin _].
      apply elem_of_difference in Hin as [Hin _].
      by apply not_elem_of_empty in Hin.
    + apply elem_of_singleton in Hin as ->.
      by apply (test1_key_plain thread_id "_1").
Qed.

Lemma test1_db6_deletes k : k ∈ ts_transaction_deletes db6 ↔ k = key1.
Proof.
  simpl. rewrite elem_of_union, elem_of_singleton. split; [|by right].
  intros [Hin|Hin]; [|done].
  apply elem_of_difference in Hin as [Hin _].
  apply elem_of_difference in Hin as [Hin _].
  by apply not_elem_of_empty in Hin.
Qed.

Lemma test1_db6_elements : elements (ts_transaction_deletes db6) = [key1].
Proof.
  assert (ts_transaction_deletes db6 = {[key1]}) as ->.
  { apply set_eq. intros k. rewrite test1_db6_deletes.
    by rewrite elem_of_singleton. }
  apply elements_singleton.
Qed.

Lemma test1_db6_pairs :
  map_to_list (ts_transaction_data db6) = [(key2, value2)].
Proof.
  assert (ts_transaction_data db6 = {[key2 := value2]}) as ->.
  { simpl. rewrite delete_insert_ne by apply test1_keys_differ.
    rewrite delete_insert_eq, delete_empty. apply insert_empty. }
  apply map_to_list_singleton.
Qed.

Lemma test1_db6_cache_ok : cache_ok s → cache_ok db6.
Proof.
  intros Hok. apply (get_key_cache_ok key2 db2).
  apply (get_key_cache_ok key1 db1). exact Hok.
Qed.

(** The last [put] of the commit is the one for the deleted key. *)
Lemma test1_cache_front c :
  cache_ok s → m_local_cache (commit_transaction db6).2 = Some c →
  head (Cache.entries c) = Some (key1, None).
Proof.
  intros Hok. rewrite (commit_cache db6 eq_refl).
  destruct (m_local_cache db6) as [c0|] eqn:Hc0; [|done].
  destruct (test1_db6_cache_ok Hok c0 Hc0) as [Hwf Hcap].
  simpl. intros [= <-]. unfold commit_puts, puts_in_order.
  rewrite test1_db6_elements.
  rewrite foldl_app. simpl.
  destruct (fold_put_wf
              ((λ p : string * string, (p.1, Some p.2))
                 <$> map_to_list (ts_transaction_data db6)) c0 Hwf Hcap)
    as [Hwf' Hcap'].
  destruct (put_front key1 None _ Hwf' ltac:(by rewrite Hcap'))
    as (it & rest & Hl & _).
  unfold Cache.entries. simpl in Hl. by rewrite Hl.
Qed.

(** The messages of [test1] itself. *)
Let messages (result1 result2 : string) (db7 : t) : list output * list output :=
  ([Cout ("Thread " +:+ id +:+ ": Set " +:+ key1 +:+ " = " +:+ value1
          +:+ endl);
    Cout ("Thread " +:+ id +:+ ": Set " +:+ key2 +:+ " = " +:+ value2
          +:+ endl);
    Cout ("Thread " +:+ id +:+ ": Got " +:+ key1 +:+ " = " +:+ result1
          +:+ endl);
    Cout ("Thread " +:+ id +:+ ": Got " +:+ key2 +:+ " = " +:+ result2
          +:+ endl);
    Cout ("Thread " +:+ id +:+ ": Deleted " +:+ key1 +:+ endl)],
   [Cerr ("Thread " +:+ id +:+ ": Committed transaction!" +:+ endl);
    Cout (print_cache db7)]).

Lemma test1_staged_quiet :
  get_key_cerr key1 db3 = [] ∧ get_key_cerr key2 db3 = [] ∧
  delete_key_cerr key1 db3 = [].
Proof.
  assert (key1 ∉ ts_transaction_deletes db3) as H1.
  { simpl. intros [[Hin _]%elem_of_difference _]%elem_of_difference.
    by apply not_elem_of_empty in Hin. }
  assert (key2 ∉ ts_transaction_deletes db3) as H2.
  { simpl. intros [[Hin _]%elem_of_difference _]%elem_of_difference.
    by apply not_elem_of_empty in Hin. }
  assert (ts_transaction_data db3 !! key1 = Some value1) as Hv1.
  { simpl. rewrite lookup_insert_ne by (apply not_eq_sym, test1_keys_differ).
    apply lookup_insert_eq. }
  assert (ts_transaction_data db3 !! key2 = Some value2) as Hv2.
  { simpl. apply lookup_insert_eq. }
  split; [|split].
  - by apply (get_key_cerr_staged key1 value1).
  - by apply (get_key_cerr_staged key2 value2).
  - unfold delete_key_cerr. simpl. by apply (get_key_cerr_staged key1 value1).
Qed.

Lemma test1_db2_file : m_file db2 = m_file s.
Proof. simpl. by destruct (get_key_frame key1 db1) as [-> _]. Qed.

(** On a file that opens for reading and for writing the calls of
    [test1] write nothing to [std::cerr]. *)
Lemma test1_quiet :
  FileStore.read_write (m_file s) →
  (test1 thread_id s).1
  = (messages value1 value2 (commit_transaction db6).2).1
    ++ (messages value1 value2 (commit_transaction db6).2).2.
Proof.
  intros Hfile. rewrite test1_run. cbn [fst].
  destruct test1_staged_quiet as (-> & -> & ->).
  unfold set_key_cerr. cbn [ts_transaction_active db1 db2 with_locals negb].
  rewrite (get_key_cerr_opens key1 db1) by apply Hfile.
  rewrite (get_key_cerr_opens key2 db2)
    by (rewrite test1_db2_file; apply Hfile).
  unfold commit_transaction_cerr.
  cbn [ts_transaction_active db6 with_locals].
  rewrite commit_in_order_cerr_opens; [done|].
  by rewrite test1_db6_file.
Qed.

(** On a file that does not open for reading, and without a cache, each
    of the two [set_key] and each of the two rounds of the commit writes
    the message of the file helpers. *)
Lemma test1_unreadable :
  FileStore.contents (m_file s) = None →
  m_local_cache s = None →
  (test1 thread_id s).1
  = [Cerr FileStore.read_error; Cerr FileStore.read_error]
    ++ (messages value1 value2 (commit_transaction db6).2).1
    ++ [Cerr FileStore.read_error; Cerr FileStore.read_error]
    ++ (messages value1 value2 (commit_transaction db6).2).2.
Proof.
  intros Hfile Hcache. rewrite test1_run. cbn [fst].
  destruct test1_staged_quiet as (-> & -> & ->).
  unfold set_key_cerr. cbn [ts_transaction_active db1 db2 with_locals negb].
  assert (get_key key1 db1
          = (FileStore.file_get_value key1 (m_file db1), db1)) as Hg1.
  { apply get_key_no_cache; [done|apply not_elem_of_empty|done|done]. }
  assert (m_local_cache db2 = None) as Hcache2.
  { unfold db2. by rewrite Hg1. }
  rewrite (get_key_cerr_no_cache key1 db1);
    [|done|apply not_elem_of_empty|done|done].
  rewrite (get_key_cerr_no_cache key2 db2); [|done| | |done].
  - unfold FileStore.file_get_value_cerr. rewrite test1_db2_file.
    cbn [m_file db1 with_locals]. rewrite Hfile.
    unfold commit_transaction_cerr.
    cbn [ts_transaction_active db6 with_locals].
    rewrite commit_in_order_cerr_unreadable
      by (by rewrite test1_db6_file).
    by rewrite test1_db6_pairs, test1_db6_elements.
  - simpl. intros [Hin _]%elem_of_difference.
    by apply not_elem_of_empty in Hin.
  - simpl. rewrite lookup_insert_ne by apply test1_keys_differ.
    apply lookup_empty.
Qed.

End test_driver_run.


(** X23.  [test1] on a thread with an active transaction writes one
    failure message and changes nothing.  On a thread without one it
    always commits and leaves the thread without a transaction and with
    an empty buffer; the cache, if there is one, has the deleted key
    [key<id>_1] at the front with no value.  On a file that opens for
    reading and for writing it writes its seven messages and nothing
    else, the two values read back being the two just set; on a file that
    does not open for reading, and without a cache, the two [set_key] and
    the two rounds of the commit each add the message of the file
    helpers, eleven messages in all.  On a file that opens for reading
    and for writing and has at most one line per key, the file afterwards
    returns nothing for [key<id>_1], [value<id>_2] for [key<id>_2], and
    what it returned before for every other key without [=]. *)
Theorem test1_commits (thread_id : Z) (s : Db.t) :
  let id := Db.to_string thread_id in
  let key1 := "key" +:+ id +:+ "_1" in
  let key2 := "key" +:+ id +:+ "_2" in
  let value1 := "value" +:+ id +:+ "_1" in
  let value2 := "value" +:+ id +:+ "_2" in
  let r := Db.test1 thread_id s in
  let set_got_deleted :=
    [Db.Cout ("Thread " +:+ id +:+ ": Set " +:+ key1 +:+ " = "
              +:+ value1 +:+ Db.endl);
     Db.Cout ("Thread " +:+ id +:+ ": Set " +:+ key2 +:+ " = "
              +:+ value2 +:+ Db.endl);
     Db.Cout ("Thread " +:+ id +:+ ": Got " +:+ key1 +:+ " = "
              +:+ value1 +:+ Db.endl);
     Db.Cout ("Thread " +:+ id +:+ ": Got " +:+ key2 +:+ " = "
              +:+ value2 +:+ Db.endl);
     Db.Cout ("Thread " +:+ id +:+ ": Deleted " +:+ key1 +:+ Db.endl)] in
  let committed :=
    [Db.Cerr ("Thread " +:+ id +:+ ": Committed transaction!" +:+ Db.endl);
     Db.Cout (Db.print_cache r.2)] in
  let helper_error := Db.Cerr FileStore.read_error in
  (Db.ts_transaction_active s = true →
   r = ([Db.Cerr ("Thread " +:+ id +:+ ": Failed to begin transaction!"
                  +:+ Db.endl)], s)) ∧
  (Db.ts_transaction_active s = false →
   Db.ts_transaction_active r.2 = false ∧
   Db.ts_transaction_data r.2 = ∅ ∧ Db.ts_transaction_deletes r.2 = ∅ ∧
   (Db.cache_ok s →
    ∀ c, Db.m_local_cache r.2 = Some c →
         head (Cache.entries c) = Some (key1, None)) ∧
   (FileStore.read_write (Db.m_file s) →
    r.1 = set_got_deleted ++ committed) ∧
   (FileStore.contents (Db.m_file s) = None → Db.m_local_cache s = None →
    r.1 = [helper_error; helper_error] ++ set_got_deleted
          ++ [helper_error; helper_error] ++ committed) ∧
   (FileStore.read_write (Db.m_file s) →
    FileStore.one_line_per_key (Db.m_file s) →
    FileStore.file_get_value key1 (Db.m_file r.2) = "" ∧
    FileStore.file_get_value key2 (Db.m_file r.2) = value2 ∧
    (∀ k, FileStore.occurs "=" k = false → k ≠ key1 → k ≠ key2 →
          FileStore.file_get_value k (Db.m_file r.2)
          = FileStore.file_get_value k (Db.m_file s)) ∧
    FileStore.one_line_per_key (Db.m_file r.2))).
Proof.
  cbv zeta. split.
  - intros Ha. unfold Db.test1, Db.begin_transaction. by rewrite Ha.
  - intros Hidle.
    pose proof (test1_run thread_id s Hidle) as Hrun.
    pose proof (test1_quiet thread_id s Hidle) as Hquiet.
    pose proof (test1_unreadable thread_id s Hidle) as Hunread.
    pose proof (test1_db6_file thread_id s) as Hfile6.
    pose proof (test1_db6_plain thread_id s) as Hplain6.
    pose proof (test1_db6_deletes thread_id s) as Hdel6.
    pose proof (test1_cache_front thread_id s) as Hfront.
    cbv zeta in Hrun, Hfile6, Hplain6, Hdel6, Hfront.
    cbv beta zeta in Hquiet, Hunread.
    rewrite Hrun in Hquiet, Hunread. rewrite Hrun.
    cbn [fst snd] in Hquiet, Hunread. cbn [fst snd].
    match type of Hfile6 with Db.m_file ?x = _ => set (db6 := x) in * end.
    destruct (commit_active db6 eq_refl) as (s' & Hc & Ha' & Hd' & Hs' & _).
    assert (s' = (Db.commit_transaction db6).2) as -> by (by rewrite Hc).
    split; [done|]. split; [done|]. split; [done|].
    split; [intros Hok c Hcache; by apply Hfront|].
    split; [exact Hquiet|]. split; [exact Hunread|].
    intros Hopens Hone.
    rewrite <- Hfile6 in Hopens, Hone.
    pose proof (test1_keys_differ (Db.to_string thread_id)) as Hne.
    split; [|split; [|split]].
    + rewrite (commit_file_value db6); [|done|done|done|done|].
      * rewrite decide_True; [done|]. by apply Hdel6.
      * by apply (test1_key_plain thread_id "_1").
    + rewrite (commit_file_value db6); [|done|done|done|done|].
      * rewrite decide_False by (rewrite Hdel6; by apply not_eq_sym).
        assert (Db.ts_transaction_data db6 !! ("key" +:+ Db.to_string thread_id
                                               +:+ "_2")
                = Some ("value" +:+ Db.to_string thread_id +:+ "_2")) as ->;
          [|done].
        unfold db6. simpl.
        rewrite lookup_delete_ne by done. by rewrite lookup_insert_eq.
      * by apply (test1_key_plain thread_id "_2").
    + intros k Hk Hk1 Hk2.
      rewrite (commit_file_value db6) by done.
      rewrite decide_False by (by rewrite Hdel6).
      rewrite Hfile6.
      assert (Db.ts_transaction_data db6 !! k = None) as ->; [|done].
      unfold db6. simpl.
      rewrite lookup_delete_ne by done.
      rewrite !lookup_insert_ne by done. apply lookup_empty.
    + by apply commit_one_line.
Qed.

Lemma test1_commits_witness :
  let r := Db.test1 7 (Db.new (FileStore.regular "") 2) in
  length r.1 = 7 ∧
  FileStore.file_get_value "key7_1" (Db.m_file r.2) = "" ∧
  FileStore.file_get_value "key7_2" (Db.m_file r.2) = "value7_2" ∧
  length (Db.test1 7 (Db.new FileStore.missing 0)).1 = 11.
Proof.
  intros r.
  assert (FileStore.read_write (FileStore.regular "")) as Hrw
    by (split; [by eexists|reflexivity]).
  destruct (proj2 (test1_commits 7 (Db.new (FileStore.regular "") 2)) eq_refl)
    as (_ & _ & _ & _ & Hlog & _ & Hfile).
  destruct (Hfile Hrw empty_file_one_line) as (H1 & H2 & _).
  split; [unfold r; by rewrite (Hlog Hrw)|].
  split; [exact H1|]. split; [exact H2|].
  destruct (proj2 (test1_commits 7 (Db.new FileStore.missing 0)) eq_refl)
    as (_ & _ & _ & _ & _ & Hlog' & _).
  by rewrite (Hlog' eq_refl eq_refl).
Defined.
